(** * Neo4j checkpoint saver for LangGraph.js: a shallow embedding

    The development follows the TypeScript sources:
    - [base.ts]           serialization helpers and config parsing
                          (class [BaseNeo4jSaver]);
    - [cypher-queries.ts] the fixed Cypher statements, each embedded as a
                          function on an explicit graph store;
    - [saver.ts]          the caller-facing operations (class [Neo4jSaver]).

    JavaScript values are an inductive type, the graph database is a record
    of node and edge lists, and every operation that can throw returns a
    [result]. *)

From Stdlib Require Import List String Ascii ZArith NArith Lia Bool.
From Stdlib Require Import Strings.Byte DecimalString Sorted OrdersEx.
Import ListNotations.
Open Scope string_scope.

Set Implicit Arguments.
Set Warnings "-register-all".

(* ======================================================================= *)
(** ** Errors and the result monad *)
(* ======================================================================= *)

(** What a rejected promise / thrown exception carries.  The sources only
    ever throw plain [Error]s themselves (the two [Required] cases); the
    other constructors are the exceptions of the runtime, of the serializer
    and of the database driver. *)
Inductive error : Type :=
| ThreadIdRequired        (* "thread_id is required in config.configurable" *)
| CheckpointIdRequired    (* "checkpoint_id is required for putWrites" *)
| ConstraintViolation     (* Neo4j: a uniqueness constraint rejects a write *)
| ParameterMissing        (* Neo4j: a statement parameter was undefined *)
| InvalidLimit            (* Neo4j: negative LIMIT *)
| TypeError               (* JavaScript runtime TypeError *)
| SerdeError.             (* the external serializer threw *)

Inductive result (A : Type) : Type :=
| Ok (a : A)
| Err (e : error).
Arguments Ok {A} a.
Arguments Err {A} e.

Definition bind {A B} (r : result A) (f : A -> result B) : result B :=
  match r with
  | Ok a => f a
  | Err e => Err e
  end.

Notation "'do' x <- step ; rest" := (bind step (fun x => rest))
  (right associativity, at level 60, step at next level, x name).
Notation "'do' ' pat <- step ; rest" :=
  (bind step (fun res => let 'pat := res in rest))
  (right associativity, at level 60, step at next level, pat pattern).

Definition is_ok {A} (r : result A) : bool :=
  match r with Ok _ => true | Err _ => false end.

(* ======================================================================= *)
(** ** JavaScript values *)
(* ======================================================================= *)

(** The values the saver inspects with [typeof], [Array.isArray] and
    [Object.entries].  Numbers are the integer-valued ones (channel versions
    are integer counters); [JMap] stands for the exotic objects ([Map],
    [Set], [Date], ...) whose content is not held in own enumerable
    properties; [JFunction] stands for the values whose [typeof] is neither
    a primitive JSON type nor ["object"]. *)
#[local] Unset Elimination Schemes.
Inductive jsval : Type :=
| JUndefined
| JNull
| JBool (b : bool)
| JNumber (n : Z)
| JString (s : string)
| JArray (items : list jsval)
| JObject (entries : list (string * jsval))
| JMap (pairs : list (jsval * jsval))
| JFunction (src : string).
#[local] Set Elimination Schemes.

Inductive jstype : Type :=
| TUndefined | TObject | TBoolean | TNumber | TString | TFunction.

Definition typeof (v : jsval) : jstype :=
  match v with
  | JUndefined => TUndefined
  | JNull | JArray _ | JObject _ | JMap _ => TObject
  | JBool _ => TBoolean
  | JNumber _ => TNumber
  | JString _ => TString
  | JFunction _ => TFunction
  end.

Definition Array_isArray (v : jsval) : bool :=
  match v with JArray _ => true | _ => false end.

Definition string_of_nat (n : nat) : string :=
  NilZero.string_of_uint (Nat.to_uint n).

Definition string_of_Z (z : Z) : string :=
  NilZero.string_of_int (Z.to_int z).

Fixpoint indexed {A} (i : nat) (l : list A) : list (string * A) :=
  match l with
  | [] => []
  | x :: tl => (string_of_nat i, x) :: indexed (S i) tl
  end.

Fixpoint chars (s : string) : list string :=
  match s with
  | EmptyString => []
  | String c tl => String c EmptyString :: chars tl
  end.

(** [Object.entries(v)]: own enumerable string-keyed properties. *)
Definition Object_entries (v : jsval) : list (string * jsval) :=
  match v with
  | JObject entries => entries
  | JArray items => indexed 0 items
  | JString s => indexed 0 (map JString (chars s))
  | _ => []
  end.

Definition Object_keys (v : jsval) : list string := map fst (Object_entries v).
Definition Object_values (v : jsval) : list jsval := map snd (Object_entries v).

Fixpoint assoc {A} (k : string) (l : list (string * A)) : option A :=
  match l with
  | [] => None
  | (k', v) :: tl => if String.eqb k k' then Some v else assoc k tl
  end.

(** Property read [v[k]] (own properties only). *)
Definition prop (v : jsval) (k : string) : jsval :=
  match assoc k (Object_entries v) with
  | Some x => x
  | None => JUndefined
  end.

(** [k in v] for a value already known to be a non-null object. *)
Definition js_in (k : string) (v : jsval) : bool :=
  match assoc k (Object_entries v) with
  | Some _ => true
  | None => false
  end.

(** [a ?? b] *)
Definition nullish (a b : jsval) : jsval :=
  match a with
  | JUndefined | JNull => b
  | _ => a
  end.

Fixpoint join (sep : string) (l : list string) : string :=
  match l with
  | [] => ""
  | [x] => x
  | x :: tl => x ++ sep ++ join sep tl
  end.

(** [String(v)] *)
Fixpoint js_String (v : jsval) : string :=
  match v with
  | JUndefined => "undefined"
  | JNull => "null"
  | JBool true => "true"
  | JBool false => "false"
  | JNumber n => string_of_Z n
  | JString s => s
  | JArray items =>
      join "," (map (fun i => match i with
                              | JUndefined | JNull => ""
                              | _ => js_String i
                              end) items)
  | JObject _ => "[object Object]"
  | JMap _ => "[object Map]"
  | JFunction src => src
  end.

(* ======================================================================= *)
(** ** JSON *)
(* ======================================================================= *)

(** A JSON text is represented by the document it denotes, that is by the
    value [JSON.parse] yields for it; [JSON.parse] is then the identity and
    [JSON.stringify] is the normalisation below.  [None] is the JavaScript
    [undefined] that [JSON.stringify] returns for values without a JSON
    form. *)
Definition json_text : Type := jsval.

Definition JSON_parse (data : json_text) : jsval := data.

Fixpoint JSON_stringify (v : jsval) : option json_text :=
  match v with
  | JUndefined | JFunction _ => None
  | JNull => Some JNull
  | JBool b => Some (JBool b)
  | JNumber n => Some (JNumber n)
  | JString s => Some (JString s)
  | JArray items =>
      Some (JArray (map (fun i => match JSON_stringify i with
                                  | Some t => t
                                  | None => JNull
                                  end) items))
  | JObject entries =>
      Some (JObject
              ((fix props (l : list (string * jsval)) : list (string * jsval) :=
                  match l with
                  | [] => []
                  | (k, x) :: tl =>
                      match JSON_stringify x with
                      | Some t => (k, t) :: props tl
                      | None => props tl
                      end
                  end) entries))
  | JMap _ => Some (JObject [])
  end.

(* ======================================================================= *)
(** ** Hex encoding of bytes ([bytesToHex], [hexToBytes]) *)
(* ======================================================================= *)

Definition hex_digit (d : N) : ascii :=
  match d with
  | 0 => "0" | 1 => "1" | 2 => "2" | 3 => "3" | 4 => "4" | 5 => "5"
  | 6 => "6" | 7 => "7" | 8 => "8" | 9 => "9" | 10 => "a" | 11 => "b"
  | 12 => "c" | 13 => "d" | 14 => "e" | _ => "f"
  end%N%char.

(** [b.toString(16)] for a byte. *)
Definition toString16 (b : byte) : string :=
  let n := Byte.to_N b in
  if (n <? 16)%N then String (hex_digit n) EmptyString
  else String (hex_digit (n / 16)) (String (hex_digit (n mod 16)) EmptyString).

Fixpoint repeat_char (c : ascii) (n : nat) : string :=
  match n with
  | O => EmptyString
  | S k => String c (repeat_char c k)
  end.

(** [s.padStart(len, fill)] for a one-character [fill]. *)
Definition padStart (s : string) (len : nat) (fill : ascii) : string :=
  repeat_char fill (len - String.length s) ++ s.

Definition bytesToHex (bytes : list byte) : string :=
  join "" (map (fun b => padStart (toString16 b) 2 "0"%char) bytes).

Definition hex_value (c : ascii) : option Z :=
  let n := Z.of_N (N_of_ascii c) in
  if (48 <=? n)%Z && (n <=? 57)%Z then Some (n - 48)%Z
  else if (97 <=? n)%Z && (n <=? 102)%Z then Some (n - 87)%Z
  else if (65 <=? n)%Z && (n <=? 70)%Z then Some (n - 55)%Z
  else None.

Definition is_space (c : ascii) : bool :=
  let n := N_of_ascii c in
  ((9 <=? n) && (n <=? 13) || (n =? 32))%N.

Fixpoint skip_spaces (s : string) : string :=
  match s with
  | String c tl => if is_space c then skip_spaces tl else s
  | EmptyString => EmptyString
  end.

(** The longest prefix of hexadecimal digits, read as a number. *)
Fixpoint hex_prefix (acc : option Z) (s : string) : option Z :=
  match s with
  | String c tl =>
      match hex_value c with
      | Some d =>
          hex_prefix (Some (match acc with
                            | Some a => 16 * a + d
                            | None => d
                            end)%Z) tl
      | None => acc
      end
  | EmptyString => acc
  end.

Definition strip_0x (s : string) : string :=
  match s with
  | String "0" (String "x" tl) => tl
  | String "0" (String "X" tl) => tl
  | _ => s
  end.

(** [parseInt(s, 16)]; [None] is [NaN]. *)
Definition parseInt16 (s : string) : option Z :=
  match skip_spaces s with
  | String "-" tl => option_map Z.opp (hex_prefix None (strip_0x tl))
  | String "+" tl => hex_prefix None (strip_0x tl)
  | s' => hex_prefix None (strip_0x s')
  end.

(** Storing a number into a [Uint8Array] cell. *)
Definition to_uint8 (n : option Z) : byte :=
  match n with
  | Some z =>
      match Byte.of_N (Z.to_N (z mod 256)) with
      | Some b => b
      | None => x00
      end
  | None => x00
  end.

(** [hexToBytes] on a string: one cell per complete pair of characters; the
    write for a trailing single character falls outside the array. *)
Fixpoint hexToBytes_string (hex : string) : list byte :=
  match hex with
  | String c1 (String c2 tl) =>
      to_uint8 (parseInt16 (String c1 (String c2 EmptyString)))
        :: hexToBytes_string tl
  | _ => []
  end.

(** [hexToBytes(x as string)]: the argument is a cast property read, so it
    may be any value.  [undefined.length] and [null.length] throw; a value
    without a [length] gives an empty array (the loop does not run); a
    non-empty array has a [length] but no [substring].  Functions and
    objects carrying a [length] of their own are outside what the stored
    wrappers contain and are taken to throw as well. *)
Definition hexToBytes (hex : jsval) : result (list byte) :=
  match hex with
  | JString s => Ok (hexToBytes_string s)
  | JUndefined | JNull => Err TypeError
  | JArray (_ :: _) => Err TypeError
  | JFunction _ => Err TypeError
  | JObject entries =>
      match assoc "length" entries with
      | None => Ok []
      | Some _ => Err TypeError
      end
  | _ => Ok []
  end.

(* ======================================================================= *)
(** ** The external serializer and the records of [types.ts] *)
(* ======================================================================= *)

(** What [serde.dumpsTyped] hands back as data: the code tests
    [data instanceof Uint8Array]. *)
Inductive dumped : Type :=
| DBytes (bytes : list byte)
| DOther.

(** [SerializerProtocol]: an opaque collaborator; either call may throw.
    [loadsTyped] receives its type tag through a cast, hence a [jsval]. *)
Record SerializerProtocol : Type := {
  dumpsTyped : jsval -> result (string * dumped);
  loadsTyped : jsval -> list byte -> result jsval
}.

(** [config.configurable] of a [RunnableConfig]; an absent [configurable]
    is the record with three [None]s. *)
Record RunnableConfig : Type := {
  thread_id : option string;
  checkpoint_ns : option string;
  checkpoint_id : option string
}.

Record ParsedConfig : Type := {
  threadId : string;
  checkpointNs : string;
  checkpointId : option string
}.

Inductive ChannelVersion : Type :=
| VString (s : string)
| VNumber (n : Z).

Definition js_of_version (v : ChannelVersion) : jsval :=
  match v with
  | VString s => JString s
  | VNumber n => JNumber n
  end.

(** [Checkpoint] of @langchain/langgraph-checkpoint. *)
Record Checkpoint : Type := {
  v : Z;
  id : string;
  ts : string;
  channel_values : list (string * jsval);
  channel_versions : list (string * ChannelVersion);
  versions_seen : jsval
}.

(** The checkpoint as the JavaScript object it is. *)
Definition js_of_checkpoint (c : Checkpoint) : jsval :=
  JObject [ ("v", JNumber (v c));
            ("id", JString (id c));
            ("ts", JString (ts c));
            ("channel_values", JObject (channel_values c));
            ("channel_versions",
              JObject (map (fun kv => (fst kv, js_of_version (snd kv)))
                           (channel_versions c)));
            ("versions_seen", versions_seen c) ].

Record BlobData : Type := {
  blob_channel : string;
  blob_version : string;
  blob_type : string;
  blob_blob : option json_text
}.

Record WriteRecord : Type := {
  wr_taskId : string;
  wr_taskPath : string;
  wr_idx : nat;
  wr_channel : string;
  wr_type : string;
  wr_blob : option json_text
}.

Record CheckpointRecord : Type := {
  rec_thread_id : string;
  rec_checkpoint_ns : string;
  rec_checkpoint_id : string;
  rec_parent_checkpoint_id : option string;
  rec_type : string;
  rec_checkpoint : json_text;
  rec_metadata : json_text
}.

Record CheckpointTuple : Type := {
  config : RunnableConfig;
  checkpoint : jsval;
  metadata : jsval;
  parentConfig : option RunnableConfig;
  pendingWrites : list (string * string * jsval)
}.

(** JavaScript truthiness of an optional string. *)
Definition truthy (s : option string) : bool :=
  match s with
  | Some s' => negb (String.eqb s' "")
  | None => false
  end.

(* ======================================================================= *)
(** ** [base.ts]: class [BaseNeo4jSaver] *)
(* ======================================================================= *)

Definition parseConfig (cfg : RunnableConfig) : result ParsedConfig :=
  if negb (truthy (thread_id cfg)) then Err ThreadIdRequired
  else
    Ok {| threadId := match thread_id cfg with Some t => t | None => "" end;
          checkpointNs := match checkpoint_ns cfg with
                          | Some ns => ns
                          | None => ""
                          end;
          checkpointId := checkpoint_id cfg |}.

(** [isSimpleJsonSerializable].  For a non-array object the code tests
    [Object.entries(value).every(([k, v]) => typeof k === "string" && ...)];
    the keys [Object.entries] returns are always strings, and an exotic
    object has no entries. *)
Fixpoint isSimpleJsonSerializable (value : jsval) : bool :=
  match value with
  | JNull | JUndefined => true
  | JBool _ | JNumber _ | JString _ => true
  | JArray items => forallb isSimpleJsonSerializable items
  | JObject entries =>
      (fix every (l : list (string * jsval)) : bool :=
         match l with
         | [] => true
         | (_, x) :: tl => (true && isSimpleJsonSerializable x) && every tl
         end) entries
  | JMap _ => true
  | JFunction _ => false
  end.

(** The wrapper [{ __serde_type__: type, __serde_data__: hex }]. *)
Definition serde_wrapper (type : string) (data : list byte) : jsval :=
  JObject [ ("__serde_type__", JString type);
            ("__serde_data__", JString (bytesToHex data)) ].

Definition is_nonnull_object (x : jsval) : bool :=
  match x with
  | JArray _ | JObject _ | JMap _ => true
  | _ => false
  end.

Section Serde.

Variable serde : SerializerProtocol.

Definition dumpCheckpoint (c : jsval) : result (string * option json_text) :=
  do '(type, data) <- dumpsTyped serde c;
  match data with
  | DBytes bytes => Ok ("serde", JSON_stringify (serde_wrapper type bytes))
  | DOther => Ok ("json", JSON_stringify c)
  end.

Definition loadCheckpoint (_type : string) (data : json_text) : result jsval :=
  let parsed := JSON_parse data in
  if is_nonnull_object parsed && js_in "__serde_type__" parsed then
    let serdeType := prop parsed "__serde_type__" in
    do dataBytes <- hexToBytes (prop parsed "__serde_data__");
    loadsTyped serde serdeType dataBytes
  else Ok parsed.

Definition dumpMetadata (m : jsval) : result (string * option json_text) :=
  do '(serdeType, data) <- dumpsTyped serde m;
  match data with
  | DBytes bytes => Ok ("serde", JSON_stringify (serde_wrapper serdeType bytes))
  | DOther => Ok ("json", JSON_stringify m)
  end.

Definition loadMetadata (_type : string) (data : json_text) : result jsval :=
  let parsed := JSON_parse data in
  if is_nonnull_object parsed && js_in "__serde_type__" parsed then
    let serdeType := prop parsed "__serde_type__" in
    do dataBytes <- hexToBytes (prop parsed "__serde_data__");
    loadsTyped serde serdeType dataBytes
  else Ok parsed.

(** One iteration of the loop of [dumpBlobs]. *)
Definition dumpBlob (channelVersions : list (string * ChannelVersion))
    (channel : string) (value : jsval) : result BlobData :=
  let version :=
    js_String (match assoc channel channelVersions with
               | Some ver => js_of_version ver
               | None => JString ""
               end) in
  if isSimpleJsonSerializable value then
    Ok {| blob_channel := channel; blob_version := version;
          blob_type := "json"; blob_blob := JSON_stringify value |}
  else
    do '(type, data) <- dumpsTyped serde value;
    match data with
    | DBytes bytes =>
        Ok {| blob_channel := channel; blob_version := version;
              blob_type := "serde";
              blob_blob := JSON_stringify (serde_wrapper type bytes) |}
    | DOther =>
        Ok {| blob_channel := channel; blob_version := version;
              blob_type := "json"; blob_blob := JSON_stringify value |}
    end.

Fixpoint dumpBlobs (channelValues : list (string * jsval))
    (channelVersions : list (string * ChannelVersion))
    : result (list BlobData) :=
  match channelValues with
  | [] => Ok []
  | (channel, value) :: tl =>
      do b <- dumpBlob channelVersions channel value;
      do bs <- dumpBlobs tl channelVersions;
      Ok (b :: bs)
  end.

(** Assignment [o[k] = x] on an object held as its list of entries. *)
Fixpoint obj_set (o : list (string * jsval)) (k : string) (x : jsval)
    : list (string * jsval) :=
  match o with
  | [] => [(k, x)]
  | (k', y) :: tl =>
      if String.eqb k k' then (k', x) :: tl else (k', y) :: obj_set tl k x
  end.

(** The decoding shared by [loadBlobs] and [loadWrites]. *)
Definition loadBlob (type : string) (blob : json_text) : result jsval :=
  let parsed := JSON_parse blob in
  if String.eqb type "serde"
     || (is_nonnull_object parsed && js_in "__serde_type__" parsed) then
    let serdeType := prop parsed "__serde_type__" in
    do dataBytes <- hexToBytes (prop parsed "__serde_data__");
    loadsTyped serde serdeType dataBytes
  else Ok parsed.

Fixpoint loadBlobs_from (channelValues : list (string * jsval))
    (blobRecords : list (string * string * json_text))
    : result (list (string * jsval)) :=
  match blobRecords with
  | [] => Ok channelValues
  | (channel, type, blob) :: tl =>
      do x <- loadBlob type blob;
      loadBlobs_from (obj_set channelValues channel x) tl
  end.

Definition loadBlobs (blobRecords : list (string * string * json_text))
    : result (list (string * jsval)) :=
  loadBlobs_from [] blobRecords.

Fixpoint dumpWrites_from (idx : nat) (writes : list (string * jsval))
    (taskId taskPath : string) : result (list WriteRecord) :=
  match writes with
  | [] => Ok []
  | (channel, value) :: tl =>
      do r <-
        (if isSimpleJsonSerializable value then
           Ok {| wr_taskId := taskId; wr_taskPath := taskPath; wr_idx := idx;
                 wr_channel := channel; wr_type := "json";
                 wr_blob := JSON_stringify value |}
         else
           do '(type, data) <- dumpsTyped serde value;
           match data with
           | DBytes bytes =>
               Ok {| wr_taskId := taskId; wr_taskPath := taskPath;
                     wr_idx := idx; wr_channel := channel;
                     wr_type := "serde";
                     wr_blob := JSON_stringify (serde_wrapper type bytes) |}
           | DOther =>
               Ok {| wr_taskId := taskId; wr_taskPath := taskPath;
                     wr_idx := idx; wr_channel := channel; wr_type := "json";
                     wr_blob := JSON_stringify value |}
           end);
      do rs <- dumpWrites_from (S idx) tl taskId taskPath;
      Ok (r :: rs)
  end.

Definition dumpWrites (writes : list (string * jsval)) (taskId : string)
    : result (list WriteRecord) :=
  dumpWrites_from 0 writes taskId "".

Fixpoint loadWrites
    (writeRecords : list (string * string * string * json_text))
    : result (list (string * string * jsval)) :=
  match writeRecords with
  | [] => Ok []
  | (task_id, channel, type, blob) :: tl =>
      do value <- loadBlob type blob;
      do rest <- loadWrites tl;
      Ok ((task_id, channel, value) :: rest)
  end.

(** [makeCheckpointTuple]: the second argument ([_channelValues] in the
    source) is not used. *)
Definition makeCheckpointTuple (checkpointRecord : CheckpointRecord)
    (_channelValues : list (string * jsval))
    (pendingWrites : list (string * string * jsval))
    : result CheckpointTuple :=
  do checkpoint <- loadCheckpoint (rec_type checkpointRecord)
                                  (rec_checkpoint checkpointRecord);
  do deserializedMetadata <- loadMetadata (rec_type checkpointRecord)
                                          (rec_metadata checkpointRecord);
  Ok {| config :=
          {| thread_id := Some (rec_thread_id checkpointRecord);
             checkpoint_ns := Some (rec_checkpoint_ns checkpointRecord);
             checkpoint_id := Some (rec_checkpoint_id checkpointRecord) |};
        checkpoint := checkpoint;
        metadata := deserializedMetadata;
        parentConfig :=
          if truthy (rec_parent_checkpoint_id checkpointRecord) then
            Some {| thread_id := Some (rec_thread_id checkpointRecord);
                    checkpoint_ns := Some (rec_checkpoint_ns checkpointRecord);
                    checkpoint_id :=
                      rec_parent_checkpoint_id checkpointRecord |}
          else None;
        pendingWrites := map (fun w => w) pendingWrites |}.

End Serde.

(* ======================================================================= *)
(** ** The graph store *)
(* ======================================================================= *)

(** The database after [setup()]: nodes are records held in lists, an edge
    names its end points by their constrained keys, and a [CREATE] that would
    break one of the four uniqueness constraints is rejected.  An edge that
    is created together with a node and only ever deleted with it
    ([HAS_CHECKPOINT], [HAS_WRITE], [HAS_BRANCH]) is a field of that node.
    Where Cypher leaves the order of rows open the model uses creation
    order.  The [created_at] timestamps are not represented. *)

Definition thread_key : Type := (string * string)%type.

Record CheckpointNode : Type := {
  cn_thread : thread_key;            (* (t)-[:HAS_CHECKPOINT]->(c) *)
  cn_checkpoint_id : string;
  cn_type : string;
  cn_checkpoint : json_text;
  cn_metadata : json_text
}.

Record ChannelStateNode : Type := {
  cs_channel : string;
  cs_version : string;
  cs_type : string;
  cs_blob : json_text
}.

Record PendingWriteNode : Type := {
  pw_checkpoint : string;            (* (c)-[:HAS_WRITE]->(w) *)
  pw_task_id : string;
  pw_task_path : string;
  pw_idx : nat;
  pw_channel : string;
  pw_type : string;
  pw_blob : json_text
}.

Record BranchNode : Type := {
  br_thread : thread_key;            (* (t)-[:HAS_BRANCH]->(b) *)
  br_branch_id : string;
  br_name : string;
  br_fork_point_id : option string
}.

Record Store : Type := {
  threads : list thread_key;
  checkpoints : list CheckpointNode;
  previous : list (string * string);              (* child, parent *)
  channel_states : list ChannelStateNode;
  has_channel : list (string * (string * string)); (* checkpoint, key *)
  writes : list PendingWriteNode;
  branches : list BranchNode;
  active_branch : list (thread_key * string);     (* thread, branch *)
  head : list (string * string);                  (* branch, checkpoint *)
  on_branch : list (string * string)              (* checkpoint, branch *)
}.

Definition empty_store : Store :=
  {| threads := []; checkpoints := []; previous := []; channel_states := [];
     has_channel := []; writes := []; branches := []; active_branch := [];
     head := []; on_branch := [] |}.

Definition key_eqb (a b : string * string) : bool :=
  String.eqb (fst a) (fst b) && String.eqb (snd a) (snd b).

Definition mem_key (k : string * string) (l : list (string * string)) : bool :=
  existsb (key_eqb k) l.

Definition mem_string (k : string) (l : list string) : bool :=
  existsb (String.eqb k) l.

(** Cypher's [<] on strings. *)
Definition str_ltb (a b : string) : bool :=
  match String_as_OT.compare a b with
  | Lt => true
  | _ => false
  end.

(** [MATCH (c:Checkpoint {checkpoint_id: $checkpoint_id})] *)
Definition match_checkpoint (s : Store) (checkpoint_id : string)
    : list CheckpointNode :=
  filter (fun c => String.eqb (cn_checkpoint_id c) checkpoint_id)
         (checkpoints s).

(** [MATCH (t:Thread {...})-[:HAS_CHECKPOINT]->(c:Checkpoint)] *)
Definition thread_checkpoints (s : Store) (t : thread_key)
    : list CheckpointNode :=
  if mem_key t (threads s)
  then filter (fun c => key_eqb (cn_thread c) t) (checkpoints s)
  else [].

Definition match_channel_state (s : Store) (k : string * string)
    : list ChannelStateNode :=
  filter (fun cs => key_eqb (cs_channel cs, cs_version cs) k)
         (channel_states s).

Definition thread_branches (s : Store) (t : thread_key) : list BranchNode :=
  filter (fun b => key_eqb (br_thread b) t) (branches s).

(** The rows a statement parameter contributes: an [undefined] parameter is
    left out of the message by the driver and the server rejects the
    statement. *)
Definition param {A} (p : option A) : result A :=
  match p with
  | Some a => Ok a
  | None => Err ParameterMissing
  end.

(** Insertion into a list kept in descending [checkpoint_id] order. *)
Fixpoint insert_desc (x : CheckpointNode) (l : list CheckpointNode)
    : list CheckpointNode :=
  match l with
  | [] => [x]
  | y :: tl =>
      if str_ltb (cn_checkpoint_id x) (cn_checkpoint_id y)
      then y :: insert_desc x tl
      else x :: y :: tl
  end.

(** [ORDER BY c.checkpoint_id DESC] *)
Definition order_by_id_desc (l : list CheckpointNode) : list CheckpointNode :=
  fold_right insert_desc [] l.

Fixpoint insert_idx (x : PendingWriteNode) (l : list PendingWriteNode)
    : list PendingWriteNode :=
  match l with
  | [] => [x]
  | y :: tl =>
      if Nat.ltb (pw_idx y) (pw_idx x)
      then y :: insert_idx x tl
      else x :: y :: tl
  end.

(** [ORDER BY w.idx] *)
Definition order_by_idx (l : list PendingWriteNode) : list PendingWriteNode :=
  fold_right insert_idx [] l.

(** [OPTIONAL MATCH (c)-[:PREVIOUS]->(parent:Checkpoint)] followed by the
    [RETURN] shared by the four checkpoint reads: one row per parent, or one
    row with a null parent. *)
Definition checkpoint_rows (s : Store) (c : CheckpointNode)
    : list CheckpointRecord :=
  let mk (p : option string) :=
    {| rec_thread_id := fst (cn_thread c);
       rec_checkpoint_ns := snd (cn_thread c);
       rec_checkpoint_id := cn_checkpoint_id c;
       rec_parent_checkpoint_id := p;
       rec_type := cn_type c;
       rec_checkpoint := cn_checkpoint c;
       rec_metadata := cn_metadata c |} in
  let parents :=
    flat_map (fun e =>
                if String.eqb (fst e) (cn_checkpoint_id c)
                then map cn_checkpoint_id (match_checkpoint s (snd e))
                else [])
             (previous s) in
  match parents with
  | [] => [mk None]
  | _ => map (fun p => mk (Some p)) parents
  end.

(* ======================================================================= *)
(** ** [cypher-queries.ts]: the statements *)
(* ======================================================================= *)

(** A writing statement is a function to [result Store]; on [Err] the
    statement has been rolled back and the store is the one before it. *)

(** [CYPHER_UPSERT_CHECKPOINT_SIMPLE]: [MERGE] the thread, [CREATE] the
    checkpoint and its [HAS_CHECKPOINT] edge. *)
Definition CYPHER_UPSERT_CHECKPOINT_SIMPLE (s : Store)
    (thread_id checkpoint_ns checkpoint_id type : string)
    (checkpoint metadata : option json_text) : result Store :=
  do checkpoint <- param checkpoint;
  do metadata <- param metadata;
  match match_checkpoint s checkpoint_id with
  | _ :: _ => Err ConstraintViolation
  | [] =>
      let t := (thread_id, checkpoint_ns) in
      Ok {| threads := if mem_key t (threads s) then threads s
                       else threads s ++ [t];
            checkpoints :=
              checkpoints s ++
                [ {| cn_thread := t; cn_checkpoint_id := checkpoint_id;
                     cn_type := type; cn_checkpoint := checkpoint;
                     cn_metadata := metadata |} ];
            previous := previous s;
            channel_states := channel_states s;
            has_channel := has_channel s;
            writes := writes s;
            branches := branches s;
            active_branch := active_branch s;
            head := head s;
            on_branch := on_branch s |}
  end.

(** [MERGE] of an edge: add it unless it is there. *)
Definition merge_edge (e : string * string) (l : list (string * string))
    : list (string * string) :=
  if mem_key e l then l else l ++ [e].

(** [CYPHER_LINK_PARENT_CHECKPOINT]: two [MATCH]es, then [MERGE] of the
    [PREVIOUS] edge for every row; no row, no edge, no error. *)
Definition CYPHER_LINK_PARENT_CHECKPOINT (s : Store)
    (checkpoint_id parent_checkpoint_id : string) : result Store :=
  let rows :=
    flat_map (fun c => map (fun p => (cn_checkpoint_id c, cn_checkpoint_id p))
                           (match_checkpoint s parent_checkpoint_id))
             (match_checkpoint s checkpoint_id) in
  Ok {| threads := threads s;
        checkpoints := checkpoints s;
        previous := fold_left (fun l e => merge_edge e l) rows (previous s);
        channel_states := channel_states s;
        has_channel := has_channel s;
        writes := writes s;
        branches := branches s;
        active_branch := active_branch s;
        head := head s;
        on_branch := on_branch s |}.

(** [MERGE (cs:ChannelState {channel, version}) ON CREATE SET cs.type, cs.blob] *)
Definition merge_channel_state (channel version type : string)
    (blob : json_text) (l : list ChannelStateNode) : list ChannelStateNode :=
  if existsb (fun cs => key_eqb (cs_channel cs, cs_version cs)
                                (channel, version)) l
  then l
  else l ++ [ {| cs_channel := channel; cs_version := version;
                 cs_type := type; cs_blob := blob |} ].

(** [CYPHER_UPSERT_CHANNEL_STATE]: for every matched checkpoint, [MERGE] the
    channel state and [CREATE] a [HAS_CHANNEL] edge. *)
Definition CYPHER_UPSERT_CHANNEL_STATE (s : Store)
    (checkpoint_id channel version type : string) (blob : option json_text)
    : result Store :=
  do blob <- param blob;
  let rows := match_checkpoint s checkpoint_id in
  Ok {| threads := threads s;
        checkpoints := checkpoints s;
        previous := previous s;
        channel_states :=
          fold_left (fun l _ => merge_channel_state channel version type blob l)
                    rows (channel_states s);
        has_channel :=
          has_channel s ++
            map (fun c => (cn_checkpoint_id c, (channel, version))) rows;
        writes := writes s;
        branches := branches s;
        active_branch := active_branch s;
        head := head s;
        on_branch := on_branch s |}.

(** [CYPHER_UPSERT_WRITE]: one new [PendingWrite] per matched checkpoint. *)
Definition CYPHER_UPSERT_WRITE (s : Store)
    (checkpoint_id task_id task_path : string) (idx : nat)
    (channel type : string) (blob : option json_text) : result Store :=
  do blob <- param blob;
  Ok {| threads := threads s;
        checkpoints := checkpoints s;
        previous := previous s;
        channel_states := channel_states s;
        has_channel := has_channel s;
        writes :=
          writes s ++
            map (fun c => {| pw_checkpoint := cn_checkpoint_id c;
                             pw_task_id := task_id;
                             pw_task_path := task_path;
                             pw_idx := idx;
                             pw_channel := channel;
                             pw_type := type;
                             pw_blob := blob |})
                (match_checkpoint s checkpoint_id);
        branches := branches s;
        active_branch := active_branch s;
        head := head s;
        on_branch := on_branch s |}.

(** [CYPHER_GET_CHECKPOINT_BY_ID] *)
Definition CYPHER_GET_CHECKPOINT_BY_ID (s : Store)
    (thread_id checkpoint_ns checkpoint_id : string) : list CheckpointRecord :=
  flat_map (checkpoint_rows s)
           (filter (fun c => String.eqb (cn_checkpoint_id c) checkpoint_id)
                   (thread_checkpoints s (thread_id, checkpoint_ns))).

(** [CYPHER_GET_LATEST_CHECKPOINT] *)
Definition CYPHER_GET_LATEST_CHECKPOINT (s : Store)
    (thread_id checkpoint_ns : string) : list CheckpointRecord :=
  flat_map (checkpoint_rows s)
           (firstn 1 (order_by_id_desc
                        (thread_checkpoints s (thread_id, checkpoint_ns)))).

(** [CYPHER_GET_ACTIVE_BRANCH_HEAD]:
    [(t)-[:ACTIVE_BRANCH]->(b:Branch)-[:HEAD]->(c:Checkpoint)] *)
Definition CYPHER_GET_ACTIVE_BRANCH_HEAD (s : Store)
    (thread_id checkpoint_ns : string) : list CheckpointRecord :=
  let t := (thread_id, checkpoint_ns) in
  if mem_key t (threads s) then
    flat_map
      (fun a =>
         if key_eqb (fst a) t then
           flat_map
             (fun b =>
                flat_map
                  (fun h =>
                     if String.eqb (fst h) (br_branch_id b)
                     then flat_map
                            (fun c =>
                               map (fun r =>
                                      {| rec_thread_id := thread_id;
                                         rec_checkpoint_ns := checkpoint_ns;
                                         rec_checkpoint_id := rec_checkpoint_id r;
                                         rec_parent_checkpoint_id :=
                                           rec_parent_checkpoint_id r;
                                         rec_type := rec_type r;
                                         rec_checkpoint := rec_checkpoint r;
                                         rec_metadata := rec_metadata r |})
                                   (checkpoint_rows s c))
                            (match_checkpoint s (snd h))
                     else [])
                  (head s))
             (filter (fun b => String.eqb (br_branch_id b) (snd a))
                     (branches s))
         else [])
      (active_branch s)
  else [].

(** [CYPHER_GET_CHANNEL_STATES]:
    [WHERE cs.channel IN $channels AND cs.version IN $versions];
    the rows are (channel, type, blob, version). *)
Definition CYPHER_GET_CHANNEL_STATES (s : Store) (checkpoint_id : string)
    (channels versions : list string)
    : list (string * string * json_text * string) :=
  flat_map
    (fun c =>
       flat_map
         (fun e =>
            if String.eqb (fst e) (cn_checkpoint_id c) then
              map (fun cs => (cs_channel cs, cs_type cs, cs_blob cs,
                              cs_version cs))
                  (filter (fun cs => mem_string (cs_channel cs) channels
                                     && mem_string (cs_version cs) versions)
                          (match_channel_state s (snd e)))
            else [])
         (has_channel s))
    (match_checkpoint s checkpoint_id).

(** [CYPHER_GET_WRITES] *)
Definition CYPHER_GET_WRITES (s : Store) (checkpoint_id : string)
    : list PendingWriteNode :=
  order_by_idx
    (flat_map (fun c => filter (fun w => String.eqb (pw_checkpoint w)
                                                    (cn_checkpoint_id c))
                               (writes s))
              (match_checkpoint s checkpoint_id)).

(** [CYPHER_LIST_CHECKPOINTS]; a negative [LIMIT] is rejected. *)
Definition CYPHER_LIST_CHECKPOINTS (s : Store)
    (thread_id checkpoint_ns : string) (before_id : option string) (limit : Z)
    : result (list CheckpointRecord) :=
  if (limit <? 0)%Z then Err InvalidLimit
  else
    Ok (flat_map (checkpoint_rows s)
          (firstn (Z.to_nat limit)
             (order_by_id_desc
                (filter (fun c => match before_id with
                                  | None => true
                                  | Some b => str_ltb (cn_checkpoint_id c) b
                                  end)
                        (thread_checkpoints s (thread_id, checkpoint_ns)))))).

(** [CYPHER_DELETE_THREAD]: every thread with that [thread_id] (whatever its
    namespace), its checkpoints, their pending writes and its branches are
    detached and deleted. *)
Definition CYPHER_DELETE_THREAD (s : Store) (thread_id : string)
    : result Store :=
  let dead_t (t : thread_key) :=
    String.eqb (fst t) thread_id && mem_key t (threads s) in
  let dead_c :=
    map cn_checkpoint_id (filter (fun c => dead_t (cn_thread c))
                                 (checkpoints s)) in
  let dead_b :=
    map br_branch_id (filter (fun b => dead_t (br_thread b)) (branches s)) in
  Ok {| threads := filter (fun t => negb (dead_t t)) (threads s);
        checkpoints :=
          filter (fun c => negb (dead_t (cn_thread c))) (checkpoints s);
        previous :=
          filter (fun e => negb (mem_string (fst e) dead_c
                                 || mem_string (snd e) dead_c))
                 (previous s);
        channel_states := channel_states s;
        has_channel :=
          filter (fun e => negb (mem_string (fst e) dead_c)) (has_channel s);
        writes :=
          filter (fun w => negb (mem_string (pw_checkpoint w) dead_c))
                 (writes s);
        branches :=
          filter (fun b => negb (dead_t (br_thread b))) (branches s);
        active_branch :=
          filter (fun a => negb (dead_t (fst a) || mem_string (snd a) dead_b))
                 (active_branch s);
        head :=
          filter (fun h => negb (mem_string (fst h) dead_b
                                 || mem_string (snd h) dead_c))
                 (head s);
        on_branch :=
          filter (fun o => negb (mem_string (fst o) dead_c
                                 || mem_string (snd o) dead_b))
                 (on_branch s) |}.

(** [CYPHER_DELETE_ORPHAN_CHANNEL_STATES] *)
Definition CYPHER_DELETE_ORPHAN_CHANNEL_STATES (s : Store) : result Store :=
  Ok {| threads := threads s;
        checkpoints := checkpoints s;
        previous := previous s;
        channel_states :=
          filter (fun cs => mem_key (cs_channel cs, cs_version cs)
                                    (map snd (has_channel s)))
                 (channel_states s);
        has_channel := has_channel s;
        writes := writes s;
        branches := branches s;
        active_branch := active_branch s;
        head := head s;
        on_branch := on_branch s |}.

Definition match_branch (s : Store) (branch_id : string) : list BranchNode :=
  filter (fun b => String.eqb (br_branch_id b) branch_id) (branches s).

(** [CYPHER_CREATE_MAIN_BRANCH]: guarded by [WHERE NOT (t)-[:HAS_BRANCH]->()]. *)
Definition CYPHER_CREATE_MAIN_BRANCH (s : Store)
    (thread_id checkpoint_ns branch_id : string) : result Store :=
  let t := (thread_id, checkpoint_ns) in
  if mem_key t (threads s) && negb (existsb (fun _ => true) (thread_branches s t))
  then
    match match_branch s branch_id with
    | _ :: _ => Err ConstraintViolation
    | [] =>
        Ok {| threads := threads s;
              checkpoints := checkpoints s;
              previous := previous s;
              channel_states := channel_states s;
              has_channel := has_channel s;
              writes := writes s;
              branches :=
                branches s ++
                  [ {| br_thread := t; br_branch_id := branch_id;
                       br_name := "main"; br_fork_point_id := None |} ];
              active_branch := active_branch s ++ [(t, branch_id)];
              head := head s;
              on_branch := on_branch s |}
    end
  else Ok s.

(** [CYPHER_CREATE_BRANCH]: the branch and its [HAS_BRANCH] edge are created
    before the fork point is matched. *)
Definition CYPHER_CREATE_BRANCH (s : Store)
    (thread_id checkpoint_ns branch_id name fork_point_id : string)
    : result Store :=
  let t := (thread_id, checkpoint_ns) in
  if mem_key t (threads s) then
    match match_branch s branch_id with
    | _ :: _ => Err ConstraintViolation
    | [] =>
        Ok {| threads := threads s;
              checkpoints := checkpoints s;
              previous := previous s;
              channel_states := channel_states s;
              has_channel := has_channel s;
              writes := writes s;
              branches :=
                branches s ++
                  [ {| br_thread := t; br_branch_id := branch_id;
                       br_name := name;
                       br_fork_point_id := Some fork_point_id |} ];
              active_branch := active_branch s;
              head :=
                head s ++ map (fun c => (branch_id, cn_checkpoint_id c))
                              (match_checkpoint s fork_point_id);
              on_branch := on_branch s |}
    end
  else Ok s.

(** The rows left after [OPTIONAL MATCH ... DELETE old WITH x]: one per
    deleted edge, and one when there was none. *)
Definition optional_rows {A} (olds : list A) : nat := Nat.max 1 (List.length olds).

(** [CYPHER_SET_ACTIVE_BRANCH] *)
Definition CYPHER_SET_ACTIVE_BRANCH (s : Store)
    (thread_id checkpoint_ns branch_id : string) : result Store :=
  let t := (thread_id, checkpoint_ns) in
  if mem_key t (threads s) then
    let olds := filter (fun a => key_eqb (fst a) t) (active_branch s) in
    let targets :=
      filter (fun b => String.eqb (br_branch_id b) branch_id)
             (thread_branches s t) in
    Ok {| threads := threads s;
          checkpoints := checkpoints s;
          previous := previous s;
          channel_states := channel_states s;
          has_channel := has_channel s;
          writes := writes s;
          branches := branches s;
          active_branch :=
            filter (fun a => negb (key_eqb (fst a) t)) (active_branch s)
              ++ List.concat (repeat (map (fun b => (t, br_branch_id b)) targets)
                                (optional_rows olds));
          head := head s;
          on_branch := on_branch s |}
  else Ok s.

(** [CYPHER_UPDATE_BRANCH_HEAD] *)
Definition CYPHER_UPDATE_BRANCH_HEAD (s : Store)
    (thread_id checkpoint_ns checkpoint_id : string) : result Store :=
  let t := (thread_id, checkpoint_ns) in
  let actives :=
    if mem_key t (threads s)
    then flat_map (fun a => if key_eqb (fst a) t
                            then map br_branch_id (match_branch s (snd a))
                            else [])
                  (active_branch s)
    else [] in
  let rows :=
    flat_map (fun b =>
                List.concat (repeat
                          (map (fun c => (b, cn_checkpoint_id c))
                               (match_checkpoint s checkpoint_id))
                          (optional_rows
                             (filter (fun h => String.eqb (fst h) b)
                                     (head s)))))
             actives in
  Ok {| threads := threads s;
        checkpoints := checkpoints s;
        previous := previous s;
        channel_states := channel_states s;
        has_channel := has_channel s;
        writes := writes s;
        branches := branches s;
        active_branch := active_branch s;
        head :=
          filter (fun h => negb (mem_string (fst h) actives)) (head s) ++ rows;
        on_branch :=
          fold_left (fun l r => merge_edge (snd r, fst r) l) rows
                    (on_branch s) |}.

(** [CYPHER_THREAD_HAS_BRANCHES]: the [branch_count] column; no thread, no
    row. *)
Definition CYPHER_THREAD_HAS_BRANCHES (s : Store)
    (thread_id checkpoint_ns : string) : list nat :=
  let t := (thread_id, checkpoint_ns) in
  if mem_key t (threads s) then [List.length (thread_branches s t)] else [].

(** A row of [CYPHER_LIST_BRANCHES] (without [created_at]). *)
Record BranchInfo : Type := {
  branchId : string;
  name : string;
  forkPointId : option string;
  isActive : bool;
  headCheckpointId : option string
}.

(** [CYPHER_LIST_BRANCHES] *)
Definition CYPHER_LIST_BRANCHES (s : Store)
    (thread_id checkpoint_ns : string) : list BranchInfo :=
  let t := (thread_id, checkpoint_ns) in
  if mem_key t (threads s) then
    flat_map
      (fun b =>
         let mk (h : option string) :=
           {| branchId := br_branch_id b; name := br_name b;
              forkPointId := br_fork_point_id b;
              isActive := mem_key (fst t, snd t)
                            (map fst (filter (fun a => String.eqb (snd a)
                                                         (br_branch_id b))
                                             (active_branch s)));
              headCheckpointId := h |} in
         match flat_map (fun h => if String.eqb (fst h) (br_branch_id b)
                                  then map cn_checkpoint_id
                                           (match_checkpoint s (snd h))
                                  else [])
                        (head s) with
         | [] => [mk None]
         | hs => map (fun h => mk (Some h)) hs
         end)
      (thread_branches s t)
  else [].

(** [CYPHER_DELETE_BRANCH]: [DETACH DELETE] of the branch node. *)
Definition CYPHER_DELETE_BRANCH (s : Store) (branch_id : string)
    : result Store :=
  Ok {| threads := threads s;
        checkpoints := checkpoints s;
        previous := previous s;
        channel_states := channel_states s;
        has_channel := has_channel s;
        writes := writes s;
        branches :=
          filter (fun b => negb (String.eqb (br_branch_id b) branch_id))
                 (branches s);
        active_branch :=
          filter (fun a => negb (String.eqb (snd a) branch_id))
                 (active_branch s);
        head := filter (fun h => negb (String.eqb (fst h) branch_id)) (head s);
        on_branch :=
          filter (fun o => negb (String.eqb (snd o) branch_id)) (on_branch s) |}.

(* ======================================================================= *)
(** ** [saver.ts]: class [Neo4jSaver] *)
(* ======================================================================= *)

(** A method body runs statements one after the other on the session; each
    statement commits on its own, so an exception leaves the store as the
    statements before it made it. *)
Definition M (A : Type) : Type := Store -> result A * Store.

Definition mret {A} (a : A) : M A := fun s => (Ok a, s).

Definition mbind {A B} (m : M A) (f : A -> M B) : M B :=
  fun s => match m s with
           | (Ok a, s') => f a s'
           | (Err e, s') => (Err e, s')
           end.

Definition lift {A} (r : result A) : M A := fun s => (r, s).

(** [await session.run(stmt, params)] for a writing statement. *)
Definition run (stmt : Store -> result Store) : M unit :=
  fun s => match stmt s with
           | Ok s' => (Ok tt, s')
           | Err e => (Err e, s)
           end.

(** [await session.run(stmt, params)] for a reading statement. *)
Definition query {A} (q : Store -> A) : M A := fun s => (Ok (q s), s).

Notation "x <- step ;; rest" := (mbind step (fun x => rest))
  (right associativity, at level 61, step at next level).
Notation "' pat <- step ;; rest" :=
  (mbind step (fun res => let 'pat := res in rest))
  (right associativity, at level 61, step at next level, pat pattern).
Notation "step ;; rest" := (mbind step (fun _ => rest))
  (right associativity, at level 61).

Fixpoint for_each {A} (l : list A) (body : A -> M unit) : M unit :=
  match l with
  | [] => mret tt
  | x :: tl => body x ;; for_each tl body
  end.

Record CheckpointListOptions : Type := {
  limit : option Z;
  before : option RunnableConfig
}.

Section Saver.

Variable serde : SerializerProtocol.

(** [put].  [uuid] is what [crypto.randomUUID()] returns if it is called. *)
Definition put (cfg : RunnableConfig) (checkpoint : Checkpoint)
    (metadata : jsval) (_newVersions : list (string * ChannelVersion))
    (uuid : string) : M RunnableConfig :=
  pc <- lift (parseConfig cfg) ;;
  let parentCheckpointId := checkpointId pc in
  let checkpointId := id checkpoint in
  ' (type, serializedCheckpoint) <-
      lift (dumpCheckpoint serde (js_of_checkpoint checkpoint)) ;;
  ' (_, serializedMetadata) <- lift (dumpMetadata serde metadata) ;;
  let channelValues := channel_values checkpoint in
  let channelVersions := channel_versions checkpoint in
  (* Step 1: Create Thread and Checkpoint *)
  run (fun s => CYPHER_UPSERT_CHECKPOINT_SIMPLE s (threadId pc)
                  (checkpointNs pc) checkpointId type serializedCheckpoint
                  serializedMetadata) ;;
  (* Step 2: Link to parent checkpoint if exists *)
  (if truthy parentCheckpointId
   then run (fun s => CYPHER_LINK_PARENT_CHECKPOINT s checkpointId
                        (match parentCheckpointId with
                         | Some p => p
                         | None => ""
                         end))
   else mret tt) ;;
  (* Step 3: Create ChannelState nodes *)
  blobs <- lift (dumpBlobs serde channelValues channelVersions) ;;
  for_each blobs
    (fun blob => run (fun s => CYPHER_UPSERT_CHANNEL_STATE s checkpointId
                                 (blob_channel blob) (blob_version blob)
                                 (blob_type blob) (blob_blob blob))) ;;
  (* Step 4: Handle branch management *)
  branchResult <- query (fun s => CYPHER_THREAD_HAS_BRANCHES s (threadId pc)
                                    (checkpointNs pc)) ;;
  match branchResult with
  | count :: _ =>
      if Nat.eqb count 0
      then run (fun s => CYPHER_CREATE_MAIN_BRANCH s (threadId pc)
                           (checkpointNs pc) uuid)
      else mret tt
  | [] => mret tt
  end ;;
  (* Update the active branch HEAD *)
  run (fun s => CYPHER_UPDATE_BRANCH_HEAD s (threadId pc) (checkpointNs pc)
                  checkpointId) ;;
  mret {| thread_id := Some (threadId pc);
          checkpoint_ns := Some (checkpointNs pc);
          checkpoint_id := Some checkpointId |}.

(** [putWrites] *)
Definition putWrites (cfg : RunnableConfig) (writes : list (string * jsval))
    (taskId : string) : M unit :=
  pc <- lift (parseConfig cfg) ;;
  if negb (truthy (checkpointId pc)) then lift (Err CheckpointIdRequired)
  else
    writeRecords <- lift (dumpWrites serde writes taskId) ;;
    for_each writeRecords
      (fun record =>
         run (fun s => CYPHER_UPSERT_WRITE s
                         (match checkpointId pc with
                          | Some c => c
                          | None => ""
                          end)
                         (wr_taskId record) (wr_taskPath record)
                         (wr_idx record) (wr_channel record)
                         (wr_type record) (wr_blob record))).

(** [x.channel_versions] on a decoded checkpoint: reading a property of
    [null] or [undefined] throws. *)
Definition read_prop (x : jsval) (k : string) : result jsval :=
  match x with
  | JUndefined | JNull => Err TypeError
  | _ => Ok (prop x k)
  end.

(** The rows [getTuple] fetches for the channel states of a decoded
    checkpoint. *)
Definition fetch_channel_states (s : Store) (checkpoint_id : string)
    (channelVersions : jsval)
    : list (string * string * json_text * string) :=
  let channels := Object_keys channelVersions in
  let versions := map js_String (Object_values channelVersions) in
  CYPHER_GET_CHANNEL_STATES s checkpoint_id channels versions.

(** [getTuple] reads only; [None] is [undefined]. *)
Definition getTuple (s : Store) (cfg : RunnableConfig)
    : result (option CheckpointTuple) :=
  do pc <- parseConfig cfg;
  let result :=
    if truthy (checkpointId pc) then
      CYPHER_GET_CHECKPOINT_BY_ID s (threadId pc) (checkpointNs pc)
        (match checkpointId pc with Some c => c | None => "" end)
    else
      match CYPHER_GET_ACTIVE_BRANCH_HEAD s (threadId pc) (checkpointNs pc) with
      | [] => CYPHER_GET_LATEST_CHECKPOINT s (threadId pc) (checkpointNs pc)
      | r => r
      end in
  match result with
  | [] => Ok None
  | checkpointRecord :: _ =>
      do checkpoint <- loadCheckpoint serde (rec_type checkpointRecord)
                                      (rec_checkpoint checkpointRecord);
      do cv <- read_prop checkpoint "channel_versions";
      let channelVersions := nullish cv (JObject []) in
      do channelValues <-
        (match Object_keys channelVersions with
         | _ :: _ =>
             loadBlobs serde
               (map (fun r => match r with
                              | (channel, type, blob, _) => (channel, type, blob)
                              end)
                    (fetch_channel_states s
                       (rec_checkpoint_id checkpointRecord) channelVersions))
         | [] => Ok []
         end);
      do pendingWrites <-
        loadWrites serde
          (map (fun w => (pw_task_id w, pw_channel w, pw_type w, pw_blob w))
               (CYPHER_GET_WRITES s (rec_checkpoint_id checkpointRecord)));
      do tuple <- makeCheckpointTuple serde checkpointRecord channelValues
                                      pendingWrites;
      Ok (Some tuple)
  end.

(** The tuples a generator yields, and the exception that ended it if one
    did. *)
Fixpoint yield_all (records : list CheckpointRecord)
    : list CheckpointTuple * option error :=
  match records with
  | [] => ([], None)
  | r :: tl =>
      match makeCheckpointTuple serde r [] [] with
      | Ok t => let (ts, e) := yield_all tl in (t :: ts, e)
      | Err e => ([], Some e)
      end
  end.

(** [list]: the outer [result] is an exception before the first [yield]. *)
Definition list_ (s : Store) (cfg : RunnableConfig)
    (options : option CheckpointListOptions)
    : result (list CheckpointTuple * option error) :=
  do pc <- parseConfig cfg;
  do beforeId <-
    (match match options with Some o => before o | None => None end with
     | Some b => do beforeConfig <- parseConfig b; Ok (checkpointId beforeConfig)
     | None => Ok None
     end);
  let limit :=
    match match options with Some o => limit o | None => None end with
    | Some l => l
    | None => 100%Z
    end in
  do records <- CYPHER_LIST_CHECKPOINTS s (threadId pc) (checkpointNs pc)
                                        beforeId limit;
  Ok (yield_all records).

(** [deleteThread] *)
Definition deleteThread (threadId : string) : M unit :=
  run (fun s => CYPHER_DELETE_THREAD s threadId) ;;
  run CYPHER_DELETE_ORPHAN_CHANNEL_STATES.

End Saver.




(* ======================================================================= *)
(** * Properties *)
(* ======================================================================= *)

(** ** Induction on JavaScript values *)

Section jsval_induction.

Variable P : jsval -> Prop.
Hypothesis H_undefined : P JUndefined.
Hypothesis H_null : P JNull.
Hypothesis H_bool : forall b, P (JBool b).
Hypothesis H_number : forall n, P (JNumber n).
Hypothesis H_string : forall s, P (JString s).
Hypothesis H_array : forall items, Forall P items -> P (JArray items).
Hypothesis H_object :
  forall entries, Forall (fun kv => P (snd kv)) entries -> P (JObject entries).
Hypothesis H_map : forall pairs, P (JMap pairs).
Hypothesis H_function : forall src, P (JFunction src).

Fixpoint jsval_nested_ind (x : jsval) : P x :=
  match x with
  | JUndefined => H_undefined
  | JNull => H_null
  | JBool b => H_bool b
  | JNumber n => H_number n
  | JString s => H_string s
  | JArray items =>
      H_array
        ((fix all (l : list jsval) : Forall P l :=
            match l with
            | [] => Forall_nil P
            | y :: tl => Forall_cons y (jsval_nested_ind y) (all tl)
            end) items)
  | JObject entries =>
      H_object
        ((fix all (l : list (string * jsval))
            : Forall (fun kv => P (snd kv)) l :=
            match l with
            | [] => Forall_nil _
            | kv :: tl =>
                Forall_cons kv (jsval_nested_ind (snd kv)) (all tl)
            end) entries)
  | JMap pairs => H_map pairs
  | JFunction src => H_function src
  end.

End jsval_induction.

(** ** Hex encoding round trip *)

Lemma hex_pair_digits (b : byte) :
  padStart (toString16 b) 2 "0"%char
  = String (hex_digit (Byte.to_N b / 16))
           (String (hex_digit (Byte.to_N b mod 16)) EmptyString).
Proof. destruct b; vm_compute; reflexivity. Qed.

Lemma hex_pair_value (b : byte) :
  to_uint8 (parseInt16 (String (hex_digit (Byte.to_N b / 16))
                          (String (hex_digit (Byte.to_N b mod 16))
                                  EmptyString))) = b.
Proof. destruct b; vm_compute; reflexivity. Qed.

Lemma hex_pair_shape (b : byte) :
  exists c1 c2,
    padStart (toString16 b) 2 "0"%char = String c1 (String c2 EmptyString)
    /\ to_uint8 (parseInt16 (String c1 (String c2 EmptyString))) = b.
Proof.
  do 2 eexists. split; [apply hex_pair_digits|apply hex_pair_value].
Qed.

Lemma bytesToHex_cons (b : byte) (bs : list byte) :
  bytesToHex (b :: bs) = (padStart (toString16 b) 2 "0"%char ++ bytesToHex bs)%string.
Proof.
  unfold bytesToHex. cbn [map join].
  destruct (map _ bs) eqn:E.
  - cbn [join]. destruct (hex_pair_shape b) as (c1 & c2 & -> & _). reflexivity.
  - reflexivity.
Qed.

Lemma hexToBytes_bytesToHex (bs : list byte) :
  hexToBytes_string (bytesToHex bs) = bs.
Proof.
  induction bs as [|b bs IH]; [reflexivity|].
  rewrite bytesToHex_cons.
  destruct (hex_pair_shape b) as (c1 & c2 & -> & Hb).
  cbn [String.append hexToBytes_string]. now rewrite Hb, IH.
Qed.

(** ** The serde wrapper is read back *)

Section wrapper.

Variable serde : SerializerProtocol.

Lemma loadCheckpoint_wrapper (ty ty' : string) (bytes : list byte) :
  forall t, JSON_stringify (serde_wrapper ty bytes) = Some t ->
  loadCheckpoint serde ty' t = loadsTyped serde (JString ty) bytes.
Proof.
  intros t [= <-]. unfold loadCheckpoint. cbn.
  now rewrite hexToBytes_bytesToHex.
Qed.

Lemma loadMetadata_wrapper (ty ty' : string) (bytes : list byte) :
  forall t, JSON_stringify (serde_wrapper ty bytes) = Some t ->
  loadMetadata serde ty' t = loadsTyped serde (JString ty) bytes.
Proof.
  intros t [= <-]. unfold loadMetadata. cbn.
  now rewrite hexToBytes_bytesToHex.
Qed.

End wrapper.

(* ======================================================================= *)
(** ** The encoder's classification (serialization layer) *)
(* ======================================================================= *)

Definition is_string (x : jsval) : bool :=
  match x with JString _ => true | _ => false end.

(** The classification in the specification's words: JSON-safe is null, a
    boolean, a number, a string, or a sequence or mapping composed
    recursively of JSON-safe values with only string keys. *)
Fixpoint spec_json_safe (x : jsval) : bool :=
  match x with
  | JNull | JBool _ | JNumber _ | JString _ => true
  | JArray items => forallb spec_json_safe items
  | JObject entries =>
      (fix every (l : list (string * jsval)) : bool :=
         match l with
         | [] => true
         | (_, y) :: tl => spec_json_safe y && every tl
         end) entries
  | JMap pairs =>
      (fix every (l : list (jsval * jsval)) : bool :=
         match l with
         | [] => true
         | (k, y) :: tl => is_string k && spec_json_safe y && every tl
         end) pairs
  | JUndefined | JFunction _ => false
  end.

(** The same with [undefined] accepted, as the guard
    [value === null || value === undefined] of the source does. *)
Fixpoint json_safe_or_undefined (x : jsval) : bool :=
  match x with
  | JUndefined | JNull | JBool _ | JNumber _ | JString _ => true
  | JArray items => forallb json_safe_or_undefined items
  | JObject entries =>
      (fix every (l : list (string * jsval)) : bool :=
         match l with
         | [] => true
         | (_, y) :: tl => json_safe_or_undefined y && every tl
         end) entries
  | JMap pairs =>
      (fix every (l : list (jsval * jsval)) : bool :=
         match l with
         | [] => true
         | (k, y) :: tl => is_string k && json_safe_or_undefined y && every tl
         end) pairs
  | JFunction _ => false
  end.

(** No exotic object anywhere inside. *)
Fixpoint plain_data (x : jsval) : bool :=
  match x with
  | JArray items => forallb plain_data items
  | JObject entries =>
      (fix every (l : list (string * jsval)) : bool :=
         match l with
         | [] => true
         | (_, y) :: tl => plain_data y && every tl
         end) entries
  | JMap _ => false
  | _ => true
  end.

Lemma isSimple_plain_data (x : jsval) :
  plain_data x = true ->
  isSimpleJsonSerializable x = json_safe_or_undefined x.
Proof.
  induction x as [ | | b | n | s | items IH | entries IH | pairs | src ]
    using jsval_nested_ind; intros Hp; try reflexivity; try discriminate.
  - cbn [isSimpleJsonSerializable json_safe_or_undefined plain_data] in *.
    induction IH as [|y tl Hy _ IHtl]; [reflexivity|].
    cbn [forallb] in *. apply andb_prop in Hp as [Hp1 Hp2].
    now rewrite Hy, IHtl.
  - cbn [isSimpleJsonSerializable json_safe_or_undefined plain_data] in *.
    induction IH as [|[k y] tl Hy _ IHtl]; [reflexivity|].
    cbn [snd] in Hy. apply andb_prop in Hp as [Hp1 Hp2].
    rewrite Hy, IHtl by assumption. reflexivity.
Qed.

(** The blob record the encoder produces for one channel. *)
Definition blob_of (cvs : list (string * ChannelVersion)) (channel : string)
    (type : string) (blob : option json_text) : BlobData :=
  {| blob_channel := channel;
     blob_version :=
       js_String (match assoc channel cvs with
                  | Some ver => js_of_version ver
                  | None => JString ""
                  end);
     blob_type := type;
     blob_blob := blob |}.

(** How [dumpBlobs] stores one channel value: directly when the classifier
    accepts it; otherwise through the serializer, opaque when it returns
    bytes and direct again when it does not. *)
Definition stored_as (serde : SerializerProtocol)
    (cvs : list (string * ChannelVersion)) (entry : string * jsval)
    (b : BlobData) : Prop :=
  let (channel, value) := entry in
  if isSimpleJsonSerializable value
  then b = blob_of cvs channel "json" (JSON_stringify value)
  else exists type data,
         dumpsTyped serde value = Ok (type, data)
         /\ b = match data with
                | DBytes bytes =>
                    blob_of cvs channel "serde"
                            (JSON_stringify (serde_wrapper type bytes))
                | DOther => blob_of cvs channel "json" (JSON_stringify value)
                end.

Lemma dumpBlob_stored_as serde cvs channel value b :
  dumpBlob serde cvs channel value = Ok b ->
  stored_as serde cvs (channel, value) b.
Proof.
  unfold dumpBlob, stored_as.
  destruct (isSimpleJsonSerializable value).
  - now intros [= <-].
  - destruct (dumpsTyped serde value) as [[type data]|e]; cbn [bind];
      [|discriminate].
    intros H. exists type, data. split; [reflexivity|].
    destruct data; now injection H as <-.
Qed.

Lemma dumpBlobs_stored_as serde cvs :
  forall values blobs,
    dumpBlobs serde values cvs = Ok blobs ->
    Forall2 (stored_as serde cvs) values blobs.
Proof.
  induction values as [|[channel value] tl IH]; intros blobs H.
  - injection H as <-. constructor.
  - cbn [dumpBlobs] in H.
    destruct (dumpBlob serde cvs channel value) as [b|e] eqn:Eb;
      cbn [bind] in H; [|discriminate].
    destruct (dumpBlobs serde tl cvs) as [bs|e] eqn:Ebs;
      cbn [bind] in H; [|discriminate].
    injection H as <-. constructor; [now apply dumpBlob_stored_as|now apply IH].
Qed.

(** A serializer that never returns bytes. *)
Definition text_serde : SerializerProtocol :=
  {| dumpsTyped := fun _ => Ok ("json", DOther);
     loadsTyped := fun _ _ => Err SerdeError |}.

(** C9, as stated, fails: [undefined] is classified JSON-safe although it is
    none of null, boolean, number, string, sequence or mapping; and a value
    the classifier rejects (a function) is stored with type ["json"] when the
    serializer does not return bytes. *)
Lemma encoder_classification_counterexample :
  (isSimpleJsonSerializable JUndefined = true
   /\ spec_json_safe JUndefined = false)
  /\ (isSimpleJsonSerializable (JFunction "f") = false
      /\ option_map blob_type
           (match dumpBlobs text_serde [("ch", JFunction "f")] [] with
            | Ok (b :: _) => Some b
            | _ => None
            end) = Some "json").
Proof. repeat split. Qed.

(** C9 (amended): on values without exotic objects the classifier accepts
    exactly null, undefined, booleans, numbers, strings and the arrays and
    objects built from accepted values; every accepted channel value is
    stored directly with type ["json"], every other one is handed to the
    serializer and stored opaque (["serde"]) when bytes come back and with
    type ["json"] otherwise. *)
Theorem encoder_classification :
  forall serde cvs values blobs x,
    plain_data x = true ->
    dumpBlobs serde values cvs = Ok blobs ->
    isSimpleJsonSerializable x = json_safe_or_undefined x
    /\ Forall2 (stored_as serde cvs) values blobs.
Proof.
  intros serde cvs values blobs x Hx Hb. split.
  - now apply isSimple_plain_data.
  - now apply dumpBlobs_stored_as.
Qed.

Lemma encoder_classification_witness :
  isSimpleJsonSerializable (JArray [JUndefined; JObject [("k", JNumber 1)]])
  = json_safe_or_undefined (JArray [JUndefined; JObject [("k", JNumber 1)]])
  /\ Forall2 (stored_as text_serde [("a", VNumber 3)])
             [("a", JString "x"); ("b", JFunction "f")]
             [ blob_of [("a", VNumber 3)] "a" "json" (Some (JString "x"));
               blob_of [("a", VNumber 3)] "b" "json" None ].
Proof.
  apply (encoder_classification text_serde [("a", VNumber 3)]
           [("a", JString "x"); ("b", JFunction "f")]);
    reflexivity.
Defined.

(* ======================================================================= *)
(** ** The [newVersions] argument of [put] *)
(* ======================================================================= *)



Definition sample_checkpoint : Checkpoint :=
  {| v := 1; id := "c1"; ts := "2026";
     channel_values := [("a", JNumber 5); ("b", JString "x")];
     channel_versions := [("a", VNumber 1); ("b", VString "2")];
     versions_seen := JObject [] |}.

Definition thread_config (t : string) (c : option string) : RunnableConfig :=
  {| thread_id := Some t; checkpoint_ns := None; checkpoint_id := c |}.


(* ======================================================================= *)
(** ** The caller-facing API *)
(* ======================================================================= *)


Definition thread_active (s : Store) (t : thread_key)
    : list (thread_key * string) :=
  filter (fun a => key_eqb (fst a) t) (active_branch s).


Lemma filter_filter_negb {A} (f : A -> bool) (l : list A) :
  filter f (filter (fun x => negb (f x)) l) = [].
Proof.
  induction l as [|x tl IH]; [reflexivity|].
  cbn. destruct (f x) eqn:E; cbn; [exact IH|]. now rewrite E.
Qed.




(* ======================================================================= *)
(** ** The shape of a [put] *)
(* ======================================================================= *)

(** The three writing phases of [put] after the checkpoint node exists, as
    the source's step comments name them. *)
Definition put_parent_link (pc : ParsedConfig) (cid : string) : M unit :=
  if truthy (checkpointId pc)
  then run (fun s => CYPHER_LINK_PARENT_CHECKPOINT s cid
                       (match checkpointId pc with
                        | Some p => p
                        | None => ""
                        end))
  else mret tt.

Definition put_channel_states (cid : string) (blobs : list BlobData)
    : M unit :=
  for_each blobs
    (fun blob => run (fun s => CYPHER_UPSERT_CHANNEL_STATE s cid
                                 (blob_channel blob) (blob_version blob)
                                 (blob_type blob) (blob_blob blob))).

Definition put_main_branch (pc : ParsedConfig) (uuid : string) : M unit :=
  branchResult <- query (fun s => CYPHER_THREAD_HAS_BRANCHES s (threadId pc)
                                    (checkpointNs pc)) ;;
  match branchResult with
  | count :: _ =>
      if Nat.eqb count 0
      then run (fun s => CYPHER_CREATE_MAIN_BRANCH s (threadId pc)
                           (checkpointNs pc) uuid)
      else mret tt
  | [] => mret tt
  end.

Definition put_result (pc : ParsedConfig) (cp : Checkpoint) : RunnableConfig :=
  {| thread_id := Some (threadId pc);
     checkpoint_ns := Some (checkpointNs pc);
     checkpoint_id := Some (id cp) |}.

Lemma put_unfold serde cfg cp md nv uuid :
  put serde cfg cp md nv uuid =
  (pc <- lift (parseConfig cfg) ;;
   ' (type, sc) <- lift (dumpCheckpoint serde (js_of_checkpoint cp)) ;;
   ' (_, sm) <- lift (dumpMetadata serde md) ;;
   run (fun s => CYPHER_UPSERT_CHECKPOINT_SIMPLE s (threadId pc)
                   (checkpointNs pc) (id cp) type sc sm) ;;
   put_parent_link pc (id cp) ;;
   blobs <- lift (dumpBlobs serde (channel_values cp) (channel_versions cp)) ;;
   put_channel_states (id cp) blobs ;;
   put_main_branch pc uuid ;;
   run (fun s => CYPHER_UPDATE_BRANCH_HEAD s (threadId pc) (checkpointNs pc)
                   (id cp)) ;;
   mret (put_result pc cp)).
Proof. reflexivity. Qed.

(** Everything a successful [put] went through. *)
Inductive put_trace (serde : SerializerProtocol) (cfg : RunnableConfig)
    (cp : Checkpoint) (md : jsval) (uuid : string) (s s' : Store)
    (r : RunnableConfig) : Prop :=
| PutTrace (pc : ParsedConfig) (type : string) (sc : option json_text)
    (mtype : string) (sm : option json_text) (blobs : list BlobData)
    (s1 s2 s3 s4 : Store)
    (tr_parse : parseConfig cfg = Ok pc)
    (tr_dump : dumpCheckpoint serde (js_of_checkpoint cp) = Ok (type, sc))
    (tr_dumpm : dumpMetadata serde md = Ok (mtype, sm))
    (tr_step1 : CYPHER_UPSERT_CHECKPOINT_SIMPLE s (threadId pc)
                  (checkpointNs pc) (id cp) type sc sm = Ok s1)
    (tr_step2 : put_parent_link pc (id cp) s1 = (Ok tt, s2))
    (tr_dumpb : dumpBlobs serde (channel_values cp) (channel_versions cp)
                = Ok blobs)
    (tr_step3 : put_channel_states (id cp) blobs s2 = (Ok tt, s3))
    (tr_step4 : put_main_branch pc uuid s3 = (Ok tt, s4))
    (tr_step5 : CYPHER_UPDATE_BRANCH_HEAD s4 (threadId pc)
                  (checkpointNs pc) (id cp) = Ok s')
    (tr_result : r = put_result pc cp).

Lemma put_inv serde cfg cp md nv uuid s r s' :
  put serde cfg cp md nv uuid s = (Ok r, s') ->
  put_trace serde cfg cp md uuid s s' r.
Proof.
  rewrite put_unfold. unfold mbind at 1, lift at 1.
  destruct (parseConfig cfg) as [pc|e] eqn:Epc; [|discriminate].
  unfold mbind at 1, lift at 1.
  destruct (dumpCheckpoint serde (js_of_checkpoint cp)) as [[ty sc]|e] eqn:Ec;
    [|discriminate].
  unfold mbind at 1, lift at 1.
  destruct (dumpMetadata serde md) as [[tm sm]|e] eqn:Em; [|discriminate].
  unfold mbind at 1, run at 1.
  destruct (CYPHER_UPSERT_CHECKPOINT_SIMPLE s _ _ _ _ _ _) as [s1|e] eqn:E1;
    [|discriminate].
  unfold mbind at 1.
  destruct (put_parent_link pc (id cp) s1) as [[[]|e] s2] eqn:E2;
    [|discriminate].
  unfold mbind at 1, lift at 1.
  destruct (dumpBlobs serde _ _) as [blobs|e] eqn:Eb; [|discriminate].
  unfold mbind at 1.
  destruct (put_channel_states (id cp) blobs s2) as [[[]|e] s3] eqn:E3;
    [|discriminate].
  unfold mbind at 1.
  destruct (put_main_branch pc uuid s3) as [[[]|e] s4] eqn:E4;
    [|discriminate].
  unfold mbind at 1, run at 1.
  destruct (CYPHER_UPDATE_BRANCH_HEAD s4 _ _ _) as [s5|e] eqn:E5;
    [|discriminate].
  unfold mret. intros [= <- <-].
  econstructor; eauto.
Qed.

(** *** What each phase leaves alone *)

Lemma upsert_checkpoint_inv s t ns cid ty sc sm s1 :
  CYPHER_UPSERT_CHECKPOINT_SIMPLE s t ns cid ty sc sm = Ok s1 ->
  exists c m,
    sc = Some c /\ sm = Some m
    /\ match_checkpoint s cid = []
    /\ checkpoints s1 = (checkpoints s
                         ++ [ {| cn_thread := (t, ns); cn_checkpoint_id := cid;
                                 cn_type := ty; cn_checkpoint := c;
                                 cn_metadata := m |} ])%list
    /\ threads s1 = (if mem_key (t, ns) (threads s) then threads s
                     else (threads s ++ [(t, ns)])%list)
    /\ previous s1 = previous s
    /\ channel_states s1 = channel_states s
    /\ has_channel s1 = has_channel s
    /\ writes s1 = writes s
    /\ branches s1 = branches s
    /\ active_branch s1 = active_branch s
    /\ head s1 = head s
    /\ on_branch s1 = on_branch s.
Proof.
  unfold CYPHER_UPSERT_CHECKPOINT_SIMPLE.
  destruct sc as [c|]; [|discriminate]. destruct sm as [m|]; [|discriminate].
  cbn [param bind]. destruct (match_checkpoint s cid) eqn:E; [|discriminate].
  intros [= <-]. exists c, m. cbn. repeat split; reflexivity.
Qed.

Lemma parent_link_frame pc cid s r s' :
  put_parent_link pc cid s = (r, s') ->
  r = Ok tt
  /\ threads s' = threads s /\ checkpoints s' = checkpoints s
  /\ channel_states s' = channel_states s /\ has_channel s' = has_channel s
  /\ writes s' = writes s /\ branches s' = branches s
  /\ active_branch s' = active_branch s /\ head s' = head s
  /\ on_branch s' = on_branch s.
Proof.
  unfold put_parent_link. destruct (truthy (checkpointId pc)).
  - unfold run, CYPHER_LINK_PARENT_CHECKPOINT. intros [= <- <-].
    cbn. repeat split; reflexivity.
  - unfold mret. intros [= <- <-]. repeat split; reflexivity.
Qed.

Lemma channel_states_frame cid blobs :
  forall s r s',
    put_channel_states cid blobs s = (r, s') ->
    threads s' = threads s /\ checkpoints s' = checkpoints s
    /\ previous s' = previous s /\ writes s' = writes s
    /\ branches s' = branches s /\ active_branch s' = active_branch s
    /\ head s' = head s /\ on_branch s' = on_branch s.
Proof.
  unfold put_channel_states.
  induction blobs as [|b tl IH]; intros s r s' H.
  - injection H as <- <-. repeat split; reflexivity.
  - cbn [for_each] in H. unfold mbind at 1, run at 1 in H.
    destruct (CYPHER_UPSERT_CHANNEL_STATE s cid _ _ _ _) as [s1|e] eqn:E.
    + apply IH in H. unfold CYPHER_UPSERT_CHANNEL_STATE in E.
      destruct (blob_blob b); [|discriminate]. cbn [param bind] in E.
      injection E as <-. cbn in H. exact H.
    + injection H as <- <-. repeat split; reflexivity.
Qed.

Lemma main_branch_frame pc uuid s r s' :
  put_main_branch pc uuid s = (r, s') ->
  threads s' = threads s /\ checkpoints s' = checkpoints s
  /\ previous s' = previous s /\ channel_states s' = channel_states s
  /\ has_channel s' = has_channel s /\ writes s' = writes s
  /\ head s' = head s /\ on_branch s' = on_branch s.
Proof.
  unfold put_main_branch, mbind, query.
  destruct (CYPHER_THREAD_HAS_BRANCHES s _ _) as [|count tl].
  - intros [= <- <-]. repeat split; reflexivity.
  - destruct (Nat.eqb count 0).
    + unfold run, CYPHER_CREATE_MAIN_BRANCH.
      destruct (_ && _).
      * destruct (match_branch s uuid); intros [= <- <-];
          repeat split; reflexivity.
      * intros [= <- <-]. repeat split; reflexivity.
    + intros [= <- <-]. repeat split; reflexivity.
Qed.

Lemma update_head_frame s t ns cid s' :
  CYPHER_UPDATE_BRANCH_HEAD s t ns cid = Ok s' ->
  threads s' = threads s /\ checkpoints s' = checkpoints s
  /\ previous s' = previous s /\ channel_states s' = channel_states s
  /\ has_channel s' = has_channel s /\ writes s' = writes s
  /\ branches s' = branches s /\ active_branch s' = active_branch s.
Proof.
  unfold CYPHER_UPDATE_BRANCH_HEAD. intros [= <-]. cbn.
  repeat split; reflexivity.
Qed.

(* ======================================================================= *)
(** ** A parent id that does not resolve *)
(* ======================================================================= *)

Lemma match_checkpoint_app s l cid :
  filter (fun c => String.eqb (cn_checkpoint_id c) cid) (checkpoints s ++ l)
  = (match_checkpoint s cid
     ++ filter (fun c => String.eqb (cn_checkpoint_id c) cid) l)%list.
Proof. apply filter_app. Qed.

Lemma store_eta (s : Store) :
  {| threads := threads s; checkpoints := checkpoints s;
     previous := previous s; channel_states := channel_states s;
     has_channel := has_channel s; writes := writes s;
     branches := branches s; active_branch := active_branch s;
     head := head s; on_branch := on_branch s |} = s.
Proof. now destruct s. Qed.





(* ======================================================================= *)
(** ** Retrying a [put] with the same checkpoint id *)
(* ======================================================================= *)

Lemma put_creates_checkpoint serde cfg cp md nv uuid s r s' :
  put serde cfg cp md nv uuid s = (Ok r, s') ->
  match_checkpoint s' (id cp) <> [].
Proof.
  intros H. destruct (put_inv _ _ _ _ _ _ _ H).
  apply upsert_checkpoint_inv in tr_step1 as (c & m & _ & _ & _ & Hc & _).
  apply parent_link_frame in tr_step2 as (_ & _ & H2 & _).
  apply channel_states_frame in tr_step3 as (_ & H3 & _).
  apply main_branch_frame in tr_step4 as (_ & H4 & _).
  apply update_head_frame in tr_step5 as (_ & H5 & _).
  unfold match_checkpoint. rewrite H5, H4, H3, H2, Hc, filter_app.
  cbn. rewrite String.eqb_refl. intros E. now apply app_eq_nil in E as [_ E].
Qed.

Lemma put_existing_id serde cfg cp md nv uuid s :
  match_checkpoint s (id cp) <> [] ->
  exists e, put serde cfg cp md nv uuid s = (Err e, s).
Proof.
  intros Hex. rewrite put_unfold. unfold mbind at 1, lift at 1.
  destruct (parseConfig cfg) as [pc|e]; [|eauto].
  unfold mbind at 1, lift at 1.
  destruct (dumpCheckpoint serde (js_of_checkpoint cp)) as [[ty sc]|e];
    [|eauto].
  unfold mbind at 1, lift at 1.
  destruct (dumpMetadata serde md) as [[tm sm]|e]; [|eauto].
  unfold mbind at 1, run at 1.
  destruct (CYPHER_UPSERT_CHECKPOINT_SIMPLE s _ _ _ _ _ _) as [s1|e] eqn:E1;
    [|eauto].
  apply upsert_checkpoint_inv in E1 as (_ & _ & _ & _ & E & _).
  contradiction.
Qed.

(** C3 on the code: once a [put] has returned, the same [put] again (the
    retry) is rejected by the store with the uniqueness violation on the
    checkpoint id, which reaches the caller; the store is left as it was. *)
Theorem put_retry_rejected :
  forall serde cfg cp md newVersions uuid s r s' newVersions' uuid',
    put serde cfg cp md newVersions uuid s = (Ok r, s') ->
    put serde cfg cp md newVersions' uuid' s' = (Err ConstraintViolation, s').
Proof.
  intros serde cfg cp md nv uuid s r s' nv' uuid' H.
  pose proof (put_creates_checkpoint _ _ _ _ _ _ _ H) as Hex.
  destruct (put_inv _ _ _ _ _ _ _ H).
  apply upsert_checkpoint_inv in tr_step1 as (c & m & -> & -> & _).
  rewrite put_unfold. unfold mbind at 1, lift at 1. rewrite tr_parse.
  unfold mbind at 1, lift at 1. rewrite tr_dump.
  unfold mbind at 1, lift at 1. rewrite tr_dumpm.
  unfold mbind at 1, run at 1.
  unfold CYPHER_UPSERT_CHECKPOINT_SIMPLE. cbn [param bind].
  destruct (match_checkpoint s' (id cp)); [contradiction|reflexivity].
Qed.

Lemma put_retry_rejected_witness :
  put text_serde (thread_config "T" None) sample_checkpoint JNull [] "u2"
      (snd (put text_serde (thread_config "T" None) sample_checkpoint JNull
                [] "u1" empty_store))
  = (Err ConstraintViolation,
     snd (put text_serde (thread_config "T" None) sample_checkpoint JNull
              [] "u1" empty_store)).
Proof.
  apply (put_retry_rejected text_serde (thread_config "T" None)
           sample_checkpoint JNull [] "u1" empty_store
           (r := {| thread_id := Some "T"; checkpoint_ns := Some "";
                    checkpoint_id := Some "c1" |})).
  reflexivity.
Defined.

(* ======================================================================= *)
(** ** Shared channel states: first writer wins *)
(* ======================================================================= *)

Lemma key_eqb_eq (a b : string * string) : key_eqb a b = true <-> a = b.
Proof.
  destruct a as [a1 a2], b as [b1 b2]. unfold key_eqb. cbn [fst snd].
  rewrite andb_true_iff, !String.eqb_eq. split.
  - now intros [-> ->].
  - now intros [= -> ->].
Qed.

Lemma key_eqb_refl (a : string * string) : key_eqb a a = true.
Proof. now apply key_eqb_eq. Qed.

Lemma key_eqb_neq (a b : string * string) : a <> b -> key_eqb a b = false.
Proof.
  intros H. destruct (key_eqb a b) eqn:E; [|reflexivity].
  now apply key_eqb_eq in E.
Qed.

Definition cs_key (cs : ChannelStateNode) : string * string :=
  (cs_channel cs, cs_version cs).

Definition blob_key (b : BlobData) : string * string :=
  (blob_channel b, blob_version b).

Lemma existsb_filter_nil {A} (f : A -> bool) (l : list A) :
  existsb f l = false <-> filter f l = [].
Proof.
  induction l as [|x tl IH]; cbn; [tauto|].
  destruct (f x); cbn; [split; discriminate|exact IH].
Qed.

Lemma merge_channel_state_filter ch ver ty blob l k :
  filter (fun cs => key_eqb (cs_key cs) k) (merge_channel_state ch ver ty blob l)
  = match filter (fun cs => key_eqb (cs_key cs) (ch, ver)) l with
    | [] => (filter (fun cs => key_eqb (cs_key cs) k) l
             ++ (if key_eqb (ch, ver) k
                 then [ {| cs_channel := ch; cs_version := ver;
                           cs_type := ty; cs_blob := blob |} ]
                 else []))%list
    | _ => filter (fun cs => key_eqb (cs_key cs) k) l
    end.
Proof.
  unfold merge_channel_state.
  change (fun cs => key_eqb (cs_channel cs, cs_version cs) (ch, ver))
    with (fun cs => key_eqb (cs_key cs) (ch, ver)).
  destruct (existsb _ l) eqn:E.
  - destruct (filter (fun cs => key_eqb (cs_key cs) (ch, ver)) l) eqn:F;
      [|reflexivity].
    apply existsb_filter_nil in F. congruence.
  - apply existsb_filter_nil in E. rewrite E, filter_app. reflexivity.
Qed.

Lemma merge_channel_state_idem ch ver ty blob l :
  merge_channel_state ch ver ty blob (merge_channel_state ch ver ty blob l)
  = merge_channel_state ch ver ty blob l.
Proof.
  unfold merge_channel_state at 1.
  destruct (existsb _ (merge_channel_state ch ver ty blob l)) eqn:E;
    [reflexivity|].
  exfalso. unfold merge_channel_state in E.
  destruct (existsb _ l) eqn:E'; [congruence|].
  rewrite existsb_app in E. cbn in E.
  rewrite key_eqb_refl, orb_true_r in E. discriminate.
Qed.

Lemma fold_merge_rows {A} ch ver ty blob (rows : list A) l :
  fold_left (fun l _ => merge_channel_state ch ver ty blob l) rows l
  = match rows with
    | [] => l
    | _ => merge_channel_state ch ver ty blob l
    end.
Proof.
  revert l. induction rows as [|x tl IH]; intros l; [reflexivity|].
  cbn [fold_left]. rewrite IH. destruct tl; [reflexivity|].
  apply merge_channel_state_idem.
Qed.

(** One [CYPHER_UPSERT_CHANNEL_STATE]. *)
Lemma upsert_channel_state_inv s cid ch ver ty blob s' :
  CYPHER_UPSERT_CHANNEL_STATE s cid ch ver ty blob = Ok s' ->
  exists bl,
    blob = Some bl
    /\ checkpoints s' = checkpoints s
    /\ has_channel s'
       = (has_channel s
          ++ map (fun c => (cn_checkpoint_id c, (ch, ver)))
                 (match_checkpoint s cid))%list
    /\ channel_states s'
       = match match_checkpoint s cid with
         | [] => channel_states s
         | _ => merge_channel_state ch ver ty bl (channel_states s)
         end.
Proof.
  unfold CYPHER_UPSERT_CHANNEL_STATE. destruct blob as [bl|]; [|discriminate].
  cbn [param bind]. intros [= <-]. exists bl. cbn.
  rewrite fold_merge_rows. repeat split; reflexivity.
Qed.

Lemma upsert_channel_state_keeps s cid ch ver ty blob s' k :
  CYPHER_UPSERT_CHANNEL_STATE s cid ch ver ty blob = Ok s' ->
  match_channel_state s k <> [] ->
  match_channel_state s' k = match_channel_state s k.
Proof.
  intros H Hk. apply upsert_channel_state_inv in H as (bl & _ & _ & _ & Hcs).
  unfold match_channel_state in *. rewrite Hcs.
  destruct (match_checkpoint s cid); [reflexivity|].
  change (fun cs => key_eqb (cs_channel cs, cs_version cs) k)
    with (fun cs => key_eqb (cs_key cs) k) in *.
  rewrite merge_channel_state_filter.
  destruct (filter (fun cs => key_eqb (cs_key cs) (ch, ver)) (channel_states s))
    eqn:F; [|reflexivity].
  destruct (key_eqb (ch, ver) k) eqn:E; [|now rewrite app_nil_r].
  apply key_eqb_eq in E. subst k. contradiction.
Qed.

(** The loop over the blobs never changes a channel state that exists and
    never removes a [HAS_CHANNEL] edge, however it ends. *)
Lemma put_channel_states_keeps cid blobs :
  forall s r s',
    put_channel_states cid blobs s = (r, s') ->
    (forall k, match_channel_state s k <> [] ->
               match_channel_state s' k = match_channel_state s k)
    /\ (forall e, In e (has_channel s) -> In e (has_channel s')).
Proof.
  unfold put_channel_states.
  induction blobs as [|b tl IH]; intros s r s' H.
  - injection H as <- <-. split; auto.
  - cbn [for_each] in H. unfold mbind at 1, run at 1 in H.
    destruct (CYPHER_UPSERT_CHANNEL_STATE s cid _ _ _ _) as [s1|e] eqn:E.
    + apply IH in H as [H1 H2]. split.
      * intros k Hk.
        pose proof (upsert_channel_state_keeps _ _ _ _ _ _ k E Hk) as Hs.
        rewrite <- Hs. apply H1. now rewrite Hs.
      * intros e He. apply H2.
        apply upsert_channel_state_inv in E as (_ & _ & _ & -> & _).
        apply in_or_app. now left.
    + injection H as <- <-. split; auto.
Qed.

Definition node_of_blob (b : BlobData) (bl : json_text) : ChannelStateNode :=
  {| cs_channel := blob_channel b; cs_version := blob_version b;
     cs_type := blob_type b; cs_blob := bl |}.

(** When the loop completes, every blob has its node and its edge; a key
    that was not in the store holds what the first blob with that key
    carried. *)
Lemma put_channel_states_creates cid blobs :
  forall s s',
    put_channel_states cid blobs s = (Ok tt, s') ->
    match_checkpoint s cid <> [] ->
    forall b, In b blobs ->
      match_channel_state s' (blob_key b) <> []
      /\ In (cid, blob_key b) (has_channel s')
      /\ (match_channel_state s (blob_key b) = [] ->
          NoDup (map blob_key blobs) ->
          exists bl, blob_blob b = Some bl
                     /\ match_channel_state s' (blob_key b)
                        = [node_of_blob b bl]).
Proof.
  induction blobs as [|b0 tl IH]; intros s s' H Hc b Hb; [destruct Hb|].
  unfold put_channel_states in H. cbn [for_each] in H.
  unfold mbind at 1, run at 1 in H.
  destruct (CYPHER_UPSERT_CHANNEL_STATE s cid _ _ _ _) as [s1|e] eqn:E;
    [|discriminate].
  fold (put_channel_states cid tl) in H.
  pose proof (upsert_channel_state_inv _ _ _ _ _ _ E)
    as (bl & Hbl & Hcp & Hhc & Hcs).
  assert (Hc1 : match_checkpoint s1 cid <> [])
    by (unfold match_checkpoint in *; now rewrite Hcp).
  pose proof (put_channel_states_keeps _ _ _ H) as [Hkeep Hmono].
  assert (Hnew : match_channel_state s1 (blob_key b0) <> []
                 /\ (match_channel_state s (blob_key b0) = [] ->
                     match_channel_state s1 (blob_key b0)
                     = [node_of_blob b0 bl])).
  { unfold match_channel_state. rewrite Hcs.
    destruct (match_checkpoint s cid); [contradiction|].
    change (fun cs => key_eqb (cs_channel cs, cs_version cs) (blob_key b0))
      with (fun cs => key_eqb (cs_key cs) (blob_key b0)).
    rewrite merge_channel_state_filter. unfold blob_key at 1 4.
    fold (blob_key b0).
    destruct (filter _ (channel_states s)) eqn:F.
    - rewrite key_eqb_refl. cbn. split; [discriminate|reflexivity].
    - split; [discriminate|discriminate]. }
  destruct Hb as [<-|Hb].
  - repeat split.
    + rewrite Hkeep; apply Hnew.
    + apply Hmono. rewrite Hhc. apply in_or_app. right.
      destruct (match_checkpoint s cid) as [|c l] eqn:Em; [contradiction|].
      left. cbn. f_equal.
      assert (Hin : In c (match_checkpoint s cid)) by (rewrite Em; now left).
      unfold match_checkpoint in Hin. apply filter_In in Hin as [_ Hin].
      now apply String.eqb_eq.
    + intros Habs _. exists bl. split; [exact Hbl|].
      rewrite Hkeep; [now apply Hnew|]. apply Hnew.
  - destruct (IH _ _ H Hc1 b Hb) as (I1 & I2 & I3).
    repeat split; [exact I1|exact I2|].
    intros Habs Hnd. cbn [map] in Hnd. inversion Hnd as [|? ? Hnotin Hnd']; subst.
    apply I3; [|exact Hnd'].
    unfold match_channel_state in *. rewrite Hcs.
    destruct (match_checkpoint s cid); [exact Habs|].
    change (fun cs => key_eqb (cs_channel cs, cs_version cs) (blob_key b))
      with (fun cs => key_eqb (cs_key cs) (blob_key b)).
    rewrite merge_channel_state_filter.
    change (fun cs => key_eqb (cs_channel cs, cs_version cs) (blob_key b))
      with (fun cs => key_eqb (cs_key cs) (blob_key b)) in Habs.
    rewrite Habs.
    destruct (filter _ (channel_states s)); [|reflexivity].
    rewrite key_eqb_neq; [reflexivity|].
    intros Heq. apply Hnotin. change (blob_channel b0, blob_version b0)
      with (blob_key b0) in Heq. rewrite Heq. now apply in_map.
Qed.

(** [s'] keeps the channel states and the [HAS_CHANNEL] edges of [s]. *)
Definition keeps_channels (s s' : Store) : Prop :=
  (forall k, match_channel_state s k <> [] ->
             match_channel_state s' k = match_channel_state s k)
  /\ (forall e, In e (has_channel s) -> In e (has_channel s')).

Lemma keeps_channels_eq s s' :
  channel_states s' = channel_states s ->
  has_channel s' = has_channel s ->
  keeps_channels s s'.
Proof.
  intros H1 H2. unfold keeps_channels, match_channel_state.
  rewrite H1, H2. auto.
Qed.

Lemma keeps_channels_refl s : keeps_channels s s.
Proof. now apply keeps_channels_eq. Qed.

Lemma keeps_channels_trans s1 s2 s3 :
  keeps_channels s1 s2 -> keeps_channels s2 s3 -> keeps_channels s1 s3.
Proof.
  intros [A1 A2] [B1 B2]. split.
  - intros k Hk. rewrite <- (A1 k Hk). apply B1. now rewrite (A1 k Hk).
  - auto.
Qed.

(** However a [put] ends, it keeps the channel states and the edges that
    were in the store. *)
Lemma put_keeps_channels serde cfg cp md nv uuid s r s' :
  put serde cfg cp md nv uuid s = (r, s') -> keeps_channels s s'.
Proof.
  rewrite put_unfold. unfold mbind at 1, lift at 1.
  destruct (parseConfig cfg) as [pc|e];
    [|intros [= <- <-]; apply keeps_channels_refl].
  unfold mbind at 1, lift at 1.
  destruct (dumpCheckpoint serde (js_of_checkpoint cp)) as [[ty sc]|e];
    [|intros [= <- <-]; apply keeps_channels_refl].
  unfold mbind at 1, lift at 1.
  destruct (dumpMetadata serde md) as [[tm sm]|e];
    [|intros [= <- <-]; apply keeps_channels_refl].
  unfold mbind at 1, run at 1.
  destruct (CYPHER_UPSERT_CHECKPOINT_SIMPLE s _ _ _ _ _ _) as [s1|e] eqn:E1;
    [|intros [= <- <-]; apply keeps_channels_refl].
  apply upsert_checkpoint_inv in E1
    as (_ & _ & _ & _ & _ & _ & _ & _ & Hcs1 & Hhc1 & _).
  assert (K1 : keeps_channels s s1) by now apply keeps_channels_eq.
  unfold mbind at 1.
  destruct (put_parent_link pc (id cp) s1) as [r2 s2] eqn:E2.
  pose proof (parent_link_frame _ _ _ E2)
    as (-> & _ & _ & Hcs2 & Hhc2 & _).
  assert (K2 : keeps_channels s s2)
    by (eapply keeps_channels_trans; [exact K1|now apply keeps_channels_eq]).
  unfold mbind at 1, lift at 1.
  destruct (dumpBlobs serde _ _) as [blobs|e];
    [|intros [= <- <-]; exact K2].
  unfold mbind at 1.
  destruct (put_channel_states (id cp) blobs s2) as [r3 s3] eqn:E3.
  assert (K3 : keeps_channels s s3).
  { eapply keeps_channels_trans; [exact K2|].
    exact (put_channel_states_keeps _ _ _ E3). }
  destruct r3 as [[]|e]; [|intros [= <- <-]; exact K3].
  unfold mbind at 1.
  destruct (put_main_branch pc uuid s3) as [r4 s4] eqn:E4.
  pose proof (main_branch_frame _ _ _ E4) as (_ & _ & _ & Hcs4 & Hhc4 & _).
  assert (K4 : keeps_channels s s4)
    by (eapply keeps_channels_trans; [exact K3|now apply keeps_channels_eq]).
  destruct r4 as [[]|e]; [|intros [= <- <-]; exact K4].
  unfold mbind at 1, run at 1.
  destruct (CYPHER_UPDATE_BRANCH_HEAD s4 _ _ _) as [s5|e] eqn:E5;
    [|intros [= <- <-]; exact K4].
  apply update_head_frame in E5 as (_ & _ & _ & Hcs5 & Hhc5 & _).
  unfold mret. intros [= <- <-].
  eapply keeps_channels_trans; [exact K4|now apply keeps_channels_eq].
Qed.

(** What a [put] that returned wrote for its blobs. *)
Lemma put_writes_blobs serde cfg cp md nv uuid s r s' blobs :
  put serde cfg cp md nv uuid s = (Ok r, s') ->
  dumpBlobs serde (channel_values cp) (channel_versions cp) = Ok blobs ->
  forall b, In b blobs ->
    match_channel_state s' (blob_key b) <> []
    /\ In (id cp, blob_key b) (has_channel s')
    /\ (match_channel_state s (blob_key b) = [] ->
        NoDup (map blob_key blobs) ->
        exists bl, blob_blob b = Some bl
                   /\ match_channel_state s' (blob_key b)
                      = [node_of_blob b bl]).
Proof.
  intros H Hb b Hin. destruct (put_inv _ _ _ _ _ _ _ H).
  rewrite Hb in tr_dumpb. injection tr_dumpb as <-.
  apply upsert_checkpoint_inv in tr_step1
    as (c & m & _ & _ & _ & Hc1 & _ & _ & Hcs1 & Hhc1 & _).
  apply parent_link_frame in tr_step2 as (_ & _ & Hc2 & Hcs2 & Hhc2 & _).
  apply main_branch_frame in tr_step4 as (_ & _ & _ & Hcs4 & Hhc4 & _).
  apply update_head_frame in tr_step5 as (_ & _ & _ & Hcs5 & Hhc5 & _).
  assert (Hex : match_checkpoint s2 (id cp) <> []).
  { unfold match_checkpoint. rewrite Hc2, Hc1, filter_app. cbn.
    rewrite String.eqb_refl. intros E. now apply app_eq_nil in E as [_ E]. }
  destruct (put_channel_states_creates _ _ _ tr_step3 Hex b Hin)
    as (I1 & I2 & I3).
  unfold match_channel_state in *.
  rewrite Hcs5, Hcs4, Hhc5, Hhc4. repeat split; [exact I1|exact I2|].
  intros Habs Hnd. apply I3; [|exact Hnd]. now rewrite Hcs2, Hcs1.
Qed.

(** C7: of two [put]s that write a channel value under the same
    (channel, version) key the first one decides the stored type and blob:
    the second leaves the node as it is, and both checkpoints are linked to
    that one node.  Two writes of a channel that differ in the version are
    held by different nodes. *)
Theorem first_writer_wins :
  forall serde cfg1 cp1 md1 nv1 uuid1 cfg2 cp2 md2 nv2 uuid2
         s r1 s1 r2 s2 blobs1 blobs2 b1 b2,
    put serde cfg1 cp1 md1 nv1 uuid1 s = (Ok r1, s1) ->
    put serde cfg2 cp2 md2 nv2 uuid2 s1 = (Ok r2, s2) ->
    dumpBlobs serde (channel_values cp1) (channel_versions cp1) = Ok blobs1 ->
    dumpBlobs serde (channel_values cp2) (channel_versions cp2) = Ok blobs2 ->
    In b1 blobs1 -> In b2 blobs2 ->
    blob_channel b2 = blob_channel b1 ->
    (* the first write is stored, and the second put does not touch it *)
    match_channel_state s1 (blob_key b1) <> []
    /\ match_channel_state s2 (blob_key b1)
       = match_channel_state s1 (blob_key b1)
    /\ (match_channel_state s (blob_key b1) = [] ->
        NoDup (map blob_key blobs1) ->
        exists bl, blob_blob b1 = Some bl
                   /\ match_channel_state s2 (blob_key b1)
                      = [node_of_blob b1 bl])
    (* same version: one shared node, linked from both checkpoints *)
    /\ (blob_version b2 = blob_version b1 ->
        In (id cp1, blob_key b1) (has_channel s2)
        /\ In (id cp2, blob_key b1) (has_channel s2))
    (* another version: another node *)
    /\ (blob_version b2 <> blob_version b1 ->
        match_channel_state s2 (blob_key b2) <> []
        /\ forall n1 n2,
             In n1 (match_channel_state s2 (blob_key b1)) ->
             In n2 (match_channel_state s2 (blob_key b2)) ->
             cs_version n1 <> cs_version n2).
Proof.
  intros serde cfg1 cp1 md1 nv1 uuid1 cfg2 cp2 md2 nv2 uuid2
         s r1 s1 r2 s2 blobs1 blobs2 b1 b2 P1 P2 D1 D2 I1 I2 Hch.
  destruct (put_writes_blobs _ _ _ _ _ _ _ P1 D1 b1 I1) as (A1 & A2 & A3).
  destruct (put_writes_blobs _ _ _ _ _ _ _ P2 D2 b2 I2) as (B1 & B2 & _).
  destruct (put_keeps_channels _ _ _ _ _ _ _ P2) as [K1 K2].
  repeat split.
  - exact A1.
  - now apply K1.
  - intros Habs Hnd. destruct (A3 Habs Hnd) as (bl & Hbl & Hm).
    exists bl. split; [exact Hbl|]. rewrite K1; assumption.
  - now apply K2.
  - replace (blob_key b1) with (blob_key b2); [exact B2|].
    unfold blob_key. congruence.
  - exact B1.
  - intros n1 n2 Hn1 Hn2 Heq.
    unfold match_channel_state in Hn1, Hn2.
    apply filter_In in Hn1 as [_ Hn1]. apply filter_In in Hn2 as [_ Hn2].
    apply key_eqb_eq in Hn1, Hn2. unfold blob_key in *.
    injection Hn1 as _ Hv1. injection Hn2 as _ Hv2. congruence.
Qed.

Definition second_checkpoint : Checkpoint :=
  {| v := 1; id := "c2"; ts := "2027";
     channel_values := [("a", JNumber 99)];
     channel_versions := [("a", VNumber 1)];
     versions_seen := JObject [] |}.

Definition store_after_first : Store :=
  snd (put text_serde (thread_config "T" None) sample_checkpoint JNull [] "u1"
           empty_store).

Definition store_after_second : Store :=
  snd (put text_serde (thread_config "T" (Some "c1")) second_checkpoint JNull
           [] "u2" store_after_first).

Definition first_blob : BlobData :=
  blob_of (channel_versions sample_checkpoint) "a" "json" (Some (JNumber 5)).

Definition second_blob : BlobData :=
  blob_of (channel_versions second_checkpoint) "a" "json" (Some (JNumber 99)).

Lemma first_writer_wins_witness :
  match_channel_state store_after_first (blob_key first_blob) <> []
  /\ match_channel_state store_after_second (blob_key first_blob)
     = match_channel_state store_after_first (blob_key first_blob)
  /\ (match_channel_state empty_store (blob_key first_blob) = [] ->
      NoDup (map blob_key
                 [first_blob;
                  blob_of (channel_versions sample_checkpoint) "b" "json"
                          (Some (JString "x"))]) ->
      exists bl, blob_blob first_blob = Some bl
                 /\ match_channel_state store_after_second (blob_key first_blob)
                    = [node_of_blob first_blob bl])
  /\ (blob_version second_blob = blob_version first_blob ->
      In ("c1", blob_key first_blob) (has_channel store_after_second)
      /\ In ("c2", blob_key first_blob) (has_channel store_after_second))
  /\ (blob_version second_blob <> blob_version first_blob ->
      match_channel_state store_after_second (blob_key second_blob) <> []
      /\ forall n1 n2,
           In n1 (match_channel_state store_after_second (blob_key first_blob)) ->
           In n2 (match_channel_state store_after_second (blob_key second_blob)) ->
           cs_version n1 <> cs_version n2).
Proof.
  apply (first_writer_wins text_serde
           (thread_config "T" None) sample_checkpoint JNull [] "u1"
           (thread_config "T" (Some "c1")) second_checkpoint JNull [] "u2"
           empty_store
           (r1 := {| thread_id := Some "T"; checkpoint_ns := Some "";
                     checkpoint_id := Some "c1" |})
           (r2 := {| thread_id := Some "T"; checkpoint_ns := Some "";
                     checkpoint_id := Some "c2" |})
           (blobs2 := [second_blob])).
  - reflexivity.
  - reflexivity.
  - reflexivity.
  - reflexivity.
  - left. reflexivity.
  - left. reflexivity.
  - reflexivity.
Defined.

(* ======================================================================= *)
(** ** Round trip through [put] and [getTuple] *)
(* ======================================================================= *)

(** A checkpoint one of whose channel values is a plain JSON object that
    happens to have a ["__serde_type__"] key. *)
Definition marker_checkpoint : Checkpoint :=
  {| v := 1; id := "c1"; ts := "2026";
     channel_values := [("a", JObject [("__serde_type__", JString "x")])];
     channel_versions := [("a", VNumber 1)];
     versions_seen := JObject [] |}.

(** A serializer that returns bytes and reads them back, for the checkpoint
    above and the metadata [null]. *)
Definition id_serde : SerializerProtocol :=
  {| dumpsTyped := fun x =>
       match prop x "id" with
       | JString _ => Ok ("checkpoint", DBytes [x01])
       | _ => Ok ("metadata", DBytes [x02])
       end;
     loadsTyped := fun _ bytes =>
       match bytes with
       | [x01] => Ok (js_of_checkpoint marker_checkpoint)
       | [x02] => Ok JNull
       | _ => Err SerdeError
       end |}.

Definition marker_store : Store :=
  snd (put id_serde (thread_config "T" None) marker_checkpoint JNull [] "u1"
           empty_store).

(** C1 on the code: the serializer round-trips the checkpoint and the
    metadata, [put] returns, and [getTuple] with that exact id throws: the
    channel value was stored with type ["json"], [loadBlobs] takes it for a
    serde wrapper because of its key alone, and [hexToBytes] is called on
    the missing ["__serde_data__"]. *)
Theorem roundtrip_marker_key :
  (exists t b,
     dumpsTyped id_serde (js_of_checkpoint marker_checkpoint)
     = Ok (t, DBytes b)
     /\ loadsTyped id_serde (JString t) b
        = Ok (js_of_checkpoint marker_checkpoint))
  /\ (exists t b,
        dumpsTyped id_serde JNull = Ok (t, DBytes b)
        /\ loadsTyped id_serde (JString t) b = Ok JNull)
  /\ fst (put id_serde (thread_config "T" None) marker_checkpoint JNull []
              "u1" empty_store)
     = Ok {| thread_id := Some "T"; checkpoint_ns := Some "";
             checkpoint_id := Some "c1" |}
  /\ map (fun cs => (cs_channel cs, cs_version cs, cs_type cs, cs_blob cs))
         (channel_states marker_store)
     = [("a", "1", "json", JObject [("__serde_type__", JString "x")])]
  /\ getTuple id_serde marker_store (thread_config "T" (Some "c1"))
     = Err TypeError.
Proof.
  split; [|split]; [do 2 eexists; split; reflexivity ..|].
  vm_compute. repeat split.
Qed.

(* ======================================================================= *)
(** ** The channel states [getTuple] fetches *)
(* ======================================================================= *)

(** A checkpoint whose channel [a] is at version 2 and whose channel [b] is
    at version 1. *)
Definition versions_checkpoint : Checkpoint :=
  {| v := 1; id := "c1"; ts := "2026";
     channel_values := [("a", JString "current"); ("b", JString "other")];
     channel_versions := [("a", VNumber 2); ("b", VNumber 1)];
     versions_seen := JObject [] |}.

(** The store after [put] of that checkpoint, to which the exported
    statement [CYPHER_UPSERT_CHANNEL_STATE] has linked the older state of
    channel [a], version 1. *)
Definition stale_store : Store :=
  match CYPHER_UPSERT_CHANNEL_STATE
          (snd (put text_serde (thread_config "T" None) versions_checkpoint
                    JNull [] "u1" empty_store))
          "c1" "a" "1" "json" (Some (JString "stale")) with
  | Ok s => s
  | Err _ => empty_store
  end.

(** C2 on the code: the checkpoint read back says channel [a] is at version
    2, and the rows fetched for it hold the state of [a] at version 1 as
    well - its version is in the list because it is the version of [b] -
    which [loadBlobs] then puts in the place of the current one. *)
Theorem fetch_returns_other_version :
  map (fun cs => (cs_channel cs, cs_version cs, cs_blob cs))
      (channel_states stale_store)
  = [("a", "2", JString "current"); ("b", "1", JString "other");
     ("a", "1", JString "stale")]
  /\ has_channel stale_store
     = [("c1", ("a", "2")); ("c1", ("b", "1")); ("c1", ("a", "1"))]
  /\ exists cp cv,
       In (Build_CheckpointRecord "T" "" "c1" None "json" cp JNull)
          (CYPHER_GET_CHECKPOINT_BY_ID stale_store "T" "" "c1")
       /\ loadCheckpoint text_serde "json" cp
          = Ok (js_of_checkpoint versions_checkpoint)
       /\ cv = prop (js_of_checkpoint versions_checkpoint) "channel_versions"
       /\ js_String (prop cv "a") = "2"
       /\ In ("a", "json", JString "stale", "1")
             (fetch_channel_states stale_store "c1" cv)
       /\ loadBlobs text_serde
            (map (fun r => match r with
                           | (channel, type, blob, _) => (channel, type, blob)
                           end)
                 (fetch_channel_states stale_store "c1" cv))
          = Ok [("a", JString "stale"); ("b", JString "other")].
Proof.
  split; [reflexivity|]. split; [reflexivity|].
  do 2 eexists. split; [left; reflexivity|].
  split; [reflexivity|]. split; [reflexivity|]. split; [reflexivity|].
  split; [|reflexivity].
  vm_compute. right. right. left. reflexivity.
Qed.

(* ======================================================================= *)
(** ** Invariants of the store *)
(* ======================================================================= *)

(** A statement keeps [I]. *)
Definition stmt_preserves (I : Store -> Prop) (stmt : Store -> result Store)
    : Prop :=
  forall s s', I s -> stmt s = Ok s' -> I s'.

(** A method body keeps [I], whether it returns or throws. *)
Definition preserves {A} (I : Store -> Prop) (m : M A) : Prop :=
  forall s r s', I s -> m s = (r, s') -> I s'.

Lemma preserves_mret {A} I (a : A) : preserves I (mret a).
Proof. intros s r s' H [= <- <-]. exact H. Qed.

Lemma preserves_lift {A} I (x : result A) : preserves I (lift x).
Proof. intros s r s' H [= <- <-]. exact H. Qed.

Lemma preserves_query {A} I (q : Store -> A) : preserves I (query q).
Proof. intros s r s' H [= <- <-]. exact H. Qed.

Lemma preserves_run I stmt : stmt_preserves I stmt -> preserves I (run stmt).
Proof.
  intros Hs s r s' H. unfold run. destruct (stmt s) as [s1|e] eqn:E.
  - intros [= <- <-]. eapply Hs; eassumption.
  - intros [= <- <-]. exact H.
Qed.

Lemma preserves_mbind {A B} I (m : M A) (f : A -> M B) :
  preserves I m -> (forall a, preserves I (f a)) -> preserves I (mbind m f).
Proof.
  intros Hm Hf s r s' H. unfold mbind.
  destruct (m s) as [[a|e] s1] eqn:E.
  - intros Hfa. eapply Hf; [|exact Hfa]. eapply Hm; eassumption.
  - intros [= <- <-]. eapply Hm; eassumption.
Qed.

Lemma preserves_for_each {A} I (body : A -> M unit) (l : list A) :
  (forall x, preserves I (body x)) -> preserves I (for_each l body).
Proof.
  intros Hb. induction l as [|x tl IH]; cbn [for_each].
  - apply preserves_mret.
  - apply preserves_mbind; [apply Hb|intros _; exact IH].
Qed.

(** [put] keeps an invariant that its statements keep; between the creation
    of the checkpoint and the parent link a stronger [J] may be used. *)
Lemma put_preserves serde (I : Store -> Prop) (J : string -> Store -> Prop) :
  (forall t ns cid ty sc sm s s',
      I s -> CYPHER_UPSERT_CHECKPOINT_SIMPLE s t ns cid ty sc sm = Ok s' ->
      J cid s') ->
  (forall cid s, J cid s -> I s) ->
  (forall cid p s s',
      J cid s -> CYPHER_LINK_PARENT_CHECKPOINT s cid p = Ok s' -> I s') ->
  (forall cid ch ver ty blob,
      stmt_preserves I
        (fun s => CYPHER_UPSERT_CHANNEL_STATE s cid ch ver ty blob)) ->
  (forall t ns uuid,
      stmt_preserves I (fun s => CYPHER_CREATE_MAIN_BRANCH s t ns uuid)) ->
  (forall t ns cid,
      stmt_preserves I (fun s => CYPHER_UPDATE_BRANCH_HEAD s t ns cid)) ->
  forall cfg cp md nv uuid, preserves I (put serde cfg cp md nv uuid).
Proof.
  intros H1 HJ H2 H3 H4 H5 cfg cp md nv uuid s r s' HI.
  rewrite put_unfold. unfold mbind at 1, lift at 1.
  destruct (parseConfig cfg) as [pc|e]; [|now intros [= <- <-]].
  unfold mbind at 1, lift at 1.
  destruct (dumpCheckpoint serde (js_of_checkpoint cp)) as [[ty sc]|e];
    [|now intros [= <- <-]].
  unfold mbind at 1, lift at 1.
  destruct (dumpMetadata serde md) as [[tm sm]|e]; [|now intros [= <- <-]].
  unfold mbind at 1, run at 1.
  destruct (CYPHER_UPSERT_CHECKPOINT_SIMPLE s _ _ _ _ _ _) as [s1|e] eqn:E1;
    [|now intros [= <- <-]].
  apply (H1 _ _ _ _ _ _ _ _ HI) in E1.
  unfold mbind at 1.
  destruct (put_parent_link pc (id cp) s1) as [r2 s2] eqn:E2.
  assert (I2 : I s2).
  { unfold put_parent_link in E2. destruct (truthy (checkpointId pc)).
    - unfold run in E2.
      destruct (CYPHER_LINK_PARENT_CHECKPOINT s1 _ _) as [s2'|e] eqn:El;
        injection E2 as <- <-; [eapply H2; eassumption|eapply HJ; eassumption].
    - injection E2 as <- <-. eapply HJ; eassumption. }
  destruct r2 as [[]|e]; [|now intros [= <- <-]].
  intros Hrest.
  assert (Hp : preserves I
            (blobs <- lift (dumpBlobs serde (channel_values cp)
                                      (channel_versions cp)) ;;
             put_channel_states (id cp) blobs ;;
             put_main_branch pc uuid ;;
             run (fun s => CYPHER_UPDATE_BRANCH_HEAD s (threadId pc)
                             (checkpointNs pc) (id cp)) ;;
             mret (put_result pc cp))).
  { apply preserves_mbind; [apply preserves_lift|intros blobs].
    apply preserves_mbind.
    { apply preserves_for_each. intros b. apply preserves_run, H3. }
    intros _. apply preserves_mbind.
    { unfold put_main_branch. apply preserves_mbind; [apply preserves_query|].
      intros [|count tl]; [apply preserves_mret|].
      destruct (Nat.eqb count 0);
        [apply preserves_run, H4|apply preserves_mret]. }
    intros _. apply preserves_mbind; [apply preserves_run, H5|].
    intros _. apply preserves_mret. }
  exact (Hp s2 r s' I2 Hrest).
Qed.

Lemma putWrites_preserves serde (I : Store -> Prop) :
  (forall cid task path idx ch ty blob,
      stmt_preserves I
        (fun s => CYPHER_UPSERT_WRITE s cid task path idx ch ty blob)) ->
  forall cfg writes taskId, preserves I (putWrites serde cfg writes taskId).
Proof.
  intros H cfg writes taskId. unfold putWrites.
  apply preserves_mbind; [apply preserves_lift|intros pc].
  destruct (negb (truthy (checkpointId pc))); [apply preserves_lift|].
  apply preserves_mbind; [apply preserves_lift|intros records].
  apply preserves_for_each. intros record. apply preserves_run, H.
Qed.

Lemma deleteThread_preserves (I : Store -> Prop) :
  (forall t, stmt_preserves I (fun s => CYPHER_DELETE_THREAD s t)) ->
  stmt_preserves I CYPHER_DELETE_ORPHAN_CHANNEL_STATES ->
  forall t, preserves I (deleteThread t).
Proof.
  intros H1 H2 t. unfold deleteThread.
  apply preserves_mbind; [apply preserves_run, H1|].
  intros _. apply preserves_run, H2.
Qed.

(* ======================================================================= *)
(** ** Reachable stores *)
(* ======================================================================= *)

(** What callers do to the store: the writing methods of the saver, and the
    three exported branch statements that write. *)
Inductive operation : Type :=
| OpPut (cfg : RunnableConfig) (cp : Checkpoint) (md : jsval)
        (newVersions : list (string * ChannelVersion)) (uuid : string)
| OpPutWrites (cfg : RunnableConfig) (writes : list (string * jsval))
              (taskId : string)
| OpDeleteThread (threadId : string)
| OpCreateBranch (thread_id checkpoint_ns branch_id name fork_point_id : string)
| OpSetActiveBranch (thread_id checkpoint_ns branch_id : string)
| OpDeleteBranch (branch_id : string).

Definition exec_stmt (stmt : Store -> result Store) (s : Store) : Store :=
  match stmt s with
  | Ok s' => s'
  | Err _ => s
  end.

(** The store an operation leaves, whether it returned or threw. *)
Definition exec (serde : SerializerProtocol) (op : operation) (s : Store)
    : Store :=
  match op with
  | OpPut cfg cp md nv uuid => snd (put serde cfg cp md nv uuid s)
  | OpPutWrites cfg writes taskId => snd (putWrites serde cfg writes taskId s)
  | OpDeleteThread t => snd (deleteThread t s)
  | OpCreateBranch t ns b name fork =>
      exec_stmt (fun s => CYPHER_CREATE_BRANCH s t ns b name fork) s
  | OpSetActiveBranch t ns b =>
      exec_stmt (fun s => CYPHER_SET_ACTIVE_BRANCH s t ns b) s
  | OpDeleteBranch b => exec_stmt (fun s => CYPHER_DELETE_BRANCH s b) s
  end.

Inductive reachable (serde : SerializerProtocol) : Store -> Prop :=
| reach_empty : reachable serde empty_store
| reach_step : forall op s,
    reachable serde s -> reachable serde (exec serde op s).

Lemma exec_stmt_preserves I stmt s :
  stmt_preserves I stmt -> I s -> I (exec_stmt stmt s).
Proof.
  intros H Hs. unfold exec_stmt. destruct (stmt s) eqn:E; [|exact Hs].
  eapply H; eassumption.
Qed.

Lemma snd_preserves {A} I (m : M A) s : preserves I m -> I s -> I (snd (m s)).
Proof.
  intros H Hs. destruct (m s) as [r s'] eqn:E. eapply H; eassumption.
Qed.

(* ======================================================================= *)
(** ** At most one active branch *)
(* ======================================================================= *)

Record branch_inv (s : Store) : Prop := {
  bi_nodup : NoDup (map br_branch_id (branches s));
  bi_target : forall a, In a (active_branch s) ->
                exists b, In b (branches s)
                          /\ br_thread b = fst a /\ br_branch_id b = snd a;
  bi_one : forall t, (List.length (thread_active s t) <= 1)%nat;
  bi_thread : forall b, In b (branches s) ->
                mem_key (br_thread b) (threads s) = true
}.

Lemma NoDup_map_filter {A B} (f : A -> B) (p : A -> bool) :
  forall l, NoDup (map f l) -> NoDup (map f (filter p l)).
Proof.
  intros l. induction l as [|x tl IH]; cbn; [auto|].
  intros H. inversion H as [|? ? Hn Hd]; subst.
  destruct (p x); [|auto]. cbn. constructor; [|auto].
  intros Hin. apply Hn. apply in_map_iff in Hin as (y & Hy & Hin).
  apply filter_In in Hin as [Hin _]. apply in_map_iff. eauto.
Qed.

Lemma NoDup_map_filter_one {A} (f : A -> string) (k : string) (l : list A) :
  NoDup (map f l) ->
  (List.length (filter (fun x => String.eqb (f x) k) l) <= 1)%nat.
Proof.
  induction l as [|x tl IH]; cbn; [auto|].
  intros H. inversion H as [|? ? Hn Hd]; subst.
  destruct (String.eqb_spec (f x) k) as [E|E]; [|auto].
  cbn. replace (filter _ tl) with (@nil A); [auto|].
  symmetry. apply existsb_filter_nil.
  destruct (existsb _ tl) eqn:Ex; [|reflexivity].
  apply existsb_exists in Ex as (y & Hy & Ey). apply String.eqb_eq in Ey.
  exfalso. apply Hn. rewrite E, <- Ey. now apply in_map.
Qed.

Lemma filter_filter_length_le {A} (p q : A -> bool) (l : list A) :
  (List.length (filter q (filter p l)) <= List.length (filter q l))%nat.
Proof.
  induction l as [|x tl IH]; [auto|].
  cbn [filter]. destruct (p x); cbn [filter]; destruct (q x);
    cbn [List.length]; lia.
Qed.

Lemma filter_negb_other {A} (p q : A -> bool) (l : list A) :
  (forall x, q x = true -> p x = false) ->
  filter q (filter (fun x => negb (p x)) l) = filter q l.
Proof.
  intros H. induction l as [|x tl IH]; [reflexivity|].
  cbn [filter]. destruct (q x) eqn:Eq.
  - rewrite (H x Eq). cbn [negb filter]. now rewrite Eq, IH.
  - destruct (negb (p x)); cbn [filter]; [now rewrite Eq|exact IH].
Qed.

Lemma branch_inv_eq s s' :
  threads s' = threads s ->
  branches s' = branches s -> active_branch s' = active_branch s ->
  branch_inv s -> branch_inv s'.
Proof.
  intros Ht Hb Ha [H1 H2 H3 H4].
  split; unfold thread_active; rewrite ?Ht, ?Hb, ?Ha; auto.
Qed.

Lemma match_branch_nil s k :
  match_branch s k = [] -> ~ In k (map br_branch_id (branches s)).
Proof.
  intros H Hin. apply in_map_iff in Hin as (b & Hb & Hin).
  assert (Hf : In b (match_branch s k)).
  { unfold match_branch. apply filter_In. split; [exact Hin|].
    now apply String.eqb_eq. }
  rewrite H in Hf. destruct Hf.
Qed.

Lemma NoDup_snoc {A} (l : list A) (x : A) :
  NoDup l -> ~ In x l -> NoDup (l ++ [x]).
Proof.
  intros Hl Hx. apply NoDup_app; [exact Hl|repeat constructor; auto|].
  intros y Hy [<-|[]]. contradiction.
Qed.

Lemma mem_key_In k l : mem_key k l = true <-> In k l.
Proof.
  unfold mem_key. rewrite existsb_exists. split.
  - intros (x & Hx & E). apply key_eqb_eq in E. now subst.
  - intros H. exists k. split; [exact H|apply key_eqb_refl].
Qed.

Lemma create_main_branch_inv t ns uuid :
  stmt_preserves branch_inv (fun s => CYPHER_CREATE_MAIN_BRANCH s t ns uuid).
Proof.
  intros s s' [H1 H2 H3 H4]. unfold CYPHER_CREATE_MAIN_BRANCH.
  destruct (mem_key (t, ns) (threads s)) eqn:Et; cbn [andb];
    [|intros [= <-]; now split].
  destruct (thread_branches s (t, ns)) as [|b0 l] eqn:Eb; cbn [existsb negb];
    [|intros [= <-]; now split].
  destruct (match_branch s uuid) eqn:Em; [|discriminate].
  intros [= <-]. split; cbn [branches active_branch threads].
  - rewrite map_app. cbn. apply NoDup_snoc; [exact H1|].
    now apply match_branch_nil.
  - intros a Ha. apply in_app_or in Ha as [Ha|[<-|[]]].
    + destruct (H2 a Ha) as (b & Hb & Hbt). exists b. split; [|exact Hbt].
      apply in_or_app. now left.
    + eexists. split; [apply in_or_app; right; left; reflexivity|].
      split; reflexivity.
  - intros t'. unfold thread_active. cbn [active_branch].
    rewrite filter_app, length_app. cbn [filter fst].
    destruct (key_eqb (t, ns) t') eqn:E; cbn [List.length].
    + apply key_eqb_eq in E. subst t'.
      replace (filter _ (active_branch s)) with (@nil (thread_key * string));
        [auto|].
      symmetry. apply existsb_filter_nil.
      destruct (existsb _ (active_branch s)) eqn:Ex; [|reflexivity].
      apply existsb_exists in Ex as (a & Ha & Ea). apply key_eqb_eq in Ea.
      destruct (H2 a Ha) as (b & Hb & Hbt & _). exfalso.
      assert (Hin : In b (thread_branches s (t, ns))).
      { unfold thread_branches. apply filter_In. split; [exact Hb|].
        apply key_eqb_eq. rewrite Hbt. exact Ea. }
      rewrite Eb in Hin. destruct Hin.
    + rewrite Nat.add_0_r. apply (H3 t').
  - intros b Hb. apply in_app_or in Hb as [Hb|[<-|[]]]; [now apply H4|].
    exact Et.
Qed.

Lemma create_branch_inv t ns b name fork :
  stmt_preserves branch_inv (fun s => CYPHER_CREATE_BRANCH s t ns b name fork).
Proof.
  intros s s' [H1 H2 H3 H4]. unfold CYPHER_CREATE_BRANCH.
  destruct (mem_key (t, ns) (threads s)) eqn:Et; [|intros [= <-]; now split].
  destruct (match_branch s b) eqn:Em; [|discriminate].
  intros [= <-]. split; cbn [branches active_branch threads].
  - rewrite map_app. cbn. apply NoDup_snoc; [exact H1|].
    now apply match_branch_nil.
  - intros a Ha. destruct (H2 a Ha) as (b' & Hb & Hbt). exists b'.
    split; [apply in_or_app; now left|exact Hbt].
  - exact H3.
  - intros b' Hb. apply in_app_or in Hb as [Hb|[<-|[]]]; [now apply H4|].
    exact Et.
Qed.

Lemma concat_repeat_one {A} (l : list A) : List.concat (repeat l 1) = l.
Proof. cbn. apply app_nil_r. Qed.

Lemma optional_rows_one {A} (l : list A) :
  (List.length l <= 1)%nat -> optional_rows l = 1%nat.
Proof. unfold optional_rows. lia. Qed.

(** The edges the statement leaves for the other threads, and the ones it
    creates for its own. *)
Lemma set_active_branch_edges s t ns b s' :
  (List.length (thread_active s (t, ns)) <= 1)%nat ->
  mem_key (t, ns) (threads s) = true ->
  CYPHER_SET_ACTIVE_BRANCH s t ns b = Ok s' ->
  threads s' = threads s /\ branches s' = branches s
  /\ thread_active s' (t, ns)
     = map (fun x => ((t, ns), br_branch_id x))
           (filter (fun x => String.eqb (br_branch_id x) b)
                   (thread_branches s (t, ns)))
  /\ forall t', t' <> (t, ns) -> thread_active s' t' = thread_active s t'.
Proof.
  intros Hone Ht. unfold CYPHER_SET_ACTIVE_BRANCH. rewrite Ht.
  intros [= <-]. rewrite optional_rows_one by exact Hone.
  rewrite concat_repeat_one. cbn [threads branches].
  split; [reflexivity|]. split; [reflexivity|].
  unfold thread_active. cbn [active_branch]. split.
  - rewrite filter_app.
    rewrite (filter_filter_negb
               (fun a : thread_key * string => key_eqb (fst a) (t, ns))).
    cbn [app]. apply forallb_filter_id. apply forallb_forall.
    intros a Ha. apply in_map_iff in Ha as (x & <- & _). apply key_eqb_refl.
  - intros t' Hne. rewrite filter_app.
    replace (filter (fun a => key_eqb (fst a) t') (map _ _))
      with (@nil (thread_key * string)).
    + rewrite app_nil_r.
      apply (filter_negb_other
               (fun a : thread_key * string => key_eqb (fst a) (t, ns))
               (fun a : thread_key * string => key_eqb (fst a) t')).
      intros a Ha. apply key_eqb_eq in Ha. apply key_eqb_neq.
      intros E. apply Hne. rewrite <- Ha. exact E.
    + symmetry. apply existsb_filter_nil.
      destruct (existsb _ _) eqn:Ex; [|reflexivity].
      apply existsb_exists in Ex as (a & Ha & Ea).
      apply in_map_iff in Ha as (x & <- & _). cbn [fst] in Ea.
      apply key_eqb_eq in Ea. congruence.
Qed.

Lemma set_active_branch_inv t ns b :
  stmt_preserves branch_inv (fun s => CYPHER_SET_ACTIVE_BRANCH s t ns b).
Proof.
  intros s s' [H1 H2 H3 H4] H.
  destruct (mem_key (t, ns) (threads s)) eqn:Et.
  2:{ unfold CYPHER_SET_ACTIVE_BRANCH in H. rewrite Et in H.
      injection H as <-. now split. }
  pose proof (set_active_branch_edges _ _ _ _ (H3 (t, ns)) Et H)
    as (Eth & Ebr & Eown & Eother).
  assert (Hin : forall a, In a (active_branch s') ->
                          In a (thread_active s' (fst a))).
  { intros a Ha. unfold thread_active. apply filter_In.
    split; [exact Ha|apply key_eqb_refl]. }
  split.
  - now rewrite Ebr.
  - intros a Ha. rewrite Ebr. apply Hin in Ha.
    destruct (key_eqb (fst a) (t, ns)) eqn:E.
    + apply key_eqb_eq in E. rewrite E, Eown in Ha.
      apply in_map_iff in Ha as (x & <- & Hx).
      apply filter_In in Hx as [Hx _]. unfold thread_branches in Hx.
      apply filter_In in Hx as [Hx Hk]. apply key_eqb_eq in Hk.
      exists x. repeat split; [exact Hx|exact Hk].
    + rewrite Eother in Ha.
      * unfold thread_active in Ha. apply filter_In in Ha as [Ha _].
        now apply H2.
      * intros Heq. rewrite Heq, key_eqb_refl in E. discriminate.
  - intros t'. destruct (key_eqb t' (t, ns)) eqn:E.
    + apply key_eqb_eq in E. subst t'. rewrite Eown, length_map.
      unfold thread_branches.
      apply (@NoDup_map_filter_one _ br_branch_id b _
               (@NoDup_map_filter _ _ br_branch_id
                  (fun x => key_eqb (br_thread x) (t, ns))
                  (branches s) H1)).
    + rewrite Eother; [apply H3|].
      intros Heq. rewrite Heq, key_eqb_refl in E. discriminate.
  - intros x Hx. rewrite Eth. rewrite Ebr in Hx. now apply H4.
Qed.

Lemma delete_branch_inv b :
  stmt_preserves branch_inv (fun s => CYPHER_DELETE_BRANCH s b).
Proof.
  intros s s' [H1 H2 H3 H4]. unfold CYPHER_DELETE_BRANCH. intros [= <-].
  split; cbn [branches active_branch threads].
  - now apply NoDup_map_filter.
  - intros a Ha. apply filter_In in Ha as [Ha Hne].
    destruct (H2 a Ha) as (x & Hx & Ht & Hi). exists x.
    split; [|now split]. apply filter_In. split; [exact Hx|]. now rewrite Hi.
  - intros t. unfold thread_active. cbn [active_branch].
    etransitivity; [|apply (H3 t)]. unfold thread_active.
    apply filter_filter_length_le.
  - intros x Hx. apply filter_In in Hx as [Hx _]. now apply H4.
Qed.

Lemma delete_thread_branch_inv t :
  stmt_preserves branch_inv (fun s => CYPHER_DELETE_THREAD s t).
Proof.
  intros s s' [H1 H2 H3 H4]. unfold CYPHER_DELETE_THREAD. intros [= <-].
  split; cbn [branches active_branch threads].
  - now apply NoDup_map_filter.
  - intros a Ha. apply filter_In in Ha as [Ha Hne].
    apply negb_true_iff, orb_false_iff in Hne as [Hne _].
    destruct (H2 a Ha) as (x & Hx & Ht & Hi). exists x.
    split; [|now split]. apply filter_In. split; [exact Hx|].
    rewrite Ht. now rewrite Hne.
  - intros t'. unfold thread_active. cbn [active_branch].
    etransitivity; [|apply (H3 t')]. unfold thread_active.
    apply filter_filter_length_le.
  - intros x Hx. apply filter_In in Hx as [Hx Halive].
    apply mem_key_In. apply filter_In. split.
    + apply mem_key_In. now apply H4.
    + exact Halive.
Qed.

Lemma upsert_checkpoint_branch_inv t ns cid ty sc sm :
  stmt_preserves branch_inv
    (fun s => CYPHER_UPSERT_CHECKPOINT_SIMPLE s t ns cid ty sc sm).
Proof.
  intros s s' [H1 H2 H3 H4] H.
  apply upsert_checkpoint_inv in H
    as (c & m & _ & _ & _ & _ & Ht & _ & _ & _ & _ & Hb & Ha & _).
  split; unfold thread_active; rewrite ?Hb, ?Ha; auto.
  intros b Hin. rewrite Ht. specialize (H4 b Hin).
  destruct (mem_key (t, ns) (threads s)); [exact H4|].
  apply mem_key_In. apply in_or_app. left. now apply mem_key_In.
Qed.

Lemma exec_branch_inv serde op s : branch_inv s -> branch_inv (exec serde op s).
Proof.
  intros H. destruct op; cbn [exec].
  - apply snd_preserves; [|exact H].
    apply put_preserves with (J := fun _ => branch_inv).
    + intros; eapply upsert_checkpoint_branch_inv; eassumption.
    + auto.
    + intros cid p s0 s1 Hs. unfold CYPHER_LINK_PARENT_CHECKPOINT.
      intros [= <-]. apply (@branch_inv_eq s0); auto.
    + intros cid ch ver ty blob s0 s1 Hs. unfold CYPHER_UPSERT_CHANNEL_STATE.
      destruct blob; [|discriminate]. cbn [param bind].
      intros [= <-]. apply (@branch_inv_eq s0); auto.
    + intros; apply create_main_branch_inv.
    + intros t ns cid s0 s1 Hs. unfold CYPHER_UPDATE_BRANCH_HEAD.
      intros [= <-]. apply (@branch_inv_eq s0); auto.
  - apply snd_preserves; [|exact H]. apply putWrites_preserves.
    intros cid task path idx ch ty blob s0 s1 Hs. unfold CYPHER_UPSERT_WRITE.
    destruct blob; [|discriminate]. cbn [param bind].
    intros [= <-]. apply (@branch_inv_eq s0); auto.
  - apply snd_preserves; [|exact H]. apply deleteThread_preserves.
    + apply delete_thread_branch_inv.
    + intros s0 s1 Hs. unfold CYPHER_DELETE_ORPHAN_CHANNEL_STATES.
      intros [= <-]. apply (@branch_inv_eq s0); auto.
  - apply exec_stmt_preserves; [apply create_branch_inv|exact H].
  - apply exec_stmt_preserves; [apply set_active_branch_inv|exact H].
  - apply exec_stmt_preserves; [apply delete_branch_inv|exact H].
Qed.

Lemma reachable_branch_inv serde s : reachable serde s -> branch_inv s.
Proof.
  induction 1 as [|op s _ IH].
  - split; cbn; [constructor|intros a []|auto|intros b []].
  - now apply exec_branch_inv.
Qed.

(* ======================================================================= *)
(** * Further properties of the code *)
(* ======================================================================= *)

(** ** Hex encoding ([bytesToHex], [hexToBytes]) *)

Lemma append_length (a b : string) :
  String.length (a ++ b) = (String.length a + String.length b)%nat.
Proof. induction a as [|c a IH]; cbn; [reflexivity|now rewrite IH]. Qed.

Lemma bytesToHex_length (bs : list byte) :
  String.length (bytesToHex bs) = (2 * List.length bs)%nat.
Proof.
  induction bs as [|b bs IH]; [reflexivity|].
  rewrite bytesToHex_cons, append_length, IH, hex_pair_digits.
  cbn [String.length List.length]. lia.
Qed.

(** Every byte array is read back from its hex text, which has two
    characters per byte. *)
Theorem hex_roundtrip :
  forall bs : list byte,
    hexToBytes (JString (bytesToHex bs)) = Ok bs
    /\ String.length (bytesToHex bs) = (2 * List.length bs)%nat.
Proof.
  intros bs. split.
  - cbn [hexToBytes]. now rewrite hexToBytes_bytesToHex.
  - apply bytesToHex_length.
Qed.

Lemma hexToBytes_string_length_aux (n : nat) :
  forall s, (String.length s <= n)%nat ->
            List.length (hexToBytes_string s) = Nat.div2 (String.length s).
Proof.
  induction n as [|n IH]; intros s Hs.
  - destruct s; [reflexivity|cbn in Hs; lia].
  - destruct s as [|c1 [|c2 tl]]; [reflexivity|reflexivity|].
    cbn [hexToBytes_string List.length String.length Nat.div2].
    rewrite IH; [reflexivity|]. cbn [String.length] in Hs. lia.
Qed.

(** [hexToBytes] never rejects a string: it returns one byte per complete
    pair of characters, whatever they are, and drops a trailing single
    character; it throws on [undefined] and [null]. *)
Theorem hexToBytes_total_on_strings :
  forall s : string,
    (exists bs, hexToBytes (JString s) = Ok bs
                /\ List.length bs = Nat.div2 (String.length s))
    /\ hexToBytes JUndefined = Err TypeError
    /\ hexToBytes JNull = Err TypeError.
Proof.
  intros s. repeat split. eexists. split; [reflexivity|].
  eapply hexToBytes_string_length_aux. apply Nat.le_refl.
Qed.

(* ======================================================================= *)
(** ** Channel values: [dumpBlobs], [loadBlobs] *)
(* ======================================================================= *)

Lemma stored_as_channel serde cvs entry b :
  stored_as serde cvs entry b -> blob_channel b = fst entry.
Proof.
  destruct entry as [channel value]. unfold stored_as.
  destruct (isSimpleJsonSerializable value).
  - now intros ->.
  - intros (type & data & _ & ->). now destruct data.
Qed.

Lemma dumpBlob_simple serde cvs channel value :
  isSimpleJsonSerializable value = true ->
  dumpBlob serde cvs channel value
  = Ok (blob_of cvs channel "json" (JSON_stringify value)).
Proof. intros H. unfold dumpBlob. now rewrite H. Qed.

(** [dumpBlobs] returns one blob per channel value, in the order of the
    values and carrying their channel names; when every value is accepted
    by the classifier it succeeds without consulting the serializer. *)
Theorem dumpBlobs_shape :
  forall serde serde' cvs values,
    (forall blobs,
        dumpBlobs serde values cvs = Ok blobs ->
        map blob_channel blobs = map fst values)
    /\ (forallb (fun kv => isSimpleJsonSerializable (snd kv)) values = true ->
        dumpBlobs serde values cvs = dumpBlobs serde' values cvs
        /\ exists blobs,
             dumpBlobs serde values cvs = Ok blobs
             /\ Forall (fun b => blob_type b = "json") blobs).
Proof.
  intros serde serde' cvs values. split.
  - intros blobs H. apply dumpBlobs_stored_as in H.
    induction H as [|entry b tl bs Hb _ IH]; [reflexivity|].
    cbn [map]. f_equal; [|exact IH]. eapply stored_as_channel; eassumption.
  - induction values as [|[channel value] tl IH]; intros Hs.
    + split; [reflexivity|]. exists []. split; [reflexivity|constructor].
    + cbn [forallb snd] in Hs. apply andb_prop in Hs as [Hv Htl].
      destruct (IH Htl) as (Heq & blobs & Hb & Hty).
      cbn [dumpBlobs]. rewrite !(dumpBlob_simple _ _ _ _ Hv), <- Heq, Hb.
      cbn [bind]. split; [reflexivity|].
      eexists. split; [reflexivity|]. constructor; [reflexivity|exact Hty].
Qed.

Lemma dumpBlobs_shape_witness :
  map blob_channel
      [blob_of [] "a" "json" (Some (JNumber 1));
       blob_of [] "b" "json" (Some JNull)]
  = map fst [("a", JNumber 1); ("b", JNull)]
  /\ (dumpBlobs text_serde [("a", JNumber 1); ("b", JNull)] []
      = dumpBlobs id_serde [("a", JNumber 1); ("b", JNull)] []
      /\ exists blobs,
           dumpBlobs text_serde [("a", JNumber 1); ("b", JNull)] [] = Ok blobs
           /\ Forall (fun b => blob_type b = "json") blobs).
Proof.
  split.
  - apply (proj1 (dumpBlobs_shape text_serde id_serde []
                    [("a", JNumber 1); ("b", JNull)])).
    reflexivity.
  - apply (proj2 (dumpBlobs_shape text_serde id_serde []
                    [("a", JNumber 1); ("b", JNull)])).
    reflexivity.
Defined.

(** A value that [JSON.stringify] and [JSON.parse] give back unchanged. *)
Definition json_exact (x : jsval) : Prop := JSON_stringify x = Some x.

(** A value [loadBlobs] does not take for a serde wrapper. *)
Definition marker_free (x : jsval) : Prop :=
  is_nonnull_object x && js_in "__serde_type__" x = false.

(** What makes the stored form of a channel value decodable: on the direct
    path the value survives JSON and does not look like a wrapper, on the
    opaque path the serializer reads back what it wrote. *)
Definition decodable (serde : SerializerProtocol) (x : jsval) : Prop :=
  if isSimpleJsonSerializable x then json_exact x /\ marker_free x
  else forall type data,
         dumpsTyped serde x = Ok (type, data) ->
         match data with
         | DBytes bytes => loadsTyped serde (JString type) bytes = Ok x
         | DOther => json_exact x /\ marker_free x
         end.

Lemma loadBlob_json serde x :
  marker_free x -> loadBlob serde "json" x = Ok x.
Proof. unfold loadBlob, marker_free, JSON_parse. cbn. now intros ->. Qed.

Lemma loadBlob_serde serde type bytes t :
  JSON_stringify (serde_wrapper type bytes) = Some t ->
  loadBlob serde "serde" t = loadsTyped serde (JString type) bytes.
Proof.
  intros [= <-]. unfold loadBlob. cbn. now rewrite hexToBytes_bytesToHex.
Qed.









(* ======================================================================= *)
(** ** Pending writes: [dumpWrites] *)
(* ======================================================================= *)

Lemma dumpWrites_from_shape serde taskId taskPath :
  forall ws idx records,
    dumpWrites_from serde idx ws taskId taskPath = Ok records ->
    map wr_idx records = seq idx (List.length ws)
    /\ map wr_channel records = map fst ws
    /\ Forall (fun r => wr_taskId r = taskId /\ wr_taskPath r = taskPath)
              records.
Proof.
  intros ws. induction ws as [|[channel value] tl IH]; intros idx records H.
  - injection H as <-. repeat split. constructor.
  - cbn [dumpWrites_from] in H.
    match type of H with
    | bind ?r _ = _ => destruct r as [r0|e] eqn:Er
    end; cbn [bind] in H; [|discriminate].
    destruct (dumpWrites_from serde (S idx) tl taskId taskPath) as [rs|e] eqn:Ers;
      cbn [bind] in H; [|discriminate].
    injection H as <-. destruct (IH _ _ Ers) as (I1 & I2 & I3).
    assert (Hr : wr_idx r0 = idx /\ wr_channel r0 = channel
                 /\ wr_taskId r0 = taskId /\ wr_taskPath r0 = taskPath).
    { destruct (isSimpleJsonSerializable value).
      - injection Er as <-. repeat split.
      - destruct (dumpsTyped serde value) as [[type data]|e]; cbn [bind] in Er;
          [|discriminate].
        destruct data; injection Er as <-; repeat split. }
    destruct Hr as (R1 & R2 & R3 & R4).
    cbn [map seq List.length fst]. rewrite R1, R2, I1, I2.
    repeat split. constructor; [now split|exact I3].
Qed.

(** [dumpWrites] numbers the records with the positions of the writes,
    keeps their order and channels, stamps each with the task id and gives
    all of them the empty task path. *)
Theorem dumpWrites_positions :
  forall serde writes taskId records,
    dumpWrites serde writes taskId = Ok records ->
    map wr_idx records = seq 0 (List.length writes)
    /\ map wr_channel records = map fst writes
    /\ Forall (fun r => wr_taskId r = taskId /\ wr_taskPath r = "") records.
Proof.
  intros serde writes taskId records H.
  now apply dumpWrites_from_shape in H.
Qed.

Lemma dumpWrites_positions_witness :
  map wr_idx
      [ {| wr_taskId := "t1"; wr_taskPath := ""; wr_idx := 0;
           wr_channel := "chan"; wr_type := "json";
           wr_blob := Some (JString "a") |};
        {| wr_taskId := "t1"; wr_taskPath := ""; wr_idx := 1;
           wr_channel := "chan"; wr_type := "json";
           wr_blob := Some (JString "b") |} ]
  = seq 0 (List.length [("chan", JString "a"); ("chan", JString "b")])
  /\ map wr_channel
         [ {| wr_taskId := "t1"; wr_taskPath := ""; wr_idx := 0;
              wr_channel := "chan"; wr_type := "json";
              wr_blob := Some (JString "a") |};
           {| wr_taskId := "t1"; wr_taskPath := ""; wr_idx := 1;
              wr_channel := "chan"; wr_type := "json";
              wr_blob := Some (JString "b") |} ]
     = map fst [("chan", JString "a"); ("chan", JString "b")]
  /\ Forall (fun r => wr_taskId r = "t1" /\ wr_taskPath r = "")
            [ {| wr_taskId := "t1"; wr_taskPath := ""; wr_idx := 0;
                 wr_channel := "chan"; wr_type := "json";
                 wr_blob := Some (JString "a") |};
              {| wr_taskId := "t1"; wr_taskPath := ""; wr_idx := 1;
                 wr_channel := "chan"; wr_type := "json";
                 wr_blob := Some (JString "b") |} ].
Proof.
  apply (dumpWrites_positions text_serde
           [("chan", JString "a"); ("chan", JString "b")] "t1").
  reflexivity.
Defined.

(* ======================================================================= *)
(** ** Missing thread id ([parseConfig] and its callers) *)
(* ======================================================================= *)

(** When [thread_id] is absent or empty, [parseConfig] throws, and with it
    every method, before the store is touched. *)
Theorem thread_id_required :
  forall serde cfg cp md nv uuid ws taskId options s,
    truthy (thread_id cfg) = false ->
    parseConfig cfg = Err ThreadIdRequired
    /\ put serde cfg cp md nv uuid s = (Err ThreadIdRequired, s)
    /\ putWrites serde cfg ws taskId s = (Err ThreadIdRequired, s)
    /\ getTuple serde s cfg = Err ThreadIdRequired
    /\ list_ serde s cfg options = Err ThreadIdRequired.
Proof.
  intros serde cfg cp md nv uuid ws taskId options s H.
  assert (E : parseConfig cfg = Err ThreadIdRequired).
  { unfold parseConfig. now rewrite H. }
  split; [exact E|]. rewrite put_unfold.
  unfold putWrites, getTuple, list_, mbind, lift. rewrite E.
  repeat split.
Qed.

Lemma thread_id_required_witness :
  parseConfig {| thread_id := Some ""; checkpoint_ns := Some "ns";
                 checkpoint_id := Some "c1" |} = Err ThreadIdRequired
  /\ put text_serde {| thread_id := Some ""; checkpoint_ns := Some "ns";
                       checkpoint_id := Some "c1" |}
         sample_checkpoint JNull [] "u" store_after_first
     = (Err ThreadIdRequired, store_after_first)
  /\ putWrites text_serde {| thread_id := Some ""; checkpoint_ns := Some "ns";
                             checkpoint_id := Some "c1" |}
               [("a", JNull)] "t1" store_after_first
     = (Err ThreadIdRequired, store_after_first)
  /\ getTuple text_serde store_after_first
              {| thread_id := Some ""; checkpoint_ns := Some "ns";
                 checkpoint_id := Some "c1" |} = Err ThreadIdRequired
  /\ list_ text_serde store_after_first
           {| thread_id := Some ""; checkpoint_ns := Some "ns";
              checkpoint_id := Some "c1" |} None = Err ThreadIdRequired.
Proof.
  apply (thread_id_required text_serde
           {| thread_id := Some ""; checkpoint_ns := Some "ns";
              checkpoint_id := Some "c1" |}
           sample_checkpoint JNull [] "u" [("a", JNull)] "t1" None
           store_after_first).
  reflexivity.
Defined.

(* ======================================================================= *)
(** ** Pending writes ([putWrites], [CYPHER_UPSERT_WRITE],
       [CYPHER_GET_WRITES]) *)
(* ======================================================================= *)

Definition put_write_records (cid : string) (records : list WriteRecord)
    : M unit :=
  for_each records
    (fun record =>
       run (fun s => CYPHER_UPSERT_WRITE s cid
                       (wr_taskId record) (wr_taskPath record)
                       (wr_idx record) (wr_channel record)
                       (wr_type record) (wr_blob record))).

Lemma putWrites_unfold serde cfg writes taskId pc cid :
  parseConfig cfg = Ok pc -> checkpointId pc = Some cid -> cid <> "" ->
  putWrites serde cfg writes taskId
  = (records <- lift (dumpWrites serde writes taskId) ;;
     put_write_records cid records).
Proof.
  intros Hp Hc Hne. unfold putWrites, mbind at 1, lift at 1. rewrite Hp.
  unfold mbind at 2. unfold lift at 2. rewrite Hc. cbn [truthy].
  destruct (String.eqb_spec cid ""); [contradiction|]. reflexivity.
Qed.

Definition write_node (cid : string) (r : WriteRecord) (t : json_text)
    : PendingWriteNode :=
  {| pw_checkpoint := cid; pw_task_id := wr_taskId r;
     pw_task_path := wr_taskPath r; pw_idx := wr_idx r;
     pw_channel := wr_channel r; pw_type := wr_type r; pw_blob := t |}.

(** The loop of [putWrites] for a checkpoint id that matches [k] nodes: it
    touches nothing but the pending writes, and appends [k] nodes per
    record. *)
Lemma put_write_records_spec cid :
  forall records s r s',
    put_write_records cid records s = (r, s') ->
    threads s' = threads s /\ checkpoints s' = checkpoints s
    /\ previous s' = previous s /\ channel_states s' = channel_states s
    /\ has_channel s' = has_channel s /\ branches s' = branches s
    /\ active_branch s' = active_branch s /\ head s' = head s
    /\ on_branch s' = on_branch s
    /\ (r = Ok tt ->
        exists blobs,
          map wr_blob records = map Some blobs
          /\ writes s'
             = (writes s
                ++ flat_map (fun rt => map (fun c => write_node
                                                       (cn_checkpoint_id c)
                                                       (fst rt) (snd rt))
                                           (match_checkpoint s cid))
                            (combine records blobs))%list).
Proof.
  unfold put_write_records.
  induction records as [|rec tl IH]; intros s r s' H.
  - injection H as <- <-. repeat split. intros _. exists []. split;
      [reflexivity|]. cbn. now rewrite app_nil_r.
  - cbn [for_each] in H. unfold mbind at 1, run at 1 in H.
    destruct (CYPHER_UPSERT_WRITE s cid _ _ _ _ _ _) as [s1|e] eqn:E.
    + unfold CYPHER_UPSERT_WRITE in E.
      destruct (wr_blob rec) as [t|] eqn:Et; [|discriminate].
      cbn [param bind] in E. injection E as <-.
      apply IH in H. cbn in H.
      destruct H as (? & ? & ? & ? & ? & ? & ? & ? & ? & Hw).
      repeat split; try assumption. intros Hr.
      destruct (Hw Hr) as (blobs & Hb & Hws). exists (t :: blobs).
      split; [cbn [map]; now rewrite Et, Hb|].
      rewrite Hws. cbn [combine flat_map fst snd]. unfold match_checkpoint.
      cbn [checkpoints]. rewrite <- app_assoc. reflexivity.
    + injection H as <- <-. repeat split. discriminate.
Qed.

Definition has_blob (r : WriteRecord) : bool :=
  match wr_blob r with Some _ => true | None => false end.

Lemma put_write_records_unmatched cid s :
  match_checkpoint s cid = [] ->
  forall records,
    put_write_records cid records s
    = (if forallb has_blob records then Ok tt else Err ParameterMissing, s).
Proof.
  intros Hm records. unfold put_write_records.
  induction records as [|rec tl IH]; [reflexivity|].
  cbn [for_each forallb]. unfold mbind at 1, run at 1.
  unfold CYPHER_UPSERT_WRITE, has_blob at 1. rewrite Hm. cbn [map].
  destruct (wr_blob rec) as [b|]; cbn [param bind andb]; [|reflexivity].
  rewrite app_nil_r, store_eta. exact IH.
Qed.

(** A [putWrites] that names no checkpoint of the store - no checkpoint id,
    an empty one, or one that no checkpoint has - leaves the store as it
    is: it throws for a missing thread or checkpoint id and for writes that
    cannot be encoded, and otherwise returns normally although nothing was
    stored. *)
Theorem putWrites_unknown_checkpoint :
  forall serde cfg ws taskId s,
    (forall c, checkpoint_id cfg = Some c -> match_checkpoint s c = []) ->
    putWrites serde cfg ws taskId s
    = (match parseConfig cfg with
       | Err e => Err e
       | Ok pc =>
           if truthy (checkpointId pc) then
             match dumpWrites serde ws taskId with
             | Err e => Err e
             | Ok records =>
                 if forallb has_blob records then Ok tt
                 else Err ParameterMissing
             end
           else Err CheckpointIdRequired
       end, s).
Proof.
  intros serde cfg ws taskId s H. unfold putWrites, mbind at 1, lift at 1.
  destruct (parseConfig cfg) as [pc|e] eqn:Ep; [|reflexivity].
  assert (Hc : checkpointId pc = checkpoint_id cfg).
  { unfold parseConfig in Ep. destruct (negb (truthy (thread_id cfg)));
      [discriminate|]. now injection Ep as <-. }
  destruct (truthy (checkpointId pc)) eqn:Et; [|reflexivity].
  cbn [negb]. unfold mbind, lift.
  destruct (dumpWrites serde ws taskId) as [records|e]; [|reflexivity].
  destruct (checkpointId pc) as [c|] eqn:Ec; [|discriminate].
  apply (put_write_records_unmatched c s).
  apply H. now rewrite <- Hc.
Qed.

Lemma putWrites_unknown_checkpoint_witness :
  putWrites text_serde (thread_config "T" (Some "ghost"))
            [("chan", JString "a")] "t1" store_after_first
  = (match parseConfig (thread_config "T" (Some "ghost")) with
     | Err e => Err e
     | Ok pc =>
         if truthy (checkpointId pc) then
           match dumpWrites text_serde [("chan", JString "a")] "t1" with
           | Err e => Err e
           | Ok records =>
               if forallb has_blob records then Ok tt
               else Err ParameterMissing
           end
         else Err CheckpointIdRequired
     end, store_after_first).
Proof.
  apply (putWrites_unknown_checkpoint text_serde
           (thread_config "T" (Some "ghost")) [("chan", JString "a")] "t1"
           store_after_first).
  intros c [= <-]. reflexivity.
Defined.

(** *** [ORDER BY w.idx] *)





Lemma order_by_idx_increasing :
  forall l i, map pw_idx l = seq i (List.length l) -> order_by_idx l = l.
Proof.
  unfold order_by_idx.
  induction l as [|x tl IH]; intros i H; [reflexivity|].
  cbn [map List.length seq] in H. injection H as Hx Htl.
  cbn [fold_right]. rewrite (IH _ Htl).
  destruct tl as [|y tl']; [reflexivity|].
  cbn [map List.length seq] in Htl. injection Htl as Hy _.
  cbn [insert_idx]. rewrite Hx, Hy.
  destruct (Nat.ltb_spec (S i) i); [lia|reflexivity].
Qed.



(** *** Round trip of pending writes *)

Lemma dump_load_writes serde taskId taskPath cid :
  forall ws idx records blobs,
    dumpWrites_from serde idx ws taskId taskPath = Ok records ->
    map wr_blob records = map Some blobs ->
    Forall (fun w => decodable serde (snd w)) ws ->
    loadWrites serde
      (map (fun w => (pw_task_id w, pw_channel w, pw_type w, pw_blob w))
           (map (fun rt => write_node cid (fst rt) (snd rt))
                (combine records blobs)))
    = Ok (map (fun w => (taskId, fst w, snd w)) ws).
Proof.
  intros ws. induction ws as [|[channel value] tl IH];
    intros idx records blobs H Hb Hd.
  - injection H as <-. reflexivity.
  - cbn [dumpWrites_from] in H.
    match type of H with
    | bind ?r _ = _ => destruct r as [r0|e] eqn:Er
    end; cbn [bind] in H; [|discriminate].
    destruct (dumpWrites_from serde (S idx) tl taskId taskPath) as [rs|e] eqn:Ers;
      cbn [bind] in H; [|discriminate].
    injection H as <-. destruct blobs as [|t blobs]; [discriminate|].
    cbn [map] in Hb. injection Hb as Ht Hbs.
    inversion Hd as [|? ? Hv Htl]; subst.
    cbn [combine map fst snd loadWrites write_node pw_task_id pw_channel
         pw_type pw_blob].
    rewrite (IH _ _ _ Ers Hbs Htl).
    assert (Hr : wr_taskId r0 = taskId /\ wr_channel r0 = channel
                 /\ loadBlob serde (wr_type r0) t = Ok value).
    { cbn [snd] in Hv. unfold decodable in Hv.
      destruct (isSimpleJsonSerializable value).
      - injection Er as <-. cbn in Ht |- *. destruct Hv as [He Hm].
        unfold json_exact in He. rewrite He in Ht. injection Ht as <-.
        repeat split. now apply loadBlob_json.
      - destruct (dumpsTyped serde value) as [[type data]|e] eqn:Edump;
          cbn [bind] in Er; [|discriminate].
        specialize (Hv type data eq_refl).
        destruct data as [bytes|]; injection Er as <-;
          cbn [wr_taskId wr_channel wr_type wr_blob] in Ht |- *.
        + repeat split. rewrite <- Hv. now apply loadBlob_serde.
        + destruct Hv as [He Hm]. unfold json_exact in He.
          rewrite He in Ht. injection Ht as <-.
          repeat split. now apply loadBlob_json. }
    destruct Hr as (-> & -> & ->). reflexivity.
Qed.

(** Pending writes round trip: after [putWrites] has returned for a
    checkpoint that exists and had no pending writes, the rows read for it
    decode to the writes that were passed, in their order, each with the
    task id. *)
Theorem pending_writes_roundtrip :
  forall serde cfg pc cid c ws taskId s s',
    parseConfig cfg = Ok pc ->
    checkpointId pc = Some cid -> cid <> "" ->
    match_checkpoint s cid = [c] ->
    filter (fun w => String.eqb (pw_checkpoint w) cid) (writes s) = [] ->
    Forall (fun w => decodable serde (snd w)) ws ->
    putWrites serde cfg ws taskId s = (Ok tt, s') ->
    loadWrites serde
      (map (fun w => (pw_task_id w, pw_channel w, pw_type w, pw_blob w))
           (CYPHER_GET_WRITES s' cid))
    = Ok (map (fun w => (taskId, fst w, snd w)) ws).
Proof.
  intros serde cfg pc cid c ws taskId s s' Hp Hc Hne Hm Hold Hd H.
  rewrite (putWrites_unfold serde cfg ws taskId Hp Hc Hne) in H.
  unfold mbind at 1, lift at 1 in H.
  destruct (dumpWrites serde ws taskId) as [records|e] eqn:Ed; [|discriminate].
  pose proof (put_write_records_spec _ _ _ H)
    as (_ & Hcp & _ & _ & _ & _ & _ & _ & _ & Hw).
  destruct (Hw eq_refl) as (blobs & Hb & Hws).
  assert (Hcid : cn_checkpoint_id c = cid).
  { assert (Hin : In c (match_checkpoint s cid)) by (rewrite Hm; now left).
    apply filter_In in Hin as [_ Hin]. now apply String.eqb_eq. }
  subst cid.
  unfold CYPHER_GET_WRITES, match_checkpoint. rewrite Hcp.
  fold (match_checkpoint s (cn_checkpoint_id c)). rewrite Hm. cbn [flat_map].
  rewrite app_nil_r, Hws, Hm, filter_app, Hold. cbn [app].
  assert (Hflat : flat_map (fun rt => map (fun c0 => write_node
                                              (cn_checkpoint_id c0)
                                              (fst rt) (snd rt)) [c])
                           (combine records blobs)
                  = map (fun rt => write_node (cn_checkpoint_id c)
                                              (fst rt) (snd rt))
                        (combine records blobs)).
  { induction (combine records blobs) as [|rt l IHl];
      [reflexivity|]. cbn [flat_map map app]. now f_equal. }
  rewrite Hflat.
  assert (Hfilter : forall l,
             filter (fun w => String.eqb (pw_checkpoint w)
                                         (cn_checkpoint_id c))
                    (map (fun rt : WriteRecord * json_text =>
                            write_node (cn_checkpoint_id c) (fst rt) (snd rt))
                         l)
             = map (fun rt => write_node (cn_checkpoint_id c)
                                         (fst rt) (snd rt)) l).
  { induction l as [|rt l IHl]; [reflexivity|].
    cbn [map filter write_node pw_checkpoint]. rewrite String.eqb_refl.
    now rewrite IHl. }
  rewrite Hfilter.
  pose proof (dumpWrites_positions _ _ _ Ed) as (Hidx & _ & _).
  assert (Hlen : List.length blobs = List.length records).
  { rewrite <- (length_map Some blobs), <- Hb. now rewrite length_map. }
  rewrite (order_by_idx_increasing _ 0).
  - unfold dumpWrites in Ed. eapply dump_load_writes; eassumption.
  - rewrite length_map, map_map. cbn [write_node pw_idx].
    assert (Hcomb : map (fun rt : WriteRecord * json_text => wr_idx (fst rt))
                        (combine records blobs)
                    = map wr_idx records).
    { clear - Hlen. revert blobs Hlen.
      induction records as [|r tl IH]; intros [|b bl] Hl;
        try discriminate; [reflexivity|].
      cbn [combine map fst]. f_equal. apply IH. now injection Hl. }
    rewrite Hcomb, length_combine, Hlen, Nat.min_id, Hidx.
    f_equal. rewrite <- (length_map wr_idx records), Hidx.
    now rewrite length_seq.
Qed.

Lemma pending_writes_roundtrip_witness :
  loadWrites text_serde
    (map (fun w => (pw_task_id w, pw_channel w, pw_type w, pw_blob w))
         (CYPHER_GET_WRITES
            (snd (putWrites text_serde (thread_config "T" (Some "c1"))
                            [("chan", JString "a"); ("chan", JString "b")]
                            "t1" store_after_first))
            "c1"))
  = Ok (map (fun w => ("t1", fst w, snd w))
            [("chan", JString "a"); ("chan", JString "b")]).
Proof.
  apply (@pending_writes_roundtrip text_serde
           (thread_config "T" (Some "c1"))
           {| threadId := "T"; checkpointNs := "";
              checkpointId := Some "c1" |}
           "c1"
           {| cn_thread := ("T", ""); cn_checkpoint_id := "c1";
              cn_type := "json";
              cn_checkpoint := JObject
                [("v", JNumber 1); ("id", JString "c1");
                 ("ts", JString "2026");
                 ("channel_values",
                  JObject [("a", JNumber 5); ("b", JString "x")]);
                 ("channel_versions",
                  JObject [("a", JNumber 1); ("b", JString "2")]);
                 ("versions_seen", JObject [])];
              cn_metadata := JNull |}
           [("chan", JString "a"); ("chan", JString "b")] "t1"
           store_after_first).
  - reflexivity.
  - reflexivity.
  - discriminate.
  - reflexivity.
  - reflexivity.
  - repeat constructor.
  - reflexivity.
Defined.

(* ======================================================================= *)
(** ** Reading a thread that is not there ([getTuple]) *)
(* ======================================================================= *)

Lemma thread_checkpoints_absent s t :
  mem_key t (threads s) = false -> thread_checkpoints s t = [].
Proof. intros H. unfold thread_checkpoints. now rewrite H. Qed.

Lemma getTuple_no_rows serde s cfg pc :
  parseConfig cfg = Ok pc ->
  thread_checkpoints s (threadId pc, checkpointNs pc) = [] ->
  CYPHER_GET_ACTIVE_BRANCH_HEAD s (threadId pc) (checkpointNs pc) = [] ->
  getTuple serde s cfg = Ok None.
Proof.
  intros Hp Hc Ha. unfold getTuple. rewrite Hp. cbn [bind].
  unfold CYPHER_GET_CHECKPOINT_BY_ID, CYPHER_GET_LATEST_CHECKPOINT.
  rewrite Hc, Ha. cbn. now destruct (truthy (checkpointId pc)).
Qed.

(** A read for a thread the store does not know returns [undefined], not an
    error, with or without a checkpoint id; [list] yields nothing. *)
Theorem getTuple_unknown_thread :
  forall serde s cfg pc options,
    parseConfig cfg = Ok pc ->
    mem_key (threadId pc, checkpointNs pc) (threads s) = false ->
    getTuple serde s cfg = Ok None
    /\ (list_ serde s cfg options = Ok ([], None)
        \/ exists e, list_ serde s cfg options = Err e).
Proof.
  intros serde s cfg pc options Hp Ht. split.
  - apply (getTuple_no_rows serde s cfg Hp).
    + now apply thread_checkpoints_absent.
    + unfold CYPHER_GET_ACTIVE_BRANCH_HEAD. now rewrite Ht.
  - unfold list_. rewrite Hp. cbn [bind].
    match goal with
    | |- context [bind ?x _] => destruct x as [beforeId|e]
    end; cbn [bind]; [|right; eauto].
    unfold CYPHER_LIST_CHECKPOINTS.
    match goal with
    | |- context [(?l <? 0)%Z] => destruct (l <? 0)%Z
    end; cbn [bind]; [right; eauto|left].
    rewrite (thread_checkpoints_absent s _ Ht). cbn.
    now rewrite firstn_nil.
Qed.

Lemma getTuple_unknown_thread_witness :
  getTuple text_serde store_after_first (thread_config "nobody" (Some "c1"))
  = Ok None
  /\ (list_ text_serde store_after_first (thread_config "nobody" (Some "c1"))
            None = Ok ([], None)
      \/ exists e,
           list_ text_serde store_after_first
                 (thread_config "nobody" (Some "c1")) None = Err e).
Proof.
  apply (@getTuple_unknown_thread text_serde store_after_first
           (thread_config "nobody" (Some "c1"))
           {| threadId := "nobody"; checkpointNs := "";
              checkpointId := Some "c1" |} None);
    reflexivity.
Defined.

(* ======================================================================= *)
(** ** Deleting a thread ([deleteThread], [CYPHER_DELETE_THREAD],
       [CYPHER_DELETE_ORPHAN_CHANNEL_STATES]) *)
(* ======================================================================= *)

(** The store [deleteThread] leaves; it never throws. *)
Lemma deleteThread_run t s :
  exists s1,
    CYPHER_DELETE_THREAD s t = Ok s1
    /\ exists s2,
         CYPHER_DELETE_ORPHAN_CHANNEL_STATES s1 = Ok s2
         /\ deleteThread t s = (Ok tt, s2).
Proof.
  eexists. split; [reflexivity|]. eexists. split; [reflexivity|].
  reflexivity.
Qed.

Lemma mem_key_filter_dead t s ns :
  mem_key (t, ns)
    (filter (fun k => negb (String.eqb (fst k) t && mem_key k (threads s)))
            (threads s)) = false.
Proof.
  match goal with |- ?x = false => destruct x eqn:E end; [|reflexivity].
  apply mem_key_In in E. apply filter_In in E as [Hin Hd].
  apply mem_key_In in Hin. cbn [fst] in Hd.
  now rewrite String.eqb_refl, Hin in Hd.
Qed.

(** After [deleteThread] the thread is gone under every namespace: it has
    no checkpoints, a read for it returns [undefined], and the call itself
    always returns. *)
Theorem deleteThread_then_absent :
  forall serde s t cfg pc,
    parseConfig cfg = Ok pc ->
    threadId pc = t ->
    fst (deleteThread t s) = Ok tt
    /\ (forall ns, thread_checkpoints (snd (deleteThread t s)) (t, ns) = [])
    /\ getTuple serde (snd (deleteThread t s)) cfg = Ok None.
Proof.
  intros serde s t cfg pc Hp Ht.
  assert (Hm : forall ns, mem_key (t, ns)
                            (threads (snd (deleteThread t s))) = false).
  { intros ns. cbn. apply mem_key_filter_dead. }
  split; [reflexivity|]. split.
  - intros ns. apply thread_checkpoints_absent, Hm.
  - refine (proj1 (@getTuple_unknown_thread serde _ cfg pc None Hp _)).
    rewrite Ht. apply Hm.
Qed.

Lemma deleteThread_then_absent_witness :
  fst (deleteThread "T" store_after_second) = Ok tt
  /\ (forall ns,
        thread_checkpoints (snd (deleteThread "T" store_after_second))
                           ("T", ns) = [])
  /\ getTuple text_serde (snd (deleteThread "T" store_after_second))
              (thread_config "T" (Some "c1")) = Ok None.
Proof.
  apply (@deleteThread_then_absent text_serde store_after_second "T"
           (thread_config "T" (Some "c1"))
           {| threadId := "T"; checkpointNs := "";
              checkpointId := Some "c1" |});
    reflexivity.
Defined.

(** [deleteThread] leaves the checkpoints and the branches of every other
    thread id as they were. *)
Theorem deleteThread_other_threads :
  forall s t other,
    fst other <> t ->
    thread_checkpoints (snd (deleteThread t s)) other
    = thread_checkpoints s other
    /\ thread_branches (snd (deleteThread t s)) other
       = thread_branches s other
    /\ mem_key other (threads (snd (deleteThread t s)))
       = mem_key other (threads s).
Proof.
  intros s t other Hne.
  assert (Hdead : forall k, key_eqb k other = true ->
                  (String.eqb (fst k) t && mem_key k (threads s)) = false).
  { intros k Hk. apply key_eqb_eq in Hk. subst k.
    destruct (String.eqb_spec (fst other) t); [contradiction|reflexivity]. }
  assert (Hmem : mem_key other (threads (snd (deleteThread t s)))
                 = mem_key other (threads s)).
  { cbn. destruct (mem_key other (threads s)) eqn:E.
    - apply mem_key_In. apply filter_In. split; [now apply mem_key_In|].
      rewrite Hdead; [reflexivity|apply key_eqb_refl].
    - match goal with |- ?x = false => destruct x eqn:E' end; [|reflexivity].
      apply mem_key_In in E'. apply filter_In in E' as [Hin _].
      apply mem_key_In in Hin. congruence. }
  split; [|split; [|exact Hmem]].
  - unfold thread_checkpoints. rewrite Hmem.
    destruct (mem_key other (threads s)); [|reflexivity]. cbn.
    apply (filter_negb_other
             (fun c => String.eqb (fst (cn_thread c)) t
                       && mem_key (cn_thread c) (threads s))
             (fun c => key_eqb (cn_thread c) other)).
    intros c Hc. now apply Hdead.
  - unfold thread_branches. cbn.
    apply (filter_negb_other
             (fun b => String.eqb (fst (br_thread b)) t
                       && mem_key (br_thread b) (threads s))
             (fun b => key_eqb (br_thread b) other)).
    intros b Hb. now apply Hdead.
Qed.

Definition two_thread_store : Store :=
  snd (put text_serde (thread_config "U" None) second_checkpoint JNull []
           "u2" store_after_first).

Lemma deleteThread_other_threads_witness :
  thread_checkpoints (snd (deleteThread "T" two_thread_store)) ("U", "")
  = thread_checkpoints two_thread_store ("U", "")
  /\ thread_branches (snd (deleteThread "T" two_thread_store)) ("U", "")
     = thread_branches two_thread_store ("U", "")
  /\ mem_key ("U", "") (threads (snd (deleteThread "T" two_thread_store)))
     = mem_key ("U", "") (threads two_thread_store).
Proof.
  apply (deleteThread_other_threads two_thread_store (t := "T") ("U", "")).
  discriminate.
Defined.



(* ======================================================================= *)
(** ** Invariants of the graph *)
(* ======================================================================= *)

Definition checkpoint_ids (s : Store) : list string :=
  map cn_checkpoint_id (checkpoints s).

Definition branch_ids (s : Store) : list string :=
  map br_branch_id (branches s).

Definition heads_of (s : Store) (b : string) : list (string * string) :=
  filter (fun h => String.eqb (fst h) b) (head s).

(** What every reachable store satisfies: the four uniqueness constraints,
    edges between existing nodes only, at most one parent per checkpoint,
    at most one head per branch, at most one active branch per thread. *)
Record graph_inv (s : Store) : Prop := {
  gi_threads : NoDup (threads s);
  gi_checkpoints : NoDup (checkpoint_ids s);
  gi_channel_states : NoDup (map cs_key (channel_states s));
  gi_previous : forall e, In e (previous s) ->
                  In (fst e) (checkpoint_ids s)
                  /\ In (snd e) (checkpoint_ids s);
  gi_parent : NoDup (map fst (previous s));
  gi_head : forall h, In h (head s) ->
              In (fst h) (branch_ids s) /\ In (snd h) (checkpoint_ids s);
  gi_one_head : forall b, (List.length (heads_of s b) <= 1)%nat;
  gi_branch : branch_inv s
}.

Lemma match_checkpoint_nil s cid :
  match_checkpoint s cid = [] <-> ~ In cid (checkpoint_ids s).
Proof.
  unfold match_checkpoint, checkpoint_ids. split.
  - intros H Hin. apply in_map_iff in Hin as (c & Hc & Hin).
    assert (Hf : In c (filter (fun c => String.eqb (cn_checkpoint_id c) cid)
                              (checkpoints s))).
    { apply filter_In. split; [exact Hin|]. now apply String.eqb_eq. }
    rewrite H in Hf. destruct Hf.
  - intros H. apply existsb_filter_nil.
    match goal with |- ?x = false => destruct x eqn:E end; [|reflexivity].
    apply existsb_exists in E as (c & Hc & Ec). apply String.eqb_eq in Ec.
    exfalso. apply H. apply in_map_iff. eauto.
Qed.

Lemma match_checkpoint_In s cid c :
  In c (match_checkpoint s cid) ->
  In c (checkpoints s) /\ cn_checkpoint_id c = cid.
Proof.
  intros H. apply filter_In in H as [H1 H2]. split; [exact H1|].
  now apply String.eqb_eq.
Qed.

Lemma length_le_one {A} (l : list A) :
  (List.length l <= 1)%nat -> l = [] \/ exists x, l = [x].
Proof.
  destruct l as [|x [|y tl]]; cbn; intros H; [now left|right; eauto|lia].
Qed.

Lemma match_checkpoint_unique s cid :
  NoDup (checkpoint_ids s) ->
  match_checkpoint s cid = []
  \/ exists c, match_checkpoint s cid = [c].
Proof.
  intros H. apply length_le_one.
  apply (@NoDup_map_filter_one _ cn_checkpoint_id cid _ H).
Qed.

Lemma match_branch_unique s b :
  NoDup (branch_ids s) ->
  match_branch s b = [] \/ exists x, match_branch s b = [x].
Proof.
  intros H. apply length_le_one.
  apply (@NoDup_map_filter_one _ br_branch_id b _ H).
Qed.

Lemma match_branch_In s b x :
  In x (match_branch s b) -> In x (branches s) /\ br_branch_id x = b.
Proof.
  intros H. apply filter_In in H as [H1 H2]. split; [exact H1|].
  now apply String.eqb_eq.
Qed.

(** Rebuilding the invariant for a store that has the threads, the
    checkpoints, the branches and the active edges of [s]. *)
Lemma graph_inv_frame s s' :
  graph_inv s ->
  threads s' = threads s -> checkpoints s' = checkpoints s ->
  branches s' = branches s -> active_branch s' = active_branch s ->
  NoDup (map cs_key (channel_states s')) ->
  (forall e, In e (previous s') ->
             In (fst e) (checkpoint_ids s) /\ In (snd e) (checkpoint_ids s)) ->
  NoDup (map fst (previous s')) ->
  (forall h, In h (head s') ->
             In (fst h) (branch_ids s) /\ In (snd h) (checkpoint_ids s)) ->
  (forall b, (List.length (heads_of s' b) <= 1)%nat) ->
  graph_inv s'.
Proof.
  intros [G1 G2 G3 G4 G5 G6 G7 GB] Ht Hc Hb Ha H3 H4 H5 H6 H7.
  split; unfold checkpoint_ids, branch_ids in *; rewrite ?Ht, ?Hc, ?Hb; auto.
  now apply (@branch_inv_eq s).
Qed.

Lemma graph_inv_eq s s' :
  graph_inv s ->
  threads s' = threads s -> checkpoints s' = checkpoints s ->
  channel_states s' = channel_states s -> previous s' = previous s ->
  head s' = head s -> branches s' = branches s ->
  active_branch s' = active_branch s ->
  graph_inv s'.
Proof.
  intros G Ht Hc Hcs Hp Hh Hb Ha.
  apply (@graph_inv_frame s _ G); auto; unfold heads_of; rewrite ?Hcs, ?Hp, ?Hh;
    apply G.
Qed.

(** *** Statements that create checkpoints and parent links *)

Lemma upsert_checkpoint_graph_inv t ns cid ty sc sm s s' :
  graph_inv s ->
  CYPHER_UPSERT_CHECKPOINT_SIMPLE s t ns cid ty sc sm = Ok s' ->
  graph_inv s' /\ ~ In cid (map fst (previous s')).
Proof.
  intros G H.
  pose proof (upsert_checkpoint_branch_inv _ _ _ _ _ _ (gi_branch G) H) as GB.
  apply upsert_checkpoint_inv in H
    as (c & m & _ & _ & Hfresh & Hc & Ht & Hp & Hcs & _ & _ & Hbr & _ & Hh & _).
  apply match_checkpoint_nil in Hfresh.
  assert (Hids : checkpoint_ids s' = (checkpoint_ids s ++ [cid])%list).
  { unfold checkpoint_ids. now rewrite Hc, map_app. }
  destruct G as [G1 G2 G3 G4 G5 G6 G7 _].
  split; [split|].
  - rewrite Ht. destruct (mem_key (t, ns) (threads s)) eqn:E; [exact G1|].
    apply NoDup_snoc; [exact G1|]. intros Hin. apply mem_key_In in Hin.
    congruence.
  - rewrite Hids. now apply NoDup_snoc.
  - now rewrite Hcs.
  - intros e He. rewrite Hp in He. destruct (G4 e He) as [A B].
    rewrite Hids. split; apply in_or_app; now left.
  - now rewrite Hp.
  - intros h Hin. rewrite Hh in Hin. destruct (G6 h Hin) as [A B].
    unfold branch_ids. rewrite Hbr, Hids. split; [exact A|].
    apply in_or_app; now left.
  - intros b. unfold heads_of. rewrite Hh. apply G7.
  - exact GB.
  - rewrite Hp. intros Hin. apply in_map_iff in Hin as (e & He & Hin).
    apply Hfresh. rewrite <- He. now apply G4.
Qed.

Lemma fold_merge_edge_one e l :
  fold_left (fun acc x => merge_edge x acc) [e] l
  = if mem_key e l then l else (l ++ [e])%list.
Proof. reflexivity. Qed.

Lemma link_parent_graph_inv cid p s s' :
  graph_inv s -> ~ In cid (map fst (previous s)) ->
  CYPHER_LINK_PARENT_CHECKPOINT s cid p = Ok s' ->
  graph_inv s'.
Proof.
  intros G Hfresh H. unfold CYPHER_LINK_PARENT_CHECKPOINT in H.
  injection H as <-.
  assert (Hrows :
            flat_map (fun c => map (fun q => (cn_checkpoint_id c,
                                              cn_checkpoint_id q))
                                   (match_checkpoint s p))
                     (match_checkpoint s cid) = []
            \/ (flat_map (fun c => map (fun q => (cn_checkpoint_id c,
                                                  cn_checkpoint_id q))
                                       (match_checkpoint s p))
                         (match_checkpoint s cid) = [(cid, p)]
                /\ In cid (checkpoint_ids s) /\ In p (checkpoint_ids s))).
  { destruct (match_checkpoint_unique s cid (gi_checkpoints G))
      as [->|(c & Ec)]; [now left|].
    destruct (match_checkpoint_unique s p (gi_checkpoints G))
      as [Ep|(q & Ep)]; rewrite Ec, Ep; [now left|right].
    assert (Hc : In c (match_checkpoint s cid)) by (rewrite Ec; now left).
    assert (Hq : In q (match_checkpoint s p)) by (rewrite Ep; now left).
    apply match_checkpoint_In in Hc as [Hc1 Hc2].
    apply match_checkpoint_In in Hq as [Hq1 Hq2].
    cbn. rewrite Hc2, Hq2. split; [reflexivity|].
    unfold checkpoint_ids. split; apply in_map_iff; eauto. }
  destruct Hrows as [-> | (-> & Hc & Hp)].
  - cbn [fold_left]. apply (@graph_inv_eq s _ G); reflexivity.
  - rewrite fold_merge_edge_one.
    destruct (mem_key (cid, p) (previous s)) eqn:E;
      [apply (@graph_inv_eq s _ G); reflexivity|].
    apply (@graph_inv_frame s _ G); try reflexivity;
      cbn [channel_states previous head]; try apply G.
    + intros e He. apply in_app_or in He as [He|[<-|[]]];
        [now apply G|now split].
    + rewrite map_app. cbn [map fst]. apply NoDup_snoc; [apply G|exact Hfresh].
Qed.

Lemma merge_channel_state_nodup ch ver ty blob l :
  NoDup (map cs_key l) ->
  NoDup (map cs_key (merge_channel_state ch ver ty blob l)).
Proof.
  intros H. unfold merge_channel_state.
  destruct (existsb _ l) eqn:E; [exact H|].
  rewrite map_app. cbn [map cs_key cs_channel cs_version].
  apply NoDup_snoc; [exact H|]. intros Hin.
  apply in_map_iff in Hin as (cs & Hk & Hin).
  assert (Hex : existsb (fun cs => key_eqb (cs_channel cs, cs_version cs)
                                           (ch, ver)) l = true).
  { apply existsb_exists. exists cs. split; [exact Hin|].
    apply key_eqb_eq. exact Hk. }
  congruence.
Qed.

Lemma upsert_channel_state_graph_inv cid ch ver ty blob :
  stmt_preserves graph_inv
    (fun s => CYPHER_UPSERT_CHANNEL_STATE s cid ch ver ty blob).
Proof.
  intros s s' G H. unfold CYPHER_UPSERT_CHANNEL_STATE in H.
  destruct blob as [bl|]; [|discriminate]. cbn [param bind] in H.
  injection H as <-.
  apply (@graph_inv_frame s _ G); try reflexivity;
    cbn [channel_states previous head]; try apply G.
  rewrite fold_merge_rows. destruct (match_checkpoint s cid); [apply G|].
  apply merge_channel_state_nodup, G.
Qed.

Lemma upsert_write_graph_inv cid task path idx ch ty blob :
  stmt_preserves graph_inv
    (fun s => CYPHER_UPSERT_WRITE s cid task path idx ch ty blob).
Proof.
  intros s s' G H. unfold CYPHER_UPSERT_WRITE in H.
  destruct blob as [bl|]; [|discriminate]. cbn [param bind] in H.
  injection H as <-. apply (@graph_inv_eq s _ G); reflexivity.
Qed.

Lemma delete_orphans_graph_inv :
  stmt_preserves graph_inv CYPHER_DELETE_ORPHAN_CHANNEL_STATES.
Proof.
  intros s s' G H. injection H as <-.
  apply (@graph_inv_frame s _ G); try reflexivity;
    cbn [channel_states previous head]; try apply G.
  apply NoDup_map_filter, G.
Qed.

(** *** Statements on branches and heads *)

(** Rebuilding the invariant for a store that has the threads, the
    checkpoints, the channel states and the parent links of [s]. *)
Lemma graph_inv_branch_frame s s' :
  graph_inv s ->
  threads s' = threads s -> checkpoints s' = checkpoints s ->
  channel_states s' = channel_states s -> previous s' = previous s ->
  branch_inv s' ->
  (forall h, In h (head s') ->
             In (fst h) (branch_ids s') /\ In (snd h) (checkpoint_ids s)) ->
  (forall b, (List.length (heads_of s' b) <= 1)%nat) ->
  graph_inv s'.
Proof.
  intros [G1 G2 G3 G4 G5 G6 G7 GB] Ht Hc Hcs Hp HB H6 H7.
  split; unfold checkpoint_ids in *; rewrite ?Ht, ?Hc, ?Hcs, ?Hp; auto.
Qed.

Lemma filter_none {A} (p : A -> bool) (l : list A) :
  (forall x, In x l -> p x = false) -> filter p l = [].
Proof.
  intros H. induction l as [|x tl IH]; [reflexivity|].
  cbn [filter]. rewrite (H x) by now left.
  apply IH. intros y Hy. apply H. now right.
Qed.

Lemma filter_all {A} (p : A -> bool) (l : list A) :
  (forall x, In x l -> p x = true) -> filter p l = l.
Proof.
  intros H. induction l as [|x tl IH]; [reflexivity|].
  cbn [filter]. rewrite (H x) by now left.
  f_equal. apply IH. intros y Hy. apply H. now right.
Qed.

Lemma flat_map_filter {A B} (p : A -> bool) (f : A -> list B) (l : list A) :
  flat_map (fun a => if p a then f a else []) l = flat_map f (filter p l).
Proof.
  induction l as [|x tl IH]; [reflexivity|].
  cbn [flat_map filter]. destruct (p x); cbn [flat_map app]; now rewrite IH.
Qed.

Lemma create_main_branch_graph_inv t ns uuid :
  stmt_preserves graph_inv (fun s => CYPHER_CREATE_MAIN_BRANCH s t ns uuid).
Proof.
  intros s s' G H.
  pose proof (@create_main_branch_inv t ns uuid s s' (gi_branch G) H) as GB.
  unfold CYPHER_CREATE_MAIN_BRANCH in H.
  destruct (_ && _); [|now injection H as <-].
  destruct (match_branch s uuid); [|discriminate]. injection H as <-.
  apply (@graph_inv_branch_frame s _ G); try reflexivity; [exact GB|..];
    cbn [head branches].
  - intros h Hh. destruct (gi_head G h Hh) as [A B]. split; [|exact B].
    unfold branch_ids in *. cbn [branches]. rewrite map_app.
    apply in_or_app. now left.
  - apply G.
Qed.

Lemma create_branch_graph_inv t ns b name fork :
  stmt_preserves graph_inv (fun s => CYPHER_CREATE_BRANCH s t ns b name fork).
Proof.
  intros s s' G H.
  pose proof (@create_branch_inv t ns b name fork s s' (gi_branch G) H) as GB.
  unfold CYPHER_CREATE_BRANCH in H.
  destruct (mem_key (t, ns) (threads s)); [|now injection H as <-].
  destruct (match_branch s b) eqn:Em; [|discriminate]. injection H as <-.
  apply match_branch_nil in Em.
  assert (Hnew : forall h,
             In h (map (fun c => (b, cn_checkpoint_id c))
                       (match_checkpoint s fork)) ->
             fst h = b /\ In (snd h) (checkpoint_ids s)).
  { intros h Hh. apply in_map_iff in Hh as (c & <- & Hc).
    apply match_checkpoint_In in Hc as [Hc _]. split; [reflexivity|].
    unfold checkpoint_ids. cbn [snd]. apply in_map. exact Hc. }
  apply (@graph_inv_branch_frame s _ G); try reflexivity; [exact GB|..];
    cbn [head branches].
  - intros h Hh. unfold branch_ids. cbn [branches]. rewrite map_app.
    apply in_app_or in Hh as [Hh|Hh].
    + destruct (gi_head G h Hh) as [A B]. split; [|exact B].
      apply in_or_app. now left.
    + destruct (Hnew h Hh) as [A B]. split; [|exact B].
      apply in_or_app. right. left. cbn. now rewrite A.
  - intros b0. unfold heads_of. cbn [head]. rewrite filter_app, length_app.
    destruct (String.eqb_spec b0 b) as [->|Hne].
    + rewrite (@filter_none _ _ (head s)).
      * cbn [List.length plus]. etransitivity; [apply filter_length_le|].
        rewrite length_map.
        apply (@NoDup_map_filter_one _ cn_checkpoint_id fork _
                 (gi_checkpoints G)).
      * intros h Hh. destruct (String.eqb_spec (fst h) b) as [E|]; [|reflexivity].
        exfalso. apply Em. rewrite <- E. now apply (gi_head G).
    + rewrite (@filter_none _ _ (map _ _)).
      * rewrite Nat.add_0_r. apply (gi_one_head G).
      * intros h Hh. destruct (Hnew h Hh) as [A _]. rewrite A.
        destruct (String.eqb_spec b b0); [congruence|reflexivity].
Qed.

Lemma set_active_branch_graph_inv t ns b :
  stmt_preserves graph_inv (fun s => CYPHER_SET_ACTIVE_BRANCH s t ns b).
Proof.
  intros s s' G H.
  pose proof (@set_active_branch_inv t ns b s s' (gi_branch G) H) as GB.
  unfold CYPHER_SET_ACTIVE_BRANCH in H.
  destruct (mem_key (t, ns) (threads s)); [|now injection H as <-].
  injection H as <-.
  apply (@graph_inv_branch_frame s _ G); try reflexivity; [exact GB|..];
    cbn [head branches]; apply G.
Qed.

Lemma delete_branch_graph_inv b :
  stmt_preserves graph_inv (fun s => CYPHER_DELETE_BRANCH s b).
Proof.
  intros s s' G H.
  pose proof (@delete_branch_inv b s s' (gi_branch G) H) as GB.
  injection H as <-.
  apply (@graph_inv_branch_frame s _ G); try reflexivity; [exact GB|..];
    cbn [head branches].
  - intros h Hh. apply filter_In in Hh as [Hh Hne].
    destruct (gi_head G h Hh) as [A B]. split; [|exact B].
    unfold branch_ids in *. cbn [branches].
    apply in_map_iff in A as (x & Hx & Hin). apply in_map_iff.
    exists x. split; [exact Hx|]. apply filter_In. split; [exact Hin|].
    now rewrite Hx.
  - intros b0. unfold heads_of. cbn [head].
    etransitivity; [apply filter_filter_length_le|]. apply (gi_one_head G).
Qed.

Lemma mem_string_In k l : mem_string k l = true <-> In k l.
Proof.
  unfold mem_string. rewrite existsb_exists. split.
  - intros (x & Hx & E). apply String.eqb_eq in E. now subst.
  - intros H. exists k. split; [exact H|apply String.eqb_refl].
Qed.

Lemma update_branch_head_graph_inv t ns cid :
  stmt_preserves graph_inv (fun s => CYPHER_UPDATE_BRANCH_HEAD s t ns cid).
Proof.
  intros s s' G H. unfold CYPHER_UPDATE_BRANCH_HEAD in H. injection H as <-.
  set (actives :=
         if mem_key (t, ns) (threads s)
         then flat_map (fun a => if key_eqb (fst a) (t, ns)
                                 then map br_branch_id (match_branch s (snd a))
                                 else [])
                       (active_branch s)
         else []).
  assert (Hact : actives = []
                 \/ exists b, actives = [b] /\ In b (branch_ids s)).
  { subst actives. destruct (mem_key (t, ns) (threads s)); [|now left].
    rewrite (flat_map_filter
               (fun a : thread_key * string => key_eqb (fst a) (t, ns))
               (fun a => map br_branch_id (match_branch s (snd a)))).
    match goal with
    | |- context [flat_map _ (filter ?p (active_branch s))] =>
        assert (Hlen : (List.length (filter p (active_branch s)) <= 1)%nat)
          by exact (bi_one (gi_branch G) (t, ns));
        destruct (@length_le_one _ (filter p (active_branch s)) Hlen)
          as [E|(a & E)]; rewrite E; clear E Hlen
    end; [now left|].
    cbn [flat_map]. rewrite app_nil_r.
    destruct (match_branch_unique s (snd a) (bi_nodup (gi_branch G)))
      as [->|(x & Ex)]; [now left|right].
    rewrite Ex. exists (br_branch_id x). split; [reflexivity|].
    unfold branch_ids. apply in_map.
    apply (match_branch_In s (snd a)). rewrite Ex. now left. }
  assert (HB : branch_inv
                 {| threads := threads s; checkpoints := checkpoints s;
                    previous := previous s;
                    channel_states := channel_states s;
                    has_channel := has_channel s; writes := writes s;
                    branches := branches s;
                    active_branch := active_branch s;
                    head :=
                      filter (fun h => negb (mem_string (fst h) actives))
                             (head s)
                      ++ flat_map
                           (fun b =>
                              List.concat
                                (repeat
                                   (map (fun c => (b, cn_checkpoint_id c))
                                        (match_checkpoint s cid))
                                   (optional_rows
                                      (filter (fun h => String.eqb (fst h) b)
                                              (head s)))))
                           actives;
                    on_branch :=
                      fold_left (fun l r => merge_edge (snd r, fst r) l)
                        (flat_map
                           (fun b =>
                              List.concat
                                (repeat
                                   (map (fun c => (b, cn_checkpoint_id c))
                                        (match_checkpoint s cid))
                                   (optional_rows
                                      (filter (fun h => String.eqb (fst h) b)
                                              (head s)))))
                           actives)
                        (on_branch s) |}).
  { apply (@branch_inv_eq s); try reflexivity. apply G. }
  apply (@graph_inv_branch_frame s _ G); try reflexivity; [exact HB|..];
    cbn [head branches]; clear HB.
  - intros h Hh. unfold branch_ids. cbn [branches].
    apply in_app_or in Hh as [Hh|Hh].
    + apply filter_In in Hh as [Hh _]. now apply (gi_head G).
    + apply in_flat_map in Hh as (b & Hb & Hh).
      apply in_concat in Hh as (X & HX & Hh).
      apply repeat_spec in HX. subst X.
      apply in_map_iff in Hh as (c & <- & Hc).
      apply match_checkpoint_In in Hc as [Hc _]. cbn [fst snd]. split.
      * destruct Hact as [E|(b' & E & Hin)]; rewrite E in Hb;
          [destruct Hb|]. destruct Hb as [<-|[]]. exact Hin.
      * unfold checkpoint_ids. now apply in_map.
  - intros b0. unfold heads_of. cbn [head]. rewrite filter_app, length_app.
    destruct Hact as [E|(b & E & Hin)]; rewrite E.
    + cbn [flat_map filter List.length]. rewrite Nat.add_0_r.
      etransitivity; [apply filter_filter_length_le|]. apply (gi_one_head G).
    + cbn [flat_map]. rewrite app_nil_r.
      pose proof (gi_one_head G b) as Hb1. unfold heads_of in Hb1.
      rewrite (@optional_rows_one _ _ Hb1), concat_repeat_one. clear Hb1.
      destruct (String.eqb_spec b0 b) as [->|Hne].
      * rewrite (@filter_none _ _ (filter _ (head s))).
        -- cbn [List.length plus]. etransitivity; [apply filter_length_le|].
           rewrite length_map.
           apply (@NoDup_map_filter_one _ cn_checkpoint_id cid _
                    (gi_checkpoints G)).
        -- intros h Hh. apply filter_In in Hh as [_ Hh].
           cbn [mem_string existsb] in Hh. rewrite orb_false_r in Hh.
           now apply negb_true_iff in Hh.
      * rewrite (@filter_none _ _ (map _ _)).
        -- rewrite Nat.add_0_r.
           etransitivity; [apply filter_filter_length_le|].
           apply (gi_one_head G).
        -- intros h Hh. apply in_map_iff in Hh as (c & <- & _). cbn [fst].
           destruct (String.eqb_spec b b0); [congruence|reflexivity].
Qed.

Lemma delete_thread_graph_inv t :
  stmt_preserves graph_inv (fun s => CYPHER_DELETE_THREAD s t).
Proof.
  intros s s' G H.
  pose proof (@delete_thread_branch_inv t s s' (gi_branch G) H) as GB.
  unfold CYPHER_DELETE_THREAD in H. injection H as <-.
  set (dead := fun k : thread_key =>
                 String.eqb (fst k) t && mem_key k (threads s)) in *.
  set (dead_c := map cn_checkpoint_id
                     (filter (fun c => dead (cn_thread c)) (checkpoints s)))
    in *.
  set (dead_b := map br_branch_id
                     (filter (fun b => dead (br_thread b)) (branches s))) in *.
  assert (Hc : forall k, In k (checkpoint_ids s) -> mem_string k dead_c = false ->
                 In k (map cn_checkpoint_id
                           (filter (fun c => negb (dead (cn_thread c)))
                                   (checkpoints s)))).
  { intros k Hk Hd. apply in_map_iff in Hk as (c & <- & Hin).
    apply in_map. apply filter_In. split; [exact Hin|].
    destruct (dead (cn_thread c)) eqn:E; [|reflexivity].
    assert (Hm : mem_string (cn_checkpoint_id c) dead_c = true).
    { apply mem_string_In. subst dead_c. apply in_map. apply filter_In.
      now split. }
    congruence. }
  assert (Hb : forall k, In k (branch_ids s) -> mem_string k dead_b = false ->
                 In k (map br_branch_id
                           (filter (fun b => negb (dead (br_thread b)))
                                   (branches s)))).
  { intros k Hk Hd. apply in_map_iff in Hk as (b & <- & Hin).
    apply in_map. apply filter_In. split; [exact Hin|].
    destruct (dead (br_thread b)) eqn:E; [|reflexivity].
    assert (Hm : mem_string (br_branch_id b) dead_b = true).
    { apply mem_string_In. subst dead_b. apply in_map. apply filter_In.
      now split. }
    congruence. }
  split; cbn [threads checkpoints channel_states previous head branches
              active_branch]; unfold checkpoint_ids, branch_ids, heads_of;
    cbn [threads checkpoints channel_states previous head branches
         active_branch].
  - apply NoDup_filter, G.
  - apply NoDup_map_filter, G.
  - apply G.
  - intros e He. apply filter_In in He as [He Hd].
    apply negb_true_iff, orb_false_iff in Hd as [D1 D2].
    destruct (gi_previous G e He) as [A B]. split; now apply Hc.
  - apply NoDup_map_filter, G.
  - intros h Hh. apply filter_In in Hh as [Hh Hd].
    apply negb_true_iff, orb_false_iff in Hd as [D1 D2].
    destruct (gi_head G h Hh) as [A B]. split; [now apply Hb|now apply Hc].
  - intros b. etransitivity; [apply filter_filter_length_le|].
    apply (gi_one_head G).
  - exact GB.
Qed.

Lemma exec_graph_inv serde op s : graph_inv s -> graph_inv (exec serde op s).
Proof.
  intros G. destruct op; cbn [exec].
  - apply snd_preserves; [|exact G].
    apply put_preserves
      with (J := fun cid s => graph_inv s /\ ~ In cid (map fst (previous s))).
    + intros. eapply upsert_checkpoint_graph_inv; eassumption.
    + now intros cid s0 [H _].
    + intros cid p s0 s1 [H1 H2] H. eapply link_parent_graph_inv; eassumption.
    + apply upsert_channel_state_graph_inv.
    + apply create_main_branch_graph_inv.
    + apply update_branch_head_graph_inv.
  - apply snd_preserves; [|exact G]. apply putWrites_preserves.
    apply upsert_write_graph_inv.
  - apply snd_preserves; [|exact G]. apply deleteThread_preserves.
    + apply delete_thread_graph_inv.
    + apply delete_orphans_graph_inv.
  - apply exec_stmt_preserves; [apply create_branch_graph_inv|exact G].
  - apply exec_stmt_preserves; [apply set_active_branch_graph_inv|exact G].
  - apply exec_stmt_preserves; [apply delete_branch_graph_inv|exact G].
Qed.

Lemma reachable_graph_inv serde s : reachable serde s -> graph_inv s.
Proof.
  induction 1 as [|op s _ IH].
  - refine {| gi_branch := reachable_branch_inv (reach_empty serde) |};
      cbn; try (intros ? []); try constructor; auto.
  - now apply exec_graph_inv.
Qed.

(** The store after two [put]s on one thread, the second a child of the
    first. *)
Definition reached_store : Store :=
  exec text_serde
       (OpPut (thread_config "T" (Some "c1")) second_checkpoint JNull [] "u2")
       (exec text_serde
             (OpPut (thread_config "T" None) sample_checkpoint JNull [] "u1")
             empty_store).

Lemma reached_store_reachable : reachable text_serde reached_store.
Proof.
  unfold reached_store. apply reach_step. apply reach_step. apply reach_empty.
Defined.

(** The uniqueness constraints of the schema hold in every store the
    operations can reach: no two threads with the same key, no two
    checkpoints with the same id, no two channel states with the same
    (channel, version), no two branches with the same id. *)
Theorem reachable_unique_keys :
  forall serde s,
    reachable serde s ->
    NoDup (threads s)
    /\ NoDup (checkpoint_ids s)
    /\ NoDup (map cs_key (channel_states s))
    /\ NoDup (branch_ids s).
Proof.
  intros serde s H. apply reachable_graph_inv in H.
  split; [apply H|]. split; [apply H|]. split; [apply H|].
  apply (bi_nodup (gi_branch H)).
Qed.

Lemma reachable_unique_keys_witness :
  NoDup (threads reached_store)
  /\ NoDup (checkpoint_ids reached_store)
  /\ NoDup (map cs_key (channel_states reached_store))
  /\ NoDup (branch_ids reached_store).
Proof.
  apply (reachable_unique_keys (serde := text_serde)).
  exact reached_store_reachable.
Defined.

(** In every reachable store a branch has at most one [HEAD] edge, and a
    [HEAD] edge leads from an existing branch to an existing checkpoint. *)
Theorem reachable_single_head :
  forall serde s,
    reachable serde s ->
    (forall b, (List.length (heads_of s b) <= 1)%nat)
    /\ (forall h, In h (head s) ->
          In (fst h) (branch_ids s) /\ In (snd h) (checkpoint_ids s)).
Proof.
  intros serde s H. apply reachable_graph_inv in H. split; apply H.
Qed.

Lemma reachable_single_head_witness :
  (forall b, (List.length (heads_of reached_store b) <= 1)%nat)
  /\ (forall h, In h (head reached_store) ->
        In (fst h) (branch_ids reached_store)
        /\ In (snd h) (checkpoint_ids reached_store)).
Proof.
  apply (reachable_single_head (serde := text_serde)).
  exact reached_store_reachable.
Defined.

(** *** One row per checkpoint *)

Lemma checkpoint_rows_single s c :
  graph_inv s ->
  exists p,
    checkpoint_rows s c
    = [ {| rec_thread_id := fst (cn_thread c);
           rec_checkpoint_ns := snd (cn_thread c);
           rec_checkpoint_id := cn_checkpoint_id c;
           rec_parent_checkpoint_id := p;
           rec_type := cn_type c;
           rec_checkpoint := cn_checkpoint c;
           rec_metadata := cn_metadata c |} ]
    /\ (forall q, p = Some q -> In (cn_checkpoint_id c, q) (previous s)).
Proof.
  intros G. unfold checkpoint_rows.
  rewrite (flat_map_filter
             (fun e : string * string =>
                String.eqb (fst e) (cn_checkpoint_id c))
             (fun e => map cn_checkpoint_id (match_checkpoint s (snd e)))).
  assert (Hlen : (List.length
                    (filter (fun e : string * string =>
                               String.eqb (fst e) (cn_checkpoint_id c))
                            (previous s)) <= 1)%nat).
  { pose proof (gi_parent G) as Hn. clear - Hn.
    induction (previous s) as [|e tl IH]; [cbn; lia|].
    cbn [map] in Hn. inversion Hn as [|? ? Hnot Hnd]; subst.
    cbn [filter]. destruct (String.eqb_spec (fst e) (cn_checkpoint_id c));
      [|now apply IH].
    cbn [List.length]. rewrite (@filter_none _ _ tl); [cbn; lia|].
    intros x Hx. destruct (String.eqb_spec (fst x) (cn_checkpoint_id c));
      [|reflexivity].
    exfalso. apply Hnot. rewrite e0, <- e1. now apply in_map. }
  destruct (@length_le_one _ _ Hlen) as [E|(e & E)]; rewrite E.
  - exists None. split; [reflexivity|discriminate].
  - cbn [flat_map]. rewrite app_nil_r.
    assert (He : In e (previous s) /\ fst e = cn_checkpoint_id c).
    { assert (Hin : In e (filter (fun e : string * string =>
                                    String.eqb (fst e) (cn_checkpoint_id c))
                                 (previous s))) by (rewrite E; now left).
      apply filter_In in Hin as [H1 H2]. split; [exact H1|].
      now apply String.eqb_eq. }
    destruct He as [He1 He2].
    destruct (match_checkpoint_unique s (snd e) (gi_checkpoints G))
      as [->|(q & Eq)].
    + exists None. split; [reflexivity|discriminate].
    + rewrite Eq. exists (Some (cn_checkpoint_id q)). split; [reflexivity|].
      intros q' [= <-].
      assert (Hq : In q (match_checkpoint s (snd e))) by (rewrite Eq; now left).
      apply match_checkpoint_In in Hq as [_ Hq]. rewrite Hq, <- He2.
      now destruct e.
Qed.

(** In every reachable store a read by id finds at most one row, which is
    the checkpoint with that id in that thread, and a checkpoint has at
    most one [PREVIOUS] edge, between existing checkpoints. *)
Theorem reachable_single_row :
  forall serde s thread_id checkpoint_ns checkpoint_id,
    reachable serde s ->
    (List.length (CYPHER_GET_CHECKPOINT_BY_ID s thread_id checkpoint_ns
                                              checkpoint_id) <= 1)%nat
    /\ (forall r, In r (CYPHER_GET_CHECKPOINT_BY_ID s thread_id checkpoint_ns
                                                    checkpoint_id) ->
          rec_thread_id r = thread_id /\ rec_checkpoint_ns r = checkpoint_ns
          /\ rec_checkpoint_id r = checkpoint_id)
    /\ NoDup (map fst (previous s))
    /\ (forall e, In e (previous s) ->
          In (fst e) (checkpoint_ids s) /\ In (snd e) (checkpoint_ids s)).
Proof.
  intros serde s t ns cid H. apply reachable_graph_inv in H.
  split; [|split; [|split; apply H]].
  - unfold CYPHER_GET_CHECKPOINT_BY_ID.
    assert (Hlen : (List.length
                      (filter (fun c => String.eqb (cn_checkpoint_id c) cid)
                              (thread_checkpoints s (t, ns))) <= 1)%nat).
    { unfold thread_checkpoints. destruct (mem_key (t, ns) (threads s));
        [|cbn; lia].
      apply (@NoDup_map_filter_one _ cn_checkpoint_id cid _).
      apply NoDup_map_filter, H. }
    destruct (@length_le_one _ _ Hlen) as [E|(c & E)]; rewrite E;
      [cbn; lia|].
    cbn [flat_map]. rewrite app_nil_r.
    destruct (checkpoint_rows_single c H) as (p & -> & _). cbn. lia.
  - intros r Hr. unfold CYPHER_GET_CHECKPOINT_BY_ID in Hr.
    apply in_flat_map in Hr as (c & Hc & Hr).
    apply filter_In in Hc as [Hc Hid]. apply String.eqb_eq in Hid.
    unfold thread_checkpoints in Hc.
    destruct (mem_key (t, ns) (threads s)); [|destruct Hc].
    apply filter_In in Hc as [_ Hk]. apply key_eqb_eq in Hk.
    destruct (checkpoint_rows_single c H) as (p & E & _). rewrite E in Hr.
    destruct Hr as [<-|[]]. cbn. rewrite Hk. auto.
Qed.

Lemma reachable_single_row_witness :
  (List.length (CYPHER_GET_CHECKPOINT_BY_ID reached_store "T" "" "c2")
   <= 1)%nat
  /\ (forall r, In r (CYPHER_GET_CHECKPOINT_BY_ID reached_store
                                                  "T" "" "c2") ->
        rec_thread_id r = "T" /\ rec_checkpoint_ns r = ""
        /\ rec_checkpoint_id r = "c2")
  /\ NoDup (map fst (previous reached_store))
  /\ (forall e, In e (previous reached_store) ->
        In (fst e) (checkpoint_ids reached_store)
        /\ In (snd e) (checkpoint_ids reached_store)).
Proof.
  apply (reachable_single_row (serde := text_serde)).
  exact reached_store_reachable.
Defined.

(* ======================================================================= *)
(** ** The latest checkpoint of a thread *)
(* ======================================================================= *)

Lemma str_ltb_lt a b : str_ltb a b = true <-> String_as_OT.lt a b.
Proof.
  unfold str_ltb. pose proof String_as_OT.lt_strorder as [Hirr Htr].
  destruct (String_as_OT.compare_spec a b) as [E|L|L]; split; intros H;
    try discriminate; try reflexivity; try exact L; exfalso.
  - rewrite E in H. exact (Hirr _ H).
  - exact (Hirr _ (Htr _ _ _ H L)).
Qed.

Lemma str_ltb_ge a b :
  str_ltb a b = false -> a = b \/ str_ltb b a = true.
Proof.
  unfold str_ltb at 1.
  destruct (String_as_OT.compare_spec a b) as [E|L|L]; intros H;
    [now left|discriminate|right]. now apply str_ltb_lt.
Qed.

Lemma str_ltb_trans a b c :
  str_ltb a b = true -> str_ltb b c = true -> str_ltb a c = true.
Proof.
  rewrite !str_ltb_lt. pose proof String_as_OT.lt_strorder as [_ Htr].
  apply Htr.
Qed.

Lemma str_ltb_irrefl a : str_ltb a a = false.
Proof.
  destruct (str_ltb a a) eqn:E; [|reflexivity].
  apply str_ltb_lt in E. pose proof String_as_OT.lt_strorder as [Hirr _].
  destruct (Hirr _ E).
Qed.

Lemma insert_desc_In x l y : In y (insert_desc x l) <-> y = x \/ In y l.
Proof.
  induction l as [|z tl IH]; cbn [insert_desc].
  - cbn. intuition.
  - destruct (str_ltb _ _); cbn [In]; [rewrite IH|]; intuition.
Qed.

Lemma order_by_id_desc_In l y : In y (order_by_id_desc l) <-> In y l.
Proof.
  unfold order_by_id_desc. induction l as [|x tl IH]; cbn [fold_right].
  - reflexivity.
  - rewrite insert_desc_In, IH. cbn. intuition.
Qed.

(** The first row of [ORDER BY c.checkpoint_id DESC]: no checkpoint of the
    list has a greater id. *)
Lemma order_by_id_desc_first l :
  match order_by_id_desc l with
  | [] => l = []
  | h :: _ =>
      In h l
      /\ forall c, In c l ->
           str_ltb (cn_checkpoint_id h) (cn_checkpoint_id c) = false
  end.
Proof.
  unfold order_by_id_desc. induction l as [|x tl IH]; [reflexivity|].
  cbn [fold_right]. destruct (fold_right insert_desc [] tl) as [|h rest] eqn:E.
  - subst tl. cbn. split; [now left|]. intros c [<-|[]]. apply str_ltb_irrefl.
  - destruct IH as [Hin Hmax]. cbn [insert_desc].
    destruct (str_ltb (cn_checkpoint_id x) (cn_checkpoint_id h)) eqn:Ex.
    + split; [now right|]. intros c [<-|Hc]; [|now apply Hmax].
      destruct (str_ltb (cn_checkpoint_id h) (cn_checkpoint_id x)) eqn:Eh;
        [|reflexivity].
      pose proof (str_ltb_trans _ _ _ Ex Eh) as Hxx.
      now rewrite str_ltb_irrefl in Hxx.
    + split; [now left|]. intros c [<-|Hc]; [apply str_ltb_irrefl|].
      destruct (str_ltb (cn_checkpoint_id x) (cn_checkpoint_id c)) eqn:Ec;
        [|reflexivity].
      pose proof (Hmax c Hc) as Hhc.
      destruct (str_ltb_ge _ _ Ex) as [Eq|Lt].
      * rewrite Eq in Ec. congruence.
      * pose proof (str_ltb_trans _ _ _ Lt Ec). congruence.
Qed.

(** The read [getTuple] falls back to when the thread has no active branch
    head: on a reachable store [CYPHER_GET_LATEST_CHECKPOINT] returns nothing
    for a thread without checkpoints, and otherwise the one row of the
    thread's checkpoint whose id is the greatest in string order, whichever
    was written last. *)
Theorem latest_is_greatest :
  forall serde s thread_id checkpoint_ns,
    reachable serde s ->
    match CYPHER_GET_LATEST_CHECKPOINT s thread_id checkpoint_ns with
    | [] => thread_checkpoints s (thread_id, checkpoint_ns) = []
    | r :: others =>
        others = []
        /\ rec_thread_id r = thread_id
        /\ rec_checkpoint_ns r = checkpoint_ns
        /\ In (rec_checkpoint_id r)
              (map cn_checkpoint_id
                   (thread_checkpoints s (thread_id, checkpoint_ns)))
        /\ forall c, In c (thread_checkpoints s (thread_id, checkpoint_ns)) ->
             cn_checkpoint_id c <> rec_checkpoint_id r ->
             str_ltb (cn_checkpoint_id c) (rec_checkpoint_id r) = true
    end.
Proof.
  intros serde s t ns H. apply reachable_graph_inv in H.
  unfold CYPHER_GET_LATEST_CHECKPOINT.
  pose proof (order_by_id_desc_first (thread_checkpoints s (t, ns))) as Hf.
  destruct (order_by_id_desc (thread_checkpoints s (t, ns))) as [|h rest].
  - exact Hf.
  - destruct Hf as [Hin Hmax]. cbn [firstn flat_map]. rewrite app_nil_r.
    destruct (checkpoint_rows_single h H) as (p & -> & _).
    cbn [rec_thread_id rec_checkpoint_ns rec_checkpoint_id].
    assert (Hk : cn_thread h = (t, ns)).
    { unfold thread_checkpoints in Hin.
      destruct (mem_key (t, ns) (threads s)); [|destruct Hin].
      apply filter_In in Hin as [_ Hk]. now apply key_eqb_eq in Hk. }
    rewrite Hk. repeat split.
    + now apply in_map.
    + intros c Hc Hne. destruct (str_ltb_ge _ _ (Hmax c Hc)) as [E|L];
        [congruence|exact L].
Qed.

Lemma latest_is_greatest_witness :
  match CYPHER_GET_LATEST_CHECKPOINT reached_store "T" "" with
  | [] => thread_checkpoints reached_store ("T", "") = []
  | r :: others =>
      others = []
      /\ rec_thread_id r = "T"
      /\ rec_checkpoint_ns r = ""
      /\ In (rec_checkpoint_id r)
            (map cn_checkpoint_id (thread_checkpoints reached_store ("T", "")))
      /\ forall c, In c (thread_checkpoints reached_store ("T", "")) ->
           cn_checkpoint_id c <> rec_checkpoint_id r ->
           str_ltb (cn_checkpoint_id c) (rec_checkpoint_id r) = true
  end.
Proof.
  apply (latest_is_greatest (serde := text_serde)).
  exact reached_store_reachable.
Defined.

(* ======================================================================= *)
(** ** What is written stays *)
(* ======================================================================= *)

(** [l'] is [l] with elements added at its end. *)
Definition grows {A} (l l' : list A) : Prop :=
  exists more, l' = (l ++ more)%list.

Lemma grows_refl {A} (l : list A) : grows l l.
Proof. exists []. now rewrite app_nil_r. Qed.

Lemma grows_trans {A} (l1 l2 l3 : list A) :
  grows l1 l2 -> grows l2 l3 -> grows l1 l3.
Proof.
  intros [m1 ->] [m2 ->]. exists (m1 ++ m2)%list. now rewrite app_assoc.
Qed.

Lemma grows_app {A} (l more : list A) : grows l (l ++ more).
Proof. now exists more. Qed.

(** [s'] has every checkpoint, parent link, channel state, [HAS_CHANNEL]
    edge and pending write of [s], unchanged and in the same order. *)
Record history_kept (s s' : Store) : Prop := {
  hk_checkpoints : grows (checkpoints s) (checkpoints s');
  hk_previous : grows (previous s) (previous s');
  hk_channel_states : grows (channel_states s) (channel_states s');
  hk_has_channel : grows (has_channel s) (has_channel s');
  hk_writes : grows (writes s) (writes s')
}.

Lemma history_kept_refl s : history_kept s s.
Proof. split; apply grows_refl. Qed.

Lemma history_kept_trans s1 s2 s3 :
  history_kept s1 s2 -> history_kept s2 s3 -> history_kept s1 s3.
Proof.
  intros [A1 A2 A3 A4 A5] [B1 B2 B3 B4 B5].
  split; eapply grows_trans; eassumption.
Qed.

Lemma history_kept_stmt s0 stmt :
  (forall s s', stmt s = Ok s' -> history_kept s s') ->
  stmt_preserves (history_kept s0) stmt.
Proof.
  intros H s s' H0 Hs. eapply history_kept_trans; [exact H0|]. now apply H.
Qed.

Lemma fold_merge_edge_grows {A} (f : A -> string * string) rows :
  forall l, grows l (fold_left (fun acc r => merge_edge (f r) acc) rows l).
Proof.
  induction rows as [|r tl IH]; intros l; cbn [fold_left].
  - apply grows_refl.
  - eapply grows_trans; [|apply IH]. unfold merge_edge.
    destruct (mem_key (f r) l); [apply grows_refl|apply grows_app].
Qed.

Lemma fold_merge_channel_state_grows {A} ch ver ty blob (rows : list A) :
  forall l,
    grows l (fold_left (fun acc _ => merge_channel_state ch ver ty blob acc)
                       rows l).
Proof.
  induction rows as [|r tl IH]; intros l; cbn [fold_left].
  - apply grows_refl.
  - eapply grows_trans; [|apply IH]. unfold merge_channel_state.
    destruct (existsb _ l); [apply grows_refl|apply grows_app].
Qed.

Lemma upsert_checkpoint_history t ns cid ty sc sm s s' :
  CYPHER_UPSERT_CHECKPOINT_SIMPLE s t ns cid ty sc sm = Ok s' ->
  history_kept s s'.
Proof.
  intros H. apply upsert_checkpoint_inv in H
    as (c & m & _ & _ & _ & Hc & _ & Hp & Hcs & Hhc & Hw & _).
  split; rewrite ?Hc, ?Hp, ?Hcs, ?Hhc, ?Hw;
    try apply grows_refl. apply grows_app.
Qed.

Lemma link_parent_history cid p s s' :
  CYPHER_LINK_PARENT_CHECKPOINT s cid p = Ok s' -> history_kept s s'.
Proof.
  unfold CYPHER_LINK_PARENT_CHECKPOINT. intros [= <-].
  split; cbn; try apply grows_refl.
  apply (fold_merge_edge_grows (fun e : string * string => e)).
Qed.

Lemma upsert_channel_state_history cid ch ver ty blob s s' :
  CYPHER_UPSERT_CHANNEL_STATE s cid ch ver ty blob = Ok s' ->
  history_kept s s'.
Proof.
  unfold CYPHER_UPSERT_CHANNEL_STATE. destruct blob as [bl|]; [|discriminate].
  cbn [param bind]. intros [= <-].
  split; cbn; try apply grows_refl; [|apply grows_app].
  apply fold_merge_channel_state_grows.
Qed.

Lemma upsert_write_history cid task path idx ch ty blob s s' :
  CYPHER_UPSERT_WRITE s cid task path idx ch ty blob = Ok s' ->
  history_kept s s'.
Proof.
  unfold CYPHER_UPSERT_WRITE. destruct blob as [bl|]; [|discriminate].
  cbn [param bind]. intros [= <-].
  split; cbn; try apply grows_refl. apply grows_app.
Qed.

Lemma create_main_branch_history t ns uuid s s' :
  CYPHER_CREATE_MAIN_BRANCH s t ns uuid = Ok s' -> history_kept s s'.
Proof.
  unfold CYPHER_CREATE_MAIN_BRANCH. destruct (_ && _).
  - destruct (match_branch s uuid); [|discriminate]. intros [= <-].
    split; cbn; apply grows_refl.
  - intros [= <-]. apply history_kept_refl.
Qed.

Lemma update_branch_head_history t ns cid s s' :
  CYPHER_UPDATE_BRANCH_HEAD s t ns cid = Ok s' -> history_kept s s'.
Proof.
  intros H. apply update_head_frame in H
    as (_ & Hc & Hp & Hcs & Hhc & Hw & _).
  split; rewrite ?Hc, ?Hp, ?Hcs, ?Hhc, ?Hw; apply grows_refl.
Qed.

Lemma create_branch_history t ns b name fork s s' :
  CYPHER_CREATE_BRANCH s t ns b name fork = Ok s' -> history_kept s s'.
Proof.
  unfold CYPHER_CREATE_BRANCH. destruct (mem_key _ _).
  - destruct (match_branch s b); [|discriminate]. intros [= <-].
    split; cbn; apply grows_refl.
  - intros [= <-]. apply history_kept_refl.
Qed.

Lemma set_active_branch_history t ns b s s' :
  CYPHER_SET_ACTIVE_BRANCH s t ns b = Ok s' -> history_kept s s'.
Proof.
  unfold CYPHER_SET_ACTIVE_BRANCH. destruct (mem_key _ _); intros [= <-];
    [split; cbn; apply grows_refl|apply history_kept_refl].
Qed.

Lemma delete_branch_history b s s' :
  CYPHER_DELETE_BRANCH s b = Ok s' -> history_kept s s'.
Proof.
  unfold CYPHER_DELETE_BRANCH. intros [= <-]. split; cbn; apply grows_refl.
Qed.

(** Only [deleteThread] removes or changes stored data: every other
    operation, whether it returns or throws, leaves each checkpoint, parent
    link, channel state, [HAS_CHANNEL] edge and pending write of the store in
    place and only adds new ones after them. *)
Theorem history_append_only :
  forall serde op s,
    (forall t, op <> OpDeleteThread t) ->
    history_kept s (exec serde op s).
Proof.
  intros serde op s Hop. destruct op; cbn [exec].
  - apply (@snd_preserves _ (history_kept s)); [|apply history_kept_refl].
    apply put_preserves with (J := fun _ => history_kept s).
    + intros. eapply history_kept_trans; [eassumption|].
      eapply upsert_checkpoint_history; eassumption.
    + auto.
    + intros. eapply history_kept_trans; [eassumption|].
      eapply link_parent_history; eassumption.
    + intros. apply history_kept_stmt. intros.
      eapply upsert_channel_state_history; eassumption.
    + intros. apply history_kept_stmt. intros.
      eapply create_main_branch_history; eassumption.
    + intros. apply history_kept_stmt. intros.
      eapply update_branch_head_history; eassumption.
  - apply (@snd_preserves _ (history_kept s)); [|apply history_kept_refl].
    apply putWrites_preserves. intros. apply history_kept_stmt. intros.
    eapply upsert_write_history; eassumption.
  - exfalso. eapply Hop. reflexivity.
  - apply (@exec_stmt_preserves (history_kept s));
      [|apply history_kept_refl].
    apply history_kept_stmt. intros. eapply create_branch_history; eassumption.
  - apply (@exec_stmt_preserves (history_kept s));
      [|apply history_kept_refl].
    apply history_kept_stmt. intros.
    eapply set_active_branch_history; eassumption.
  - apply (@exec_stmt_preserves (history_kept s));
      [|apply history_kept_refl].
    apply history_kept_stmt. intros. eapply delete_branch_history; eassumption.
Qed.

Lemma history_append_only_witness :
  history_kept store_after_first
    (exec text_serde
          (OpPut (thread_config "T" (Some "c1")) second_checkpoint JNull []
                 "u2")
          store_after_first).
Proof.
  apply history_append_only. intros t. discriminate.
Defined.

(* ======================================================================= *)
(** ** What [getTuple] and [list] read *)
(* ======================================================================= *)

(** The rows [getTuple] takes its checkpoint record from. *)
Definition getTuple_rows (s : Store) (pc : ParsedConfig)
    : list CheckpointRecord :=
  if truthy (checkpointId pc) then
    CYPHER_GET_CHECKPOINT_BY_ID s (threadId pc) (checkpointNs pc)
      (match checkpointId pc with Some c => c | None => "" end)
  else
    match CYPHER_GET_ACTIVE_BRANCH_HEAD s (threadId pc) (checkpointNs pc) with
    | [] => CYPHER_GET_LATEST_CHECKPOINT s (threadId pc) (checkpointNs pc)
    | r => r
    end.

(** [getTuple] once the record is found. *)
Definition getTuple_record (serde : SerializerProtocol) (s : Store)
    (checkpointRecord : CheckpointRecord) : result (option CheckpointTuple) :=
  do checkpoint <- loadCheckpoint serde (rec_type checkpointRecord)
                                  (rec_checkpoint checkpointRecord);
  do cv <- read_prop checkpoint "channel_versions";
  let channelVersions := nullish cv (JObject []) in
  do channelValues <-
    (match Object_keys channelVersions with
     | _ :: _ =>
         loadBlobs serde
           (map (fun r => match r with
                          | (channel, type, blob, _) => (channel, type, blob)
                          end)
                (fetch_channel_states s
                   (rec_checkpoint_id checkpointRecord) channelVersions))
     | [] => Ok []
     end);
  do pendingWrites <-
    loadWrites serde
      (map (fun w => (pw_task_id w, pw_channel w, pw_type w, pw_blob w))
           (CYPHER_GET_WRITES s (rec_checkpoint_id checkpointRecord)));
  do tuple <- makeCheckpointTuple serde checkpointRecord channelValues
                                  pendingWrites;
  Ok (Some tuple).

Lemma getTuple_unfold serde s cfg :
  getTuple serde s cfg
  = do pc <- parseConfig cfg;
    match getTuple_rows s pc with
    | [] => Ok None
    | checkpointRecord :: _ => getTuple_record serde s checkpointRecord
    end.
Proof. reflexivity. Qed.

(** [s'] differs from [s] at most in its channel states and [HAS_CHANNEL]
    edges. *)
Definition same_but_channels (s s' : Store) : Prop :=
  threads s' = threads s /\ checkpoints s' = checkpoints s
  /\ previous s' = previous s /\ writes s' = writes s
  /\ branches s' = branches s /\ active_branch s' = active_branch s
  /\ head s' = head s.

Lemma same_but_channels_rows s s' pc :
  same_but_channels s s' ->
  getTuple_rows s' pc = getTuple_rows s pc
  /\ (forall cid, CYPHER_GET_WRITES s' cid = CYPHER_GET_WRITES s cid)
  /\ (forall t ns b l,
        CYPHER_LIST_CHECKPOINTS s' t ns b l = CYPHER_LIST_CHECKPOINTS s t ns b l).
Proof.
  intros (Ht & Hc & Hp & Hw & Hb & Ha & Hh).
  destruct s, s'. cbn in Ht, Hc, Hp, Hw, Hb, Ha, Hh. subst.
  repeat split.
Qed.

(** The channel states are fetched and decoded by [getTuple], and then not
    used: on two stores that differ only in channel states and their edges,
    [getTuple] returns the same tuple whenever it returns on both, and
    [list] behaves the same in every case. *)
Theorem getTuple_ignores_channel_states :
  forall serde s s' cfg options,
    same_but_channels s s' ->
    is_ok (getTuple serde s cfg) = true ->
    is_ok (getTuple serde s' cfg) = true ->
    getTuple serde s' cfg = getTuple serde s cfg
    /\ list_ serde s' cfg options = list_ serde s cfg options.
Proof.
  intros serde s s' cfg options H. unfold list_. rewrite !getTuple_unfold.
  destruct (parseConfig cfg) as [pc|e]; cbn [bind]; [|discriminate].
  destruct (same_but_channels_rows pc H) as (-> & Hw & Hl).
  split.
  - destruct (getTuple_rows s pc) as [|r _]; [reflexivity|].
    revert H0 H1. unfold getTuple_record. rewrite Hw.
    destruct (loadCheckpoint serde _ _) as [cp|e]; cbn [bind];
      [|discriminate].
    destruct (read_prop cp "channel_versions") as [cv|e]; cbn [bind];
      [|discriminate].
    destruct (Object_keys (nullish cv (JObject []))) as [|k ks];
      [reflexivity|].
    destruct (loadBlobs serde _) as [vals|e]; cbn [bind]; [|discriminate].
    destruct (loadBlobs serde _) as [vals'|e]; cbn [bind]; [|discriminate].
    reflexivity.
  - destruct (match match options with
                    | Some o => before o
                    | None => None
                    end with
              | Some b => _
              | None => _
              end) as [beforeId|e]; cbn [bind]; [|reflexivity].
    now rewrite Hl.
Qed.

(** [s] without its channel states. *)
Definition without_channel_states (s : Store) : Store :=
  {| threads := threads s; checkpoints := checkpoints s;
     previous := previous s; channel_states := []; has_channel := [];
     writes := writes s; branches := branches s;
     active_branch := active_branch s; head := head s;
     on_branch := on_branch s |}.

Lemma without_channel_states_same s :
  same_but_channels s (without_channel_states s).
Proof. repeat split. Qed.

Lemma getTuple_ignores_channel_states_witness :
  getTuple text_serde (without_channel_states store_after_first)
           (thread_config "T" (Some "c1"))
  = getTuple text_serde store_after_first (thread_config "T" (Some "c1"))
  /\ list_ text_serde (without_channel_states store_after_first)
            (thread_config "T" (Some "c1")) None
     = list_ text_serde store_after_first (thread_config "T" (Some "c1")) None.
Proof.
  apply getTuple_ignores_channel_states.
  - apply without_channel_states_same.
  - vm_compute. reflexivity.
  - vm_compute. reflexivity.
Defined.

(* ======================================================================= *)
(** ** Checkpoint and metadata payloads *)
(* ======================================================================= *)

(** What makes a stored payload decodable: the serializer reads back the
    bytes it wrote, or, when it wrote none, the value survives JSON and does
    not look like a wrapper. *)
Definition payload_decodable (serde : SerializerProtocol) (x : jsval) : Prop :=
  forall type data,
    dumpsTyped serde x = Ok (type, data) ->
    match data with
    | DBytes bytes => loadsTyped serde (JString type) bytes = Ok x
    | DOther => json_exact x /\ marker_free x
    end.

(** Payload round trip: [dumpMetadata] encodes as [dumpCheckpoint] does,
    the text of a decodable payload is defined, and [loadCheckpoint] and
    [loadMetadata] decode it to the value whatever type they are given
    ([makeCheckpointTuple] passes the checkpoint's type for both). *)
Theorem payload_roundtrip :
  forall serde x ty stored any_type,
    payload_decodable serde x ->
    dumpCheckpoint serde x = Ok (ty, stored) ->
    dumpMetadata serde x = Ok (ty, stored)
    /\ exists t, stored = Some t
                 /\ loadCheckpoint serde any_type t = Ok x
                 /\ loadMetadata serde any_type t = Ok x.
Proof.
  intros serde x ty stored any_type Hd H. split; [exact H|].
  unfold dumpCheckpoint in H.
  destruct (dumpsTyped serde x) as [[type data]|e] eqn:E; cbn [bind] in H;
    [|discriminate].
  specialize (Hd type data E). destruct data as [bytes|].
  - injection H as <- <-. eexists. split; [reflexivity|].
    rewrite <- Hd. split.
    + now apply loadCheckpoint_wrapper.
    + now apply loadMetadata_wrapper.
  - injection H as <- <-. destruct Hd as [He Hm]. exists x.
    split; [exact He|].
    unfold loadCheckpoint, loadMetadata, JSON_parse.
    unfold marker_free in Hm. rewrite Hm. now split.
Qed.

Lemma payload_roundtrip_witness :
  dumpMetadata text_serde (js_of_checkpoint sample_checkpoint)
  = Ok ("json", Some (js_of_checkpoint sample_checkpoint))
  /\ exists t, Some (js_of_checkpoint sample_checkpoint) = Some t
               /\ loadCheckpoint text_serde "serde" t
                  = Ok (js_of_checkpoint sample_checkpoint)
               /\ loadMetadata text_serde "serde" t
                  = Ok (js_of_checkpoint sample_checkpoint).
Proof.
  apply (payload_roundtrip (serde := text_serde)
           (x := js_of_checkpoint sample_checkpoint)).
  - intros type data [= <- <-]. split; reflexivity.
  - reflexivity.
Defined.

(* ======================================================================= *)
(** ** A [put] that throws half way *)
(* ======================================================================= *)

(** [put] is not atomic.  When the checkpoint and the metadata were encoded
    and the id is new, but the serializer throws on a channel value, [put]
    throws that error after the checkpoint node was created: the node stays
    in the store, without channel states and without being made the head of
    a branch, and from then on the same [put] is rejected by the uniqueness
    constraint. *)
Theorem put_failure_not_rolled_back :
  forall serde cfg cp md nv uuid s pc ty sc mty sm e,
    parseConfig cfg = Ok pc ->
    dumpCheckpoint serde (js_of_checkpoint cp) = Ok (ty, Some sc) ->
    dumpMetadata serde md = Ok (mty, Some sm) ->
    match_checkpoint s (id cp) = [] ->
    dumpBlobs serde (channel_values cp) (channel_versions cp) = Err e ->
    exists s',
      put serde cfg cp md nv uuid s = (Err e, s')
      /\ checkpoints s'
         = (checkpoints s
            ++ [ {| cn_thread := (threadId pc, checkpointNs pc);
                    cn_checkpoint_id := id cp; cn_type := ty;
                    cn_checkpoint := sc; cn_metadata := sm |} ])%list
      /\ channel_states s' = channel_states s
      /\ has_channel s' = has_channel s
      /\ branches s' = branches s
      /\ head s' = head s
      /\ forall nv' uuid',
           put serde cfg cp md nv' uuid' s' = (Err ConstraintViolation, s').
Proof.
  intros serde cfg cp md nv uuid s pc ty sc mty sm e Hp Hc Hm Hfresh Hb.
  assert (Hput : forall nv0 uuid0 s0,
             put serde cfg cp md nv0 uuid0 s0
             = (run (fun s => CYPHER_UPSERT_CHECKPOINT_SIMPLE s (threadId pc)
                                (checkpointNs pc) (id cp) ty (Some sc)
                                (Some sm)) ;;
                put_parent_link pc (id cp) ;;
                blobs <- lift (Err e) ;;
                put_channel_states (id cp) blobs ;;
                put_main_branch pc uuid0 ;;
                run (fun s => CYPHER_UPDATE_BRANCH_HEAD s (threadId pc)
                                (checkpointNs pc) (id cp)) ;;
                mret (put_result pc cp)) s0).
  { intros nv0 uuid0 s0. rewrite put_unfold. unfold mbind at 1, lift at 1.
    rewrite Hp. unfold mbind at 1, lift at 1. rewrite Hc.
    unfold mbind at 1, lift at 1. rewrite Hm, Hb. reflexivity. }
  destruct (CYPHER_UPSERT_CHECKPOINT_SIMPLE s (threadId pc) (checkpointNs pc)
              (id cp) ty (Some sc) (Some sm)) as [s1|e1] eqn:E1.
  2:{ unfold CYPHER_UPSERT_CHECKPOINT_SIMPLE in E1. cbn [param bind] in E1.
      rewrite Hfresh in E1. discriminate. }
  destruct (put_parent_link pc (id cp) s1) as [r2 s2] eqn:E2.
  pose proof (parent_link_frame _ _ _ E2)
    as (-> & _ & L2 & L3 & L4 & _ & L6 & _ & L8 & _).
  pose proof (upsert_checkpoint_inv _ _ _ _ _ _ _ E1)
    as (c & m & [= <-] & [= <-] & _ & U1 & _ & _ & U3 & U4 & _ & U6 & _ & U8 & _).
  exists s2. split; [|repeat split].
  - rewrite Hput. unfold mbind at 1, run at 1. rewrite E1.
    unfold mbind at 1. rewrite E2. reflexivity.
  - now rewrite L2.
  - now rewrite L3.
  - now rewrite L4.
  - now rewrite L6.
  - now rewrite L8.
  - intros nv' uuid'. rewrite Hput. unfold mbind at 1, run at 1.
    unfold CYPHER_UPSERT_CHECKPOINT_SIMPLE. cbn [param bind].
    unfold match_checkpoint. rewrite L2, U1, filter_app. cbn [filter].
    cbn [cn_checkpoint_id]. rewrite String.eqb_refl.
    destruct (filter _ (checkpoints s)); reflexivity.
Qed.

(** A serializer that throws on functions. *)
Definition strict_serde : SerializerProtocol :=
  {| dumpsTyped := fun x =>
       match x with
       | JFunction _ => Err SerdeError
       | _ => Ok ("json", DOther)
       end;
     loadsTyped := fun _ _ => Err SerdeError |}.

Definition callback_checkpoint : Checkpoint :=
  {| v := 1; id := "c9"; ts := "2026";
     channel_values := [("a", JNumber 5); ("cb", JFunction "f")];
     channel_versions := [("a", VNumber 1); ("cb", VNumber 1)];
     versions_seen := JObject [] |}.

Lemma put_failure_not_rolled_back_witness :
  exists s',
    put strict_serde (thread_config "T" None) callback_checkpoint JNull []
        "u1" empty_store = (Err SerdeError, s')
    /\ checkpoints s'
       = (checkpoints empty_store
          ++ [ {| cn_thread := ("T", ""); cn_checkpoint_id := "c9";
                  cn_type := "json";
                  cn_checkpoint :=
                    JObject [("v", JNumber 1); ("id", JString "c9");
                             ("ts", JString "2026");
                             ("channel_values", JObject [("a", JNumber 5)]);
                             ("channel_versions",
                              JObject [("a", JNumber 1); ("cb", JNumber 1)]);
                             ("versions_seen", JObject [])];
                  cn_metadata := JNull |} ])%list
    /\ channel_states s' = channel_states empty_store
    /\ has_channel s' = has_channel empty_store
    /\ branches s' = branches empty_store
    /\ head s' = head empty_store
    /\ forall nv' uuid',
         put strict_serde (thread_config "T" None) callback_checkpoint JNull
             nv' uuid' s' = (Err ConstraintViolation, s').
Proof.
  apply (put_failure_not_rolled_back strict_serde (thread_config "T" None)
           callback_checkpoint JNull [] "u1" empty_store
           (pc := {| threadId := "T"; checkpointNs := "";
                     checkpointId := None |})
           (mty := "json")); reflexivity.
Defined.
